(** * Configuration override engine of the MMseqs2 web backend

    A shallow embedding of [backend/config.go]: the schema-typed
    configuration tree ([ConfigRoot] and its sub-records), the loader's path
    normalisation ([ReadConfig]) and the command-line override engine
    ([ReadParameters], [setParameter], [setNodeValue]).

    The Go code walks the tree with the [reflect] package and mutates it in
    place.  The tree has a single owner and no sharing, so the embedding
    passes the tree explicitly: every operation returns the tree as it is
    after the call together with the call's outcome. *)

From Stdlib Require Import ZArith List String Ascii Bool Lia.
Import ListNotations.

Set Warnings "-register-all".

Local Open Scope string_scope.
Local Open Scope list_scope.
Local Open Scope Z_scope.

(** ** Go's [error] values

    [errors.New] builds an [errorString]; [strconv] reports a [NumError]
    holding the failing function, the input and the underlying error;
    [fmt.Errorf] is kept as its format and operand. *)

Inductive error : Type :=
| errorString (s : string)
| NumError (Func Num : string) (Err : error)
| wrapError (format : string) (operand : error).

Module errors.
Definition New (text : string) : error := errorString text.
End errors.

Module fmt.
Definition Errorf (format : string) (operand : error) : error :=
  wrapError format operand.
End fmt.

(** A call returning Go's [error] either returns [nil], returns an error,
    or panics. *)
Inductive outcome : Type :=
| Nil
| Err (err : error)
| Panic (msg : string).

(** ** The parts of package [strings] the program uses *)

Module strings.

(** [strings.HasPrefix s prefix] *)
Definition HasPrefix (s prefix : string) : bool := String.prefix prefix s.

Fixpoint containsByte (cutset : string) (c : ascii) : bool :=
  match cutset with
  | EmptyString => false
  | String d rest => Ascii.eqb c d || containsByte rest c
  end.

(** [strings.TrimLeft s cutset]: [s] without its leading characters that
    occur in [cutset].  The program's cutsets are single ASCII characters,
    for which bytes and code points coincide. *)
Fixpoint TrimLeft (s cutset : string) : string :=
  match s with
  | EmptyString => EmptyString
  | String c rest => if containsByte cutset c then TrimLeft rest cutset else s
  end.

(** [strings.Split s sep] for a non-empty separator: the pieces of [s]
    between the occurrences of [sep], found left to right; always at
    least one piece.  [skip] counts the bytes of a separator occurrence
    still to be passed over, [piece] is the current piece, reversed. *)
Fixpoint splitFrom (s sep : string) (skip : nat) (piece : string) : list string :=
  match s with
  | EmptyString => [piece]
  | String c rest =>
      match skip with
      | S k => splitFrom rest sep k piece
      | O =>
          if String.prefix sep s
          then piece :: splitFrom rest sep (String.length sep - 1) EmptyString
          else splitFrom rest sep O (piece ++ String c EmptyString)%string
      end
  end.

Definition Split (s sep : string) : list string := splitFrom s sep O EmptyString.

(** [strings.Join elems sep] *)
Fixpoint Join (elems : list string) (sep : string) : string :=
  match elems with
  | [] => EmptyString
  | [e] => e
  | e :: rest => (e ++ sep ++ Join rest sep)%string
  end.

(** Substring test ([strings.Contains]). *)
Fixpoint Contains (s substr : string) : bool :=
  String.prefix substr s ||
  match s with
  | EmptyString => false
  | String _ rest => Contains rest substr
  end.

End strings.

(** ** The parts of package [strconv] the program uses *)

Module strconv.

Definition ErrSyntax : error := errors.New "invalid syntax".
Definition ErrRange : error := errors.New "value out of range".

Definition syntaxError (fn str : string) : error := NumError fn str ErrSyntax.
Definition rangeError (fn str : string) : error := NumError fn str ErrRange.

(** [strconv.ParseBool] *)
Definition ParseBool (str : string) : bool * option error :=
  if (String.eqb str "1" || String.eqb str "t" || String.eqb str "T" ||
      String.eqb str "true" || String.eqb str "TRUE" || String.eqb str "True")%bool
  then (true, None)
  else if (String.eqb str "0" || String.eqb str "f" || String.eqb str "F" ||
      String.eqb str "false" || String.eqb str "FALSE" || String.eqb str "False")%bool
  then (false, None)
  else (false, Some (syntaxError "ParseBool" str)).

Definition maxUint64 : Z := 2 ^ 64 - 1.

(** Unsigned 64-bit arithmetic wraps around. *)
Definition uint64 (x : Z) : Z := x mod 2 ^ 64.

Definition lower (c : Z) : Z := Z.lor c 32.

(** The value of byte [c] as a digit, if it is one in some base up to 36. *)
Definition digitOf (c : ascii) : option Z :=
  let b := Z.of_N (N_of_ascii c) in
  if (48 <=? b) && (b <=? 57) then Some (b - 48)
  else if (97 <=? lower b) && (lower b <=? 122) then Some (lower b - 97 + 10)
  else None.

(** The digit loop of [strconv.ParseUint]: [n] is the value read so far.
    The result is the loop's exit: a value, or [maxVal] with [ErrRange],
    or 0 with [ErrSyntax]. *)
Fixpoint parseDigits (s : string) (base cutoff maxVal n : Z) : Z * option error :=
  match s with
  | EmptyString => (n, None)
  | String c rest =>
      match digitOf c with
      | None => (0, Some ErrSyntax)
      | Some d =>
          if base <=? d then (0, Some ErrSyntax)
          else if cutoff <=? n then (maxVal, Some ErrRange)
          else
            let n := uint64 (n * base) in
            let n1 := uint64 (n + d) in
            if (n1 <? n) || (maxVal <? n1) then (maxVal, Some ErrRange)
            else parseDigits rest base cutoff maxVal n1
      end
  end.

(** [strconv.ParseUint s base bitSize], for an explicit base from 2 to 36
    and a bit size from 1 to 64 (the program passes 10 and 64). *)
Definition ParseUint (s : string) (base bitSize : Z) : Z * option error :=
  match s with
  | EmptyString => (0, Some (syntaxError "ParseUint" s))
  | _ =>
      let cutoff := maxUint64 / base + 1 in
      let maxVal := uint64 (uint64 (Z.shiftl 1 bitSize) - 1) in
      match parseDigits s base cutoff maxVal 0 with
      | (n, None) => (n, None)
      | (n, Some e) => (n, Some (NumError "ParseUint" s e))
      end
  end.

(** The test [err != nil] and [Err] of the [NumError] is not [ErrRange]. *)
Definition isOtherThanRange (err : option error) : bool :=
  match err with
  | Some (NumError _ _ (errorString msg)) => negb (String.eqb msg "value out of range")
  | Some _ => true
  | None => false
  end.

(** The [Err] field of the reported [NumError]. *)
Definition numErr (err : option error) : error :=
  match err with
  | Some (NumError _ _ e) => e
  | Some e => e
  | None => ErrSyntax
  end.

(** [strconv.ParseInt s base bitSize], under the same conditions. *)
Definition ParseInt (s : string) (base bitSize : Z) : Z * option error :=
  match s with
  | EmptyString => (0, Some (syntaxError "ParseInt" s))
  | String c rest =>
      let s0 := s in
      let neg := Ascii.eqb c "-" in
      let s := if Ascii.eqb c "+" || Ascii.eqb c "-" then rest else s in
      let '(un, err) := ParseUint s base bitSize in
      if isOtherThanRange err
      then (0, Some (NumError "ParseInt" s0 (numErr err)))
      else
        let cutoff := Z.shiftl 1 (bitSize - 1) in
        if negb neg && (cutoff <=? un) then (cutoff - 1, Some (rangeError "ParseInt" s0))
        else if neg && (cutoff <? un) then (- cutoff, Some (rangeError "ParseInt" s0))
        else (if neg then - un else un, None)
  end.

End strconv.

(** ** The parts of package [path/filepath] the program uses (Unix) *)

Module filepath.

(** The elements of [Clean]'s output, most recent first.  [dotdot] counts
    the leading [..] elements, below which a later [..] cannot backtrack. *)
Fixpoint cleanElems (elems : list string) (rooted : bool)
         (out : list string) (dotdot : nat) : list string :=
  match elems with
  | [] => out
  | e :: rest =>
      if String.eqb e "" || String.eqb e "." then cleanElems rest rooted out dotdot
      else if String.eqb e ".." then
        if (dotdot <? List.length out)%nat
        then cleanElems rest rooted (List.tl out) dotdot
        else if rooted then cleanElems rest rooted out dotdot
        else cleanElems rest rooted (".." :: out) (S dotdot)
      else cleanElems rest rooted (e :: out) dotdot
  end.

(** [filepath.Clean]: the shortest path equivalent to [path] by purely
    lexical processing: empty and [.] elements are dropped, an inner [..]
    removes the element before it, [..] at the root is dropped. *)
Definition Clean (path : string) : string :=
  if String.eqb path "" then "."
  else
    let rooted := strings.HasPrefix path "/" in
    let out := List.rev (cleanElems (strings.Split path "/") rooted [] O) in
    let body := strings.Join out "/" in
    if rooted then ("/" ++ body)%string
    else if String.eqb body "" then "." else body.

Fixpoint dropEmpty (elem : list string) : list string :=
  match elem with
  | [] => []
  | e :: rest => if String.eqb e "" then dropEmpty rest else elem
  end.

(** [filepath.Join]: the elements from the first non-empty one on, joined
    by the separator and cleaned; the empty string if all are empty. *)
Definition Join (elem : list string) : string :=
  match dropEmpty elem with
  | [] => ""
  | elems => Clean (strings.Join elems "/")
  end.

End filepath.

(** ** The parts of package [reflect] the program uses *)

Module reflect.

(** A struct field as [Type.Field(i)] describes it.  [PkgPath] is empty
    exactly for exported (upper-case) field names; [Anonymous] marks an
    embedded field.  The tag is kept as its key/value pairs:
    [`json:"address" valid:"required"`] is
    [[("json", "address"); ("valid", "required")]]. *)
Record StructField : Type := mkField {
  Name : string;
  PkgPath : string;
  Anonymous : bool;
  Tag : list (string * string)
}.

Definition IsExported (f : StructField) : bool := String.eqb (PkgPath f) "".

(** [tag.Get(key)]: the value of [key] in the tag, or the empty string. *)
Fixpoint Get (tag : list (string * string)) (key : string) : string :=
  match tag with
  | [] => ""
  | (k, v) :: rest => if String.eqb k key then v else Get rest key
  end.

Inductive IntKind : Type := Int | Int8 | Int16 | Int32 | Int64.
Inductive UintKind : Type := Uint | Uint8 | Uint16 | Uint32 | Uint64.

(** Go's [int] and [uint] have 64 bits on the 64-bit targets the backend
    is built for. *)
Definition IntSize : Z := 64.

Definition intBits (k : IntKind) : Z :=
  match k with Int => IntSize | Int8 => 8 | Int16 => 16 | Int32 => 32 | Int64 => 64 end.

Definition uintBits (k : UintKind) : Z :=
  match k with Uint => IntSize | Uint8 => 8 | Uint16 => 16 | Uint32 => 32 | Uint64 => 64 end.

(** Types: the kinds [setNodeValue] distinguishes, and [float64] standing
    for the kinds it does not. *)
Inductive rtype : Type :=
| TBool
| TInt (k : IntKind)
| TUint (k : UintKind)
| TFloat64
| TString
| TStruct (fields : list (StructField * rtype))
| TPtr (elem : rtype).

(** The stored data: what a variable of such a type holds.  A pointer is
    [nil] or owns its target (the configuration tree has no sharing). *)
Inductive object : Type :=
| OBool (b : bool)
| OInt (k : IntKind) (i : Z)
| OUint (k : UintKind) (u : Z)
| OFloat64 (bits : Z)
| OString (s : string)
| OStruct (fields : list (StructField * object))
| OPtr (elem : rtype) (target : option object).

(** The zero value of a type, as [reflect.New(t)] allocates it. *)
Fixpoint Zero (t : rtype) : object :=
  match t with
  | TBool => OBool false
  | TInt k => OInt k 0
  | TUint k => OUint k 0
  | TFloat64 => OFloat64 0
  | TString => OString ""
  | TStruct fields => OStruct (List.map (fun ft => (fst ft, Zero (snd ft))) fields)
  | TPtr elem => OPtr elem None
  end.

(** The read-only bits of a value's flag: [flagStickyRO], set by an
    unexported field that is not embedded, and [flagEmbedRO], set by an
    unexported embedded field.  [flagRO] is the two together. *)
Record roFlag : Type := mkRoFlag {
  flagStickyRO : bool;
  flagEmbedRO : bool
}.

Definition writable : roFlag := {| flagStickyRO := false; flagEmbedRO := false |}.

(** [flag&flagRO != 0] *)
Definition isRO (fl : roFlag) : bool := flagStickyRO fl || flagEmbedRO fl.

(** The read-only bits of [v.Field(i)]: the sticky bit of [v] is inherited
    and its embedded bit cleared; an unexported field sets the embedded bit
    if it is embedded and the sticky bit if not. *)
Definition fieldFlag (fl : roFlag) (sf : StructField) : roFlag :=
  {| flagStickyRO := flagStickyRO fl || (negb (IsExported sf) && negb (Anonymous sf));
     flagEmbedRO := negb (IsExported sf) && Anonymous sf |}.

(** A [reflect.Value] reached from the addressable root: the data it
    refers to and its read-only bits.  Such a value is always valid and
    addressable; [v.Elem()] of a pointer keeps both bits. *)
Record Value : Type := mkValue {
  flagRO : roFlag;
  obj : object
}.

Definition IsValid (v : Value) : bool := true.
Definition CanSet (v : Value) : bool := negb (isRO (flagRO v)).

(** What [SetInt] and [SetUint] store: the argument converted to the
    field's own integer type. *)
Definition SetInt (k : IntKind) (x : Z) : Z :=
  let half := 2 ^ (intBits k - 1) in
  (x + half) mod 2 ^ intBits k - half.

Definition SetUint (k : UintKind) (x : Z) : Z := x mod 2 ^ uintBits k.

End reflect.

Export reflect.

(** ** The override engine *)

(** The [node] argument of [setNodeValue]: at the first call a pointer to
    the tree, in the recursive calls a [reflect.Value]. *)
Inductive Node : Type :=
| Pointer (target : object)
| Reflected (v : Value).

(** The branch [len(path) == 0] of [setNodeValue] for a [reflect.Value]:
    coerce [value] to the leaf's declared type and store it. *)
Definition setLeaf (v : Value) (value : string) : object * outcome :=
  if negb (IsValid v) || negb (CanSet v)
  then (obj v, Err (errors.New "Leaf node is not valid"))
  else
    match obj v with
    | OStruct _ => (obj v, Err (errors.New "Leaf node is a struct"))
    | OInt k _ =>
        match strconv.ParseInt value 10 64 with
        | (_, Some err) => (obj v, Err err)
        | (i, None) => (OInt k (SetInt k i), Nil)
        end
    | OUint k _ =>
        match strconv.ParseUint value 10 64 with
        | (_, Some err) => (obj v, Err err)
        | (i, None) => (OUint k (SetUint k i), Nil)
        end
    | OBool _ =>
        match strconv.ParseBool value with
        | (_, Some err) => (obj v, Err err)
        | (b, None) => (OBool b, Nil)
        end
    | OString _ => (OString value, Nil)
    | _ => (obj v, Err (errors.New "Leaf node type not implemented"))
    end.

(** The loop of [setNodeValue] over the fields of struct [v], in declaration
    order; [descend] is the recursive call on the matched field.  The result
    is the fields after the call. *)
Fixpoint scanFields (descend : Value -> object * outcome) (ro : roFlag) (seg : string)
         (fields : list (StructField * object)) : list (StructField * object) * outcome :=
  match fields with
  | [] => ([], Err (errors.New "Path not found in config"))
  | (sf, fv) :: rest =>
      let tag := Get (Tag sf) "json" in
      if String.eqb tag "" || String.eqb tag "-" then
        let '(rest', out) := scanFields descend ro seg rest in ((sf, fv) :: rest', out)
      else if String.eqb tag seg then
        let f := {| flagRO := fieldFlag ro sf; obj := fv |} in
        let '(fv', out) := descend f in ((sf, fv') :: rest, out)
      else
        let '(rest', out) := scanFields descend ro seg rest in ((sf, fv) :: rest', out)
  end.

(** The check [v.Kind() != reflect.Struct] and the loop. *)
Definition intoStruct (descend : Value -> object * outcome) (ro : roFlag) (seg : string)
           (o : object) : object * outcome :=
  match o with
  | OStruct fields =>
      let '(fields', out) := scanFields descend ro seg fields in (OStruct fields', out)
  | _ => (o, Err (errors.New "Node is not a struct"))
  end.

(** [setNodeValue]: depth-first descent along [path], then [setLeaf]. *)
Fixpoint setNodeValue (node : Node) (path : list string) (value : string) : object * outcome :=
  match path with
  | [] =>
      match node with
      | Reflected v => setLeaf v value
      | Pointer target => (target, Err (errors.New "Leaf node is not a value"))
      end
  | seg :: rest =>
      let v := match node with
               | Reflected v => v
               | Pointer target => {| flagRO := writable; obj := target |}
               end in
      let descend := fun f : Value => setNodeValue (Reflected f) rest value in
      match obj v with
      | OPtr t None =>
          if isRO (flagRO v)
          then (obj v, Panic "reflect: reflect.Value.Set using value obtained using unexported field")
          else
            let '(e, out) := intoStruct descend (flagRO v) seg (Zero t) in
            (OPtr t (Some e), out)
      | OPtr t (Some n) =>
          let '(e, out) := intoStruct descend (flagRO v) seg n in
          (OPtr t (Some e), out)
      | o => intoStruct descend (flagRO v) seg o
      end
  end.

(** [setParameter] on the tree [c] points to. *)
Definition setParameter (c : object) (key value : string) : object * outcome :=
  let path := strings.Split key "." in
  setNodeValue (Pointer c) path value.

(** The loop of [ReadParameters], with its variables [key] and
    [inParameter], and the check after the loop. *)
Fixpoint readArgs (c : object) (key : string) (inParameter : bool)
         (args : list string) : object * outcome :=
  match args with
  | [] =>
      if inParameter then (c, Err (errors.New "Invalid Parameter String")) else (c, Nil)
  | arg :: rest =>
      if strings.HasPrefix arg "-" then
        if inParameter then (c, Err (errors.New "Invalid Parameter String"))
        else readArgs c (strings.TrimLeft arg "-") true rest
      else
        if negb inParameter then (c, Err (errors.New "Invalid Parameter String"))
        else
          match setParameter c key arg with
          | (c', Nil) => readArgs c' key false rest
          | (c', out) => (c', out)
          end
  end.

(** [ReadParameters] on the tree its receiver points to. *)
Definition ReadParameters (c : object) (args : list string) : object * outcome :=
  readArgs c "" false args.

(** ** The configuration tree *)

Record ConfigPaths : Type := mkConfigPaths {
  Databases : string;
  Results : string;
  Temporary : string;
  Mmseqs : string
}.

(** [RedisAddress] and [RedisPassword] are the Go fields [Address] and
    [Password] of [ConfigRedis]. *)
Record ConfigRedis : Type := mkConfigRedis {
  Network : string;
  RedisAddress : string;
  RedisPassword : string;
  DbIndex : Z
}.

Record ConfigMailTemplate : Type := mkConfigMailTemplate {
  Subject : string;
  Body : string
}.

(** [OnSuccess], [OnTimeout] and [OnError] are the Go fields [Success],
    [Timeout] and [Error]. *)
Record ConfigMailTemplates : Type := mkConfigMailTemplates {
  OnSuccess : ConfigMailTemplate;
  OnTimeout : ConfigMailTemplate;
  OnError : ConfigMailTemplate
}.

Record ConfigMail : Type := mkConfigMail {
  Transport : string;
  Sender : string;
  Templates : ConfigMailTemplates
}.

Record ConfigAuth : Type := mkConfigAuth {
  Username : string;
  Password : string
}.

Record ConfigServer : Type := mkConfigServer {
  Address : string;
  PathPrefix : string;
  DbManagment : bool;
  CORS : bool;
  Auth : option ConfigAuth
}.

Record ConfigRoot : Type := mkConfigRoot {
  Server : ConfigServer;
  Paths : ConfigPaths;
  Redis : ConfigRedis;
  Mail : ConfigMail;
  Verbose : bool
}.

(** The struct fields with their tags, as declared. *)
Module Fields.
Definition exported (name : string) (tag : list (string * string)) : StructField :=
  {| Name := name; PkgPath := ""; Anonymous := false; Tag := tag |}.

Definition Databases := exported "Databases" [("json", "databases")].
Definition Results := exported "Results" [("json", "results")].
Definition Temporary := exported "Temporary" [("json", "temporary")].
Definition Mmseqs := exported "Mmseqs" [("json", "mmseqs")].

Definition Network := exported "Network" [("json", "network")].
Definition RedisAddress := exported "Address" [("json", "address")].
Definition RedisPassword := exported "Password" [("json", "password")].
Definition DbIndex := exported "DbIndex" [("json", "index")].

Definition Subject := exported "Subject" [("json", "subject")].
Definition Body := exported "Body" [("json", "body")].

Definition OnSuccess := exported "Success" [("json", "success")].
Definition OnTimeout := exported "Timeout" [("json", "timeout")].
Definition OnError := exported "Error" [("json", "error")].

Definition Transport := exported "Transport" [("json", "type")].
Definition Sender := exported "Sender" [("json", "sender")].
Definition Templates := exported "Templates" [("json", "templates")].

Definition Username := exported "Username" [("json", "username"); ("valid", "required")].
Definition Password := exported "Password" [("json", "password"); ("valid", "required")].

Definition Address := exported "Address" [("json", "address"); ("valid", "required")].
Definition PathPrefix := exported "PathPrefix" [("json", "pathprefix"); ("valid", "optional")].
Definition DbManagment := exported "DbManagment" [("json", "dbmanagment"); ("valid", "optional")].
Definition CORS := exported "CORS" [("json", "cors"); ("valid", "optional")].
Definition Auth := exported "Auth" [("json", "auth"); ("valid", "optional")].

Definition Server := exported "Server" [("json", "server"); ("valid", "required")].
Definition Paths := exported "Paths" [("json", "paths"); ("valid", "required")].
Definition Redis := exported "Redis" [("json", "redis"); ("valid", "optional")].
Definition Mail := exported "Mail" [("json", "mail"); ("valid", "optional")].
Definition Verbose := exported "Verbose" [("json", "verbose")].
End Fields.

(** The reflected types of the records. *)
Module TypeOf.
Definition ConfigPaths : rtype :=
  TStruct [(Fields.Databases, TString); (Fields.Results, TString);
           (Fields.Temporary, TString); (Fields.Mmseqs, TString)].
Definition ConfigRedis : rtype :=
  TStruct [(Fields.Network, TString); (Fields.RedisAddress, TString);
           (Fields.RedisPassword, TString); (Fields.DbIndex, TInt Int)].
Definition ConfigMailTemplate : rtype :=
  TStruct [(Fields.Subject, TString); (Fields.Body, TString)].
Definition ConfigMailTemplates : rtype :=
  TStruct [(Fields.OnSuccess, ConfigMailTemplate); (Fields.OnTimeout, ConfigMailTemplate);
           (Fields.OnError, ConfigMailTemplate)].
Definition ConfigMail : rtype :=
  TStruct [(Fields.Transport, TString); (Fields.Sender, TString);
           (Fields.Templates, ConfigMailTemplates)].
Definition ConfigAuth : rtype :=
  TStruct [(Fields.Username, TString); (Fields.Password, TString)].
Definition ConfigServer : rtype :=
  TStruct [(Fields.Address, TString); (Fields.PathPrefix, TString);
           (Fields.DbManagment, TBool); (Fields.CORS, TBool);
           (Fields.Auth, TPtr ConfigAuth)].
Definition ConfigRoot : rtype :=
  TStruct [(Fields.Server, ConfigServer); (Fields.Paths, ConfigPaths);
           (Fields.Redis, ConfigRedis); (Fields.Mail, ConfigMail);
           (Fields.Verbose, TBool)].
End TypeOf.

(** The stored data of the records, as [reflect] sees it. *)
Definition ValueOfPaths (p : ConfigPaths) : object :=
  OStruct [(Fields.Databases, OString (Databases p)); (Fields.Results, OString (Results p));
           (Fields.Temporary, OString (Temporary p)); (Fields.Mmseqs, OString (Mmseqs p))].

Definition ValueOfRedis (r : ConfigRedis) : object :=
  OStruct [(Fields.Network, OString (Network r)); (Fields.RedisAddress, OString (RedisAddress r));
           (Fields.RedisPassword, OString (RedisPassword r)); (Fields.DbIndex, OInt Int (DbIndex r))].

Definition ValueOfMailTemplate (t : ConfigMailTemplate) : object :=
  OStruct [(Fields.Subject, OString (Subject t)); (Fields.Body, OString (Body t))].

Definition ValueOfMailTemplates (t : ConfigMailTemplates) : object :=
  OStruct [(Fields.OnSuccess, ValueOfMailTemplate (OnSuccess t));
           (Fields.OnTimeout, ValueOfMailTemplate (OnTimeout t));
           (Fields.OnError, ValueOfMailTemplate (OnError t))].

Definition ValueOfMail (m : ConfigMail) : object :=
  OStruct [(Fields.Transport, OString (Transport m)); (Fields.Sender, OString (Sender m));
           (Fields.Templates, ValueOfMailTemplates (Templates m))].

Definition ValueOfAuth (a : ConfigAuth) : object :=
  OStruct [(Fields.Username, OString (Username a)); (Fields.Password, OString (Password a))].

Definition ValueOfServer (s : ConfigServer) : object :=
  OStruct [(Fields.Address, OString (Address s)); (Fields.PathPrefix, OString (PathPrefix s));
           (Fields.DbManagment, OBool (DbManagment s)); (Fields.CORS, OBool (CORS s));
           (Fields.Auth, OPtr TypeOf.ConfigAuth (option_map ValueOfAuth (Auth s)))].

Definition ValueOf (c : ConfigRoot) : object :=
  OStruct [(Fields.Server, ValueOfServer (Server c)); (Fields.Paths, ValueOfPaths (Paths c));
           (Fields.Redis, ValueOfRedis (Redis c)); (Fields.Mail, ValueOfMail (Mail c));
           (Fields.Verbose, OBool (Verbose c))].

(** The zero [ConfigRoot], what [var config ConfigRoot] declares. *)
Definition zeroMailTemplate : ConfigMailTemplate := mkConfigMailTemplate "" "".
Definition zeroConfig : ConfigRoot :=
  mkConfigRoot (mkConfigServer "" "" false false None)
               (mkConfigPaths "" "" "" "")
               (mkConfigRedis "" "" "" 0)
               (mkConfigMail "" "" (mkConfigMailTemplates zeroMailTemplate zeroMailTemplate zeroMailTemplate))
               false.

(** The tree [defaultFileContent] describes. *)
Definition defaultContent : ConfigRoot :=
  mkConfigRoot (mkConfigServer "127.0.0.1:8081" "/api/" false true None)
               (mkConfigPaths "~databases" "~jobs" "" "~mmseqs")
               (mkConfigRedis "tcp" "localhost:6379" "" 0)
               (mkConfigMail "null" "mail@example.org"
                  (mkConfigMailTemplates (mkConfigMailTemplate "Done -- %s" "%s")
                                         (mkConfigMailTemplate "Timeout -- %s" "%s")
                                         (mkConfigMailTemplate "Error -- %s" "%s")))
               true.

(** ** The loader *)

(** A pointer to one of the string fields of the tree. *)
Record stringRef : Type := mkRef {
  load : ConfigRoot -> string;
  store : ConfigRoot -> string -> ConfigRoot
}.

Definition withPaths (c : ConfigRoot) (p : ConfigPaths) : ConfigRoot :=
  mkConfigRoot (Server c) p (Redis c) (Mail c) (Verbose c).

Definition refDatabases : stringRef :=
  mkRef (fun c => Databases (Paths c))
        (fun c s => withPaths c (mkConfigPaths s (Results (Paths c)) (Temporary (Paths c)) (Mmseqs (Paths c)))).

Definition refResults : stringRef :=
  mkRef (fun c => Results (Paths c))
        (fun c s => withPaths c (mkConfigPaths (Databases (Paths c)) s (Temporary (Paths c)) (Mmseqs (Paths c)))).

Definition refMmseqs : stringRef :=
  mkRef (fun c => Mmseqs (Paths c))
        (fun c s => withPaths c (mkConfigPaths (Databases (Paths c)) (Results (Paths c)) (Temporary (Paths c)) s)).

Definition newline : string := String (ascii_of_nat 10) EmptyString.

Section Loader.

(** [DecodeJsonAndValidate] belongs to another file of the package: it
    fills the tree it is given from the reader and validates it. *)
Variable Reader : Type.
Variable DecodeJsonAndValidate : Reader -> ConfigRoot -> ConfigRoot * option error.

(** The body of the loop of [ReadConfig] over the path fields. *)
Definition anchorPath (relativeTo : string) (config : ConfigRoot) (path : stringRef) : ConfigRoot :=
  if strings.HasPrefix (load path config) "~" then
    let config := store path config (strings.TrimLeft (load path config) "~") in
    store path config (filepath.Join [relativeTo; load path config])
  else config.

Definition ReadConfig (r : Reader) (relativeTo : string) : ConfigRoot * option error :=
  let config := zeroConfig in
  match DecodeJsonAndValidate r config with
  | (config, Some err) =>
      (config, Some (fmt.Errorf ("Fatal error for config file: %s" ++ newline) err))
  | (config, None) =>
      let paths := [refDatabases; refResults; refMmseqs] in
      (List.fold_left (anchorPath relativeTo) paths config, None)
  end.

End Loader.

(** The specification's reading of the path rule: the marker character is
    stripped and the remainder joined onto the anchor directory. *)
Definition stripMarker (path : string) : string :=
  match path with
  | String "~" remainder => remainder
  | _ => path
  end.

Definition resolveByMarker (anchorDirectory path : string) : string :=
  if strings.HasPrefix path "~"
  then filepath.Join [anchorDirectory; stripMarker path]
  else path.

(** What the loader does to a path field. *)
Definition resolvePath (relativeTo path : string) : string :=
  if strings.HasPrefix path "~"
  then filepath.Join [relativeTo; strings.TrimLeft path "~"]
  else path.

(** ** Updated trees *)

Definition withServer (c : ConfigRoot) (s : ConfigServer) : ConfigRoot :=
  mkConfigRoot s (Paths c) (Redis c) (Mail c) (Verbose c).

Definition withAddress (c : ConfigRoot) (address : string) : ConfigRoot :=
  withServer c (mkConfigServer address (PathPrefix (Server c)) (DbManagment (Server c))
                               (CORS (Server c)) (Auth (Server c))).

Definition withCORS (c : ConfigRoot) (cors : bool) : ConfigRoot :=
  withServer c (mkConfigServer (Address (Server c)) (PathPrefix (Server c))
                               (DbManagment (Server c)) cors (Auth (Server c))).

Definition withAuth (c : ConfigRoot) (auth : option ConfigAuth) : ConfigRoot :=
  withServer c (mkConfigServer (Address (Server c)) (PathPrefix (Server c))
                               (DbManagment (Server c)) (CORS (Server c)) auth).

Definition withDbIndex (c : ConfigRoot) (index : Z) : ConfigRoot :=
  mkConfigRoot (Server c) (Paths c)
               (mkConfigRedis (Network (Redis c)) (RedisAddress (Redis c))
                              (RedisPassword (Redis c)) index)
               (Mail c) (Verbose c).

(** ** Boolean spellings *)

Definition toLowerByte (c : ascii) : ascii :=
  let b := N_of_ascii c in
  if (65 <=? b)%N && (b <=? 90)%N then ascii_of_N (b + 32) else c.

Fixpoint toLower (s : string) : string :=
  match s with
  | EmptyString => EmptyString
  | String c rest => String (toLowerByte c) (toLower rest)
  end.

Definition spelled (s : string) (spellings : list string) : bool :=
  List.existsb (String.eqb s) spellings.

(** The canonical forms of the specification, and a case-insensitive
    spelling of one of them. *)
Definition canonicalTrue : list string := ["true"; "1"; "t"].
Definition canonicalFalse : list string := ["false"; "0"; "f"].

Definition caseInsensitiveBool (s : string) : option bool :=
  if spelled (toLower s) canonicalTrue then Some true
  else if spelled (toLower s) canonicalFalse then Some false
  else None.

(** The spellings [strconv.ParseBool] accepts. *)
Definition trueSpellings : list string := ["1"; "t"; "T"; "true"; "TRUE"; "True"].
Definition falseSpellings : list string := ["0"; "f"; "F"; "false"; "FALSE"; "False"].

(** ** The specification's vocabulary

    The source reports every failure as a plain [error].  The error kinds
    of the specification are the following error values of the code. *)

Definition ArgumentSyntaxError : error := errors.New "Invalid Parameter String".
Definition PathNotFoundError : error := errors.New "Path not found in config".
Definition IncompletePathError : error := errors.New "Leaf node is a struct".
Definition SchemaError : error := errors.New "Leaf node type not implemented".

(** A [TypeCoercionError] is the [NumError] of a failed [strconv] parse. *)
Definition TypeCoercionError (e : error) : Prop :=
  exists fn num err, e = NumError fn num err.

(** An error names a text if one of the strings it holds contains it. *)
Fixpoint carries (e : error) (text : string) : bool :=
  match e with
  | errorString s => strings.Contains s text
  | NumError fn num err =>
      strings.Contains fn text || strings.Contains num text || carries err text
  | wrapError format operand => strings.Contains format text || carries operand text
  end.

(** A flag token begins with a dash. *)
Definition isFlag (token : string) : bool := strings.HasPrefix token "-".

(** The alternation rule of the specification, read two tokens at a time:
    the overrides [(path, value)] paired up before the first violation of
    the rule, and whether there is a violation. *)
Fixpoint pairUp (args : list string) : list (string * string) * bool :=
  match args with
  | [] => ([], false)
  | flag :: rest =>
      if isFlag flag then
        match rest with
        | [] => ([], true)
        | value :: rest' =>
            if isFlag value then ([], true)
            else
              let '(overrides, violated) := pairUp rest' in
              ((strings.TrimLeft flag "-", value) :: overrides, violated)
        end
      else ([], true)
  end.

(** Overrides applied one after the other, stopping at the first that does
    not return [nil]. *)
Fixpoint applyOverrides (c : object) (overrides : list (string * string)) : object * outcome :=
  match overrides with
  | [] => (c, Nil)
  | (key, value) :: rest =>
      match setParameter c key value with
      | (c', Nil) => applyOverrides c' rest
      | (c', out) => (c', out)
      end
  end.

(** The test of the loop body: the tag is usable and equals the segment. *)
Definition tagIs (seg : string) (sf : StructField) : bool :=
  negb (String.eqb (Get (Tag sf) "json") "" || String.eqb (Get (Tag sf) "json") "-")
  && String.eqb (Get (Tag sf) "json") seg.

(** Reading a field: the node [path] leads to, resolved as [setNodeValue]
    resolves it, without allocating. *)
Fixpoint findField (seg : string) (fields : list (StructField * object)) : option object :=
  match fields with
  | [] => None
  | (sf, fv) :: rest => if tagIs seg sf then Some fv else findField seg rest
  end.

Fixpoint getNodeValue (o : object) (path : list string) : option object :=
  match path with
  | [] => Some o
  | seg :: rest =>
      match o with
      | OStruct fields | OPtr _ (Some (OStruct fields)) =>
          match findField seg fields with
          | Some fv => getNodeValue fv rest
          | None => None
          end
      | _ => None
      end
  end.

(** A leaf is a node that is neither a record nor a reference to one. *)
Definition isLeaf (o : object) : bool :=
  match o with
  | OStruct _ | OPtr _ _ => false
  | _ => true
  end.

(** The node the walk continues with after the pointer step ([v.Elem()],
    after the allocation if the pointer was nil), and the node as it is
    once the walk below has left [n] there. *)
Definition elemOf (o : object) : object :=
  match o with
  | OPtr t None => Zero t
  | OPtr _ (Some n) => n
  | _ => o
  end.

Definition putElem (o n : object) : object :=
  match o with
  | OPtr t _ => OPtr t (Some n)
  | _ => n
  end.

Definition nilPointer (o : object) : bool :=
  match o with
  | OPtr _ None => true
  | _ => false
  end.

(** Every error of [setNodeValue] is one of these. *)
Definition engineError (e : error) : Prop :=
  e = errors.New "Leaf node is not a value" \/
  e = errors.New "Leaf node is not valid" \/
  e = errors.New "Node is not a struct" \/
  e = IncompletePathError \/ e = SchemaError \/ e = PathNotFoundError \/
  TypeCoercionError e.

(** Every field on the way is exported (so that no [reflect.Value] reached
    is read-only). *)
Fixpoint exportedTree (o : object) : bool :=
  match o with
  | OStruct fields =>
      (fix all (fs : list (StructField * object)) : bool :=
         match fs with
         | [] => true
         | (sf, fv) :: rest => IsExported sf && exportedTree fv && all rest
         end) fields
  | OPtr _ (Some n) => exportedTree n
  | _ => true
  end.

(** ** Base-10 numerals *)

Definition isDigit (c : ascii) : bool :=
  let b := Z.of_N (N_of_ascii c) in (48 <=? b) && (b <=? 57).

Definition digitValue (c : ascii) : Z := Z.of_N (N_of_ascii c) - 48.

(** The number a string of decimal digits denotes, continuing from [acc]. *)
Fixpoint decimalFrom (s : string) (acc : Z) : option Z :=
  match s with
  | EmptyString => Some acc
  | String c rest =>
      if isDigit c then decimalFrom rest (10 * acc + digitValue c) else None
  end.

(** A base-10 numeral: one or more decimal digits. *)
Definition decimal (s : string) : option Z :=
  match s with
  | EmptyString => None
  | _ => decimalFrom s 0
  end.

(** A base-10 numeral with an optional sign. *)
Definition signedDecimal (s : string) : option Z :=
  match s with
  | String "+" rest => decimal rest
  | String "-" rest => option_map Z.opp (decimal rest)
  | _ => decimal s
  end.

(** The integer a string denotes, if it denotes one that fits in [bits]
    bits, signed or unsigned. *)
Definition intOf (bits : Z) (s : string) : option Z :=
  match signedDecimal s with
  | Some v => if (- 2 ^ (bits - 1) <=? v) && (v <? 2 ^ (bits - 1)) then Some v else None
  | None => None
  end.

Definition uintOf (bits : Z) (s : string) : option Z :=
  match decimal s with
  | Some v => if v <? 2 ^ bits then Some v else None
  | None => None
  end.

(** Leaf [o] holds what the string [value] denotes for its type: the
    string itself; the boolean of which [value] is a spelling; the integer
    of the leaf's width that agrees, modulo two to that width, with the
    64-bit base-10 integer [value] denotes. *)
Definition holds (o : object) (value : string) : Prop :=
  match o with
  | OString s => s = value
  | OBool b => In value (if b then trueSpellings else falseSpellings)
  | OInt k i =>
      exists n, intOf 64 value = Some n /\
                - 2 ^ (intBits k - 1) <= i < 2 ^ (intBits k - 1) /\
                (i - n) mod 2 ^ intBits k = 0
  | OUint k u =>
      exists n, uintOf 64 value = Some n /\
                0 <= u < 2 ^ uintBits k /\ (u - n) mod 2 ^ uintBits k = 0
  | _ => False
  end.

(** ** Notions for the properties of the engine as a whole *)

(** The field the loop of [setNodeValue] stops at, with its description,
    and the fields once that field holds [x]. *)
Fixpoint findEntry (seg : string) (fields : list (StructField * object))
  : option (StructField * object) :=
  match fields with
  | [] => None
  | (sf, fv) :: rest => if tagIs seg sf then Some (sf, fv) else findEntry seg rest
  end.

Fixpoint updateField (seg : string) (fields : list (StructField * object)) (x : object)
  : list (StructField * object) :=
  match fields with
  | [] => []
  | (sf, fv) :: rest =>
      if tagIs seg sf then (sf, x) :: rest else (sf, fv) :: updateField seg rest x
  end.

(** The type of the stored data ([v.Type()]). *)
Fixpoint typeOf (o : object) : rtype :=
  match o with
  | OBool _ => TBool
  | OInt k _ => TInt k
  | OUint k _ => TUint k
  | OFloat64 _ => TFloat64
  | OString _ => TString
  | OStruct fields => TStruct (List.map (fun f => (fst f, typeOf (snd f))) fields)
  | OPtr elem _ => TPtr elem
  end.

(** Every pointer that is not nil points to data of its element type. *)
Fixpoint WellTyped (o : object) : Prop :=
  match o with
  | OStruct fields => List.fold_right (fun f rest => WellTyped (snd f) /\ rest) True fields
  | OPtr elem (Some n) => typeOf n = elem /\ WellTyped n
  | _ => True
  end.

(** All fields of the type, at every depth, are exported. *)
Fixpoint exportedType (t : rtype) : bool :=
  match t with
  | TStruct fields =>
      List.forallb (fun f => IsExported (fst f) && exportedType (snd f)) fields
  | TPtr elem => exportedType elem
  | _ => true
  end.

(** No pointer of the tree is nil. *)
Fixpoint noNilPointer (o : object) : bool :=
  match o with
  | OStruct fields => List.forallb (fun f => noNilPointer (snd f)) fields
  | OPtr _ (Some n) => noNilPointer n
  | OPtr _ None => false
  | _ => true
  end.

(** The outcome of an override read off the type alone: the walk of
    [setNodeValue] along [path] through the fields of the type, for a tree
    whose fields are all exported. *)
Fixpoint findType (seg : string) (fields : list (StructField * rtype)) : option rtype :=
  match fields with
  | [] => None
  | (sf, ft) :: rest => if tagIs seg sf then Some ft else findType seg rest
  end.

(** The type the walk continues in after the pointer step. *)
Definition elemType (t : rtype) : rtype :=
  match t with
  | TPtr elem => elem
  | _ => t
  end.

Definition checkLeaf (t : rtype) (value : string) : outcome :=
  match t with
  | TStruct _ => Err IncompletePathError
  | TInt _ =>
      match strconv.ParseInt value 10 64 with
      | (_, Some err) => Err err
      | (_, None) => Nil
      end
  | TUint _ =>
      match strconv.ParseUint value 10 64 with
      | (_, Some err) => Err err
      | (_, None) => Nil
      end
  | TBool =>
      match strconv.ParseBool value with
      | (_, Some err) => Err err
      | (_, None) => Nil
      end
  | TString => Nil
  | _ => Err SchemaError
  end.

Fixpoint checkPath (t : rtype) (path : list string) (value : string) : outcome :=
  match path with
  | [] => checkLeaf t value
  | seg :: rest =>
      match elemType t with
      | TStruct fields =>
          match findType seg fields with
          | Some ft => checkPath ft rest value
          | None => Err PathNotFoundError
          end
      | _ => Err (errors.New "Node is not a struct")
      end
  end.

(** The paths of the scalar fields of a [ConfigRoot]. *)
Definition configLeafPaths : list (list string) :=
  [["server"; "address"]; ["server"; "pathprefix"]; ["server"; "dbmanagment"];
   ["server"; "cors"]; ["server"; "auth"; "username"]; ["server"; "auth"; "password"];
   ["paths"; "databases"]; ["paths"; "results"]; ["paths"; "temporary"]; ["paths"; "mmseqs"];
   ["redis"; "network"]; ["redis"; "address"]; ["redis"; "password"]; ["redis"; "index"];
   ["mail"; "type"]; ["mail"; "sender"];
   ["mail"; "templates"; "success"; "subject"]; ["mail"; "templates"; "success"; "body"];
   ["mail"; "templates"; "timeout"; "subject"]; ["mail"; "templates"; "timeout"; "body"];
   ["mail"; "templates"; "error"; "subject"]; ["mail"; "templates"; "error"; "body"];
   ["verbose"]].

(** Reading a reflected tree back as the record it is the data of. *)
Definition toPaths (o : object) : option ConfigPaths :=
  match o with
  | OStruct [(_, OString a); (_, OString b); (_, OString c); (_, OString d)] =>
      Some (mkConfigPaths a b c d)
  | _ => None
  end.

Definition toRedis (o : object) : option ConfigRedis :=
  match o with
  | OStruct [(_, OString a); (_, OString b); (_, OString c); (_, OInt Int d)] =>
      Some (mkConfigRedis a b c d)
  | _ => None
  end.

Definition toMailTemplate (o : object) : option ConfigMailTemplate :=
  match o with
  | OStruct [(_, OString a); (_, OString b)] => Some (mkConfigMailTemplate a b)
  | _ => None
  end.

Definition toMailTemplates (o : object) : option ConfigMailTemplates :=
  match o with
  | OStruct [(_, a); (_, b); (_, c)] =>
      match toMailTemplate a, toMailTemplate b, toMailTemplate c with
      | Some a, Some b, Some c => Some (mkConfigMailTemplates a b c)
      | _, _, _ => None
      end
  | _ => None
  end.

Definition toMail (o : object) : option ConfigMail :=
  match o with
  | OStruct [(_, OString a); (_, OString b); (_, c)] =>
      match toMailTemplates c with
      | Some c => Some (mkConfigMail a b c)
      | None => None
      end
  | _ => None
  end.

Definition toAuth (o : object) : option ConfigAuth :=
  match o with
  | OStruct [(_, OString a); (_, OString b)] => Some (mkConfigAuth a b)
  | _ => None
  end.

Definition toServer (o : object) : option ConfigServer :=
  match o with
  | OStruct [(_, OString a); (_, OString b); (_, OBool c); (_, OBool d); (_, OPtr _ None)] =>
      Some (mkConfigServer a b c d None)
  | OStruct [(_, OString a); (_, OString b); (_, OBool c); (_, OBool d); (_, OPtr _ (Some e))] =>
      match toAuth e with
      | Some e => Some (mkConfigServer a b c d (Some e))
      | None => None
      end
  | _ => None
  end.

Definition toConfigRoot (o : object) : option ConfigRoot :=
  match o with
  | OStruct [(_, a); (_, b); (_, c); (_, d); (_, OBool e)] =>
      match toServer a, toPaths b, toRedis c, toMail d with
      | Some a, Some b, Some c, Some d => Some (mkConfigRoot a b c d e)
      | _, _, _, _ => None
      end
  | _ => None
  end.

(** Induction on types, through the fields of struct types. *)
Section rtype_induction.

Variable P : rtype -> Prop.
Hypothesis HBool : P TBool.
Hypothesis HInt : forall k, P (TInt k).
Hypothesis HUint : forall k, P (TUint k).
Hypothesis HFloat64 : P TFloat64.
Hypothesis HString : P TString.
Hypothesis HStruct : forall fields, Forall (fun f => P (snd f)) fields -> P (TStruct fields).
Hypothesis HPtr : forall elem, P elem -> P (TPtr elem).

Fixpoint rtype_induction (t : rtype) : P t :=
  match t with
  | TBool => HBool
  | TInt k => HInt k
  | TUint k => HUint k
  | TFloat64 => HFloat64
  | TString => HString
  | TStruct fields =>
      HStruct fields
        ((fix all (fs : list (StructField * rtype)) : Forall (fun f => P (snd f)) fs :=
            match fs with
            | [] => Forall_nil _
            | (sf, ft) :: rest => Forall_cons (sf, ft) (rtype_induction ft) (all rest)
            end) fields)
  | TPtr elem => HPtr elem (rtype_induction elem)
  end.

End rtype_induction.

(** ** The callers of the loader *)

(** The part of a path up to and including its last separator, if it has
    one. *)
Fixpoint upToLastSeparator (path : string) : option string :=
  match path with
  | EmptyString => None
  | String c rest =>
      match upToLastSeparator rest with
      | Some dir => Some (String c dir)
      | None => if Ascii.eqb c "/" then Some "/" else None
      end
  end.

(** [filepath.Dir] (Unix): all but the last element of the path, cleaned. *)
Definition filepath_Dir (path : string) : string :=
  match upToLastSeparator path with
  | Some dir => filepath.Clean dir
  | None => filepath.Clean ""
  end.

(** What a loading function does: it returns a tree and an error, or
    panics with an error. *)
Inductive loaded : Type :=
| Returned (config : ConfigRoot) (err : option error)
| Panicked (err : error).

Section LoaderCallers.

(** The operating system, as far as the loaders use it: opening a file
    gives a reader or an error, [filepath.Abs] and [os.Executable] give a
    path or an error.  [defaultReader] is the reader
    [bytes.NewReader(defaultFileContent)]. *)
Variable Reader : Type.
Variable DecodeJsonAndValidate : Reader -> ConfigRoot -> ConfigRoot * option error.
Variable os_Open : string -> Reader + error.
Variable filepath_Abs : string -> string + error.
Variable os_Executable : string + error.
Variable defaultReader : Reader.

Definition ReadConfigFromFile (name : string) : ConfigRoot * option error :=
  match os_Open name with
  | inr err => (zeroConfig, Some err)
  | inl file =>
      match filepath_Abs name with
      | inr err => (zeroConfig, Some err)
      | inl absPath =>
          let relativeTo := filepath_Dir absPath in
          ReadConfig Reader DecodeJsonAndValidate file relativeTo
      end
  end.

Definition DefaultConfig : loaded :=
  let r := defaultReader in
  match os_Executable with
  | inr err => Panicked err
  | inl ex =>
      let relativeTo := filepath_Dir ex in
      let '(config, err) := ReadConfig Reader DecodeJsonAndValidate r relativeTo in
      Returned config err
  end.

End LoaderCallers.

(** The errors a call of [ReadParameters] can return on a tree of exported
    fields. *)
Definition callError (e : error) : Prop :=
  e = ArgumentSyntaxError \/ e = PathNotFoundError \/
  e = errors.New "Node is not a struct" \/
  e = IncompletePathError \/ e = SchemaError \/ TypeCoercionError e.

(** The tree once the walk of [setNodeValue] has gone along [path] without
    writing: the records that were absent on the way are allocated. *)
Fixpoint allocated (o : object) (path : list string) : object :=
  match path with
  | [] => o
  | seg :: rest =>
      match elemOf o with
      | OStruct fields =>
          match findEntry seg fields with
          | Some (_, fv) => putElem o (OStruct (updateField seg fields (allocated fv rest)))
          | None => putElem o (OStruct fields)
          end
      | e => putElem o e
      end
  end.

(** * Properties of the model *)

Example zero_ConfigRoot : Zero TypeOf.ConfigRoot = ValueOf zeroConfig.
Proof. reflexivity. Qed.

(** ** The argument loop *)

Lemma readArgs_key_unused c key key' args :
  readArgs c key false args = readArgs c key' false args.
Proof.
  destruct args as [|arg rest]; simpl; [reflexivity|].
  destruct (strings.HasPrefix arg "-"); reflexivity.
Qed.

(** The loop on a list that extends one it gets through. *)
Lemma readArgs_app c key inParameter pre rest c1 :
  readArgs c key inParameter pre = (c1, Nil) ->
  readArgs c key inParameter (pre ++ rest) = readArgs c1 "" false rest.
Proof.
  revert c key inParameter.
  induction pre as [|arg pre IH]; intros c key inParameter H; simpl in *.
  - destruct inParameter; inversion H; subst. apply readArgs_key_unused.
  - destruct (strings.HasPrefix arg "-").
    + destruct inParameter; [discriminate|]. now apply IH.
    + destruct inParameter; simpl in *; [|discriminate].
      destruct (setParameter c key arg) as [c' [| |]]; try discriminate.
      now apply IH.
Qed.

(** The loop follows the alternation rule two tokens at a time. *)
Lemma readArgs_pairUp args : forall c key,
  readArgs c key false args =
  match applyOverrides c (fst (pairUp args)) with
  | (c', Nil) => (c', if snd (pairUp args) then Err ArgumentSyntaxError else Nil)
  | failed => failed
  end.
Proof.
  assert (G : forall n args, (List.length args <= n)%nat -> forall c key,
    readArgs c key false args =
    match applyOverrides c (fst (pairUp args)) with
    | (c', Nil) => (c', if snd (pairUp args) then Err ArgumentSyntaxError else Nil)
    | failed => failed
    end).
  { induction n as [|n IH]; intros [|flag rest] Hlen c key; simpl in *;
      try reflexivity; try lia.
    unfold isFlag.
    destruct (strings.HasPrefix flag "-") eqn:Hflag; simpl; [|reflexivity].
    destruct rest as [|value rest']; simpl; [reflexivity|].
    destruct (strings.HasPrefix value "-") eqn:Hvalue; simpl; [reflexivity|].
    destruct (pairUp rest') as [overrides violated] eqn:Hrest; simpl.
    destruct (setParameter c (strings.TrimLeft flag "-") value) as [c' out].
    destruct out; try reflexivity.
    rewrite (IH rest') by (simpl in Hlen; lia).
    rewrite Hrest. reflexivity. }
  intros c key. now apply (G (List.length args)).
Qed.

(** ** The field loop *)

Lemma fieldFlag_exported sf : IsExported sf = true -> fieldFlag writable sf = writable.
Proof. unfold fieldFlag. intros ->. reflexivity. Qed.

Ltac simpl_ro := cbn [andb orb negb isRO writable flagStickyRO flagEmbedRO].

(** The two read-only bits at work: an exported field of an unexported
    embedded struct can be set, one of an unexported plain field cannot. *)
Example Field_below_unexported_field :
  let level := (Fields.exported "Level" [("json", "level")], OInt Int 0) in
  let level3 := (Fields.exported "Level" [("json", "level")], OInt Int 3) in
  let embedded := mkField "inner" "backend" true [("json", "inner")] in
  let plain := mkField "inner" "backend" false [("json", "inner")] in
  setNodeValue (Pointer (OStruct [(embedded, OStruct [level])])) ["inner"; "level"] "3" =
    (OStruct [(embedded, OStruct [level3])], Nil) /\
  setNodeValue (Pointer (OStruct [(plain, OStruct [level])])) ["inner"; "level"] "3" =
    (OStruct [(plain, OStruct [level])], Err (errors.New "Leaf node is not valid")) /\
  setNodeValue (Pointer (OStruct [(embedded, OStruct [level])])) ["inner"] "3" =
    (OStruct [(embedded, OStruct [level])], Err (errors.New "Leaf node is not valid")).
Proof. repeat split. Qed.

Lemma scanFields_cons D ro seg sf fv rest :
  scanFields D ro seg ((sf, fv) :: rest) =
  if tagIs seg sf
  then let '(fv', out) := D (mkValue (fieldFlag ro sf) fv) in ((sf, fv') :: rest, out)
  else let '(rest', out) := scanFields D ro seg rest in ((sf, fv) :: rest', out).
Proof.
  unfold tagIs; simpl.
  destruct (String.eqb (Get (Tag sf) "json") "" || String.eqb (Get (Tag sf) "json") "-");
    simpl; [reflexivity|].
  destruct (String.eqb (Get (Tag sf) "json") seg); reflexivity.
Qed.

Lemma findField_cons seg sf fv rest :
  findField seg ((sf, fv) :: rest) = if tagIs seg sf then Some fv else findField seg rest.
Proof. reflexivity. Qed.

Lemma findField_app seg pre sf x post :
  findField seg (pre ++ (sf, x) :: post) =
  match findField seg pre with
  | Some r => Some r
  | None => if tagIs seg sf then Some x else findField seg post
  end.
Proof.
  induction pre as [|[sf0 fv0] pre IH]; [reflexivity|].
  rewrite <- app_comm_cons, !findField_cons.
  destruct (tagIs seg sf0); [reflexivity|apply IH].
Qed.

(** The loop either finds no field and changes nothing, or descends into
    the first field whose tag is the segment and changes that field only. *)
Lemma scanFields_shape D ro seg fields fields' out :
  scanFields D ro seg fields = (fields', out) ->
  (fields' = fields /\ out = Err PathNotFoundError /\ findField seg fields = None) \/
  (exists pre sf fv fv' post,
      fields = pre ++ (sf, fv) :: post /\ fields' = pre ++ (sf, fv') :: post /\
      findField seg pre = None /\ tagIs seg sf = true /\
      D (mkValue (fieldFlag ro sf) fv) = (fv', out)).
Proof.
  revert fields' out.
  induction fields as [|[sf fv] rest IH]; intros fields' out H.
  - inversion H; subst. left. repeat split; reflexivity.
  - rewrite scanFields_cons in H. rewrite findField_cons.
    destruct (tagIs seg sf) eqn:Htag.
    + destruct (D (mkValue (fieldFlag ro sf) fv)) as [fv' o] eqn:HD.
      inversion H; subst. right.
      exists [], sf, fv, fv', rest. repeat split; auto.
    + destruct (scanFields D ro seg rest) as [rest' o] eqn:Hrest.
      inversion H; subst.
      destruct (IH rest' out eq_refl) as [(E1 & E2 & E3)|(pre & sf1 & fv1 & fv1' & post & E1 & E2 & E3 & E4 & E5)].
      * left. subst. repeat split; auto.
      * right. exists ((sf, fv) :: pre), sf1, fv1, fv1', post. subst.
        repeat split; auto. rewrite findField_cons, Htag. exact E3.
Qed.

Lemma tagIs_eq seg sf : tagIs seg sf = true -> Get (Tag sf) "json" = seg.
Proof.
  unfold tagIs. intros H. apply andb_true_iff in H. destruct H as [_ H].
  now apply String.eqb_eq.
Qed.

Lemma tagIs_other seg seg' sf : tagIs seg sf = true -> seg' <> seg -> tagIs seg' sf = false.
Proof.
  intros H Hne. destruct (tagIs seg' sf) eqn:H'; [|reflexivity].
  apply tagIs_eq in H. apply tagIs_eq in H'. congruence.
Qed.

(** ** Leaves *)

Lemma ParseUint_error s base bitSize n e :
  strconv.ParseUint s base bitSize = (n, Some e) -> TypeCoercionError e.
Proof.
  unfold strconv.ParseUint, TypeCoercionError. destruct s as [|c s].
  - intros H; inversion H; subst. unfold strconv.syntaxError. eauto.
  - destruct (strconv.parseDigits _ _ _ _ _) as [m [e'|]]; intros H; inversion H; subst. eauto.
Qed.

Lemma ParseInt_error s base bitSize n e :
  strconv.ParseInt s base bitSize = (n, Some e) -> TypeCoercionError e.
Proof.
  unfold strconv.ParseInt, TypeCoercionError, strconv.syntaxError, strconv.rangeError.
  destruct s as [|c s].
  - intros H; inversion H; subst. eauto.
  - destruct (strconv.ParseUint _ _ _) as [un err].
    destruct (strconv.isOtherThanRange err).
    + intros H; inversion H; subst. eauto.
    + destruct (negb _ && _); [intros H; inversion H; subst; eauto|].
      destruct (_ && _); intros H; inversion H; subst; eauto.
Qed.

Lemma ParseBool_error s b e :
  strconv.ParseBool s = (b, Some e) -> e = strconv.syntaxError "ParseBool" s.
Proof.
  unfold strconv.ParseBool.
  destruct (_ || _)%bool; [discriminate|].
  destruct (_ || _)%bool; [discriminate|].
  intros H; inversion H; reflexivity.
Qed.

(** A leaf that is not written is left as it was. *)
Lemma setLeaf_unchanged v value o out :
  setLeaf v value = (o, out) -> out <> Nil -> o = obj v.
Proof.
  unfold setLeaf. intros H Hout.
  destruct (negb (IsValid v) || negb (CanSet v)); [inversion H; reflexivity|].
  destruct (obj v) as [b|k i|k u|f|s|fields|t target]; try (inversion H; subst; reflexivity).
  - destruct (strconv.ParseBool value) as [b' [e|]]; inversion H; subst; [reflexivity|congruence].
  - destruct (strconv.ParseInt value 10 64) as [n [e|]]; inversion H; subst; [reflexivity|congruence].
  - destruct (strconv.ParseUint value 10 64) as [n [e|]]; inversion H; subst; [reflexivity|congruence].
  - inversion H; subst; congruence.
Qed.

(** A leaf that is written is a scalar and was settable. *)
Lemma setLeaf_written v value o :
  setLeaf v value = (o, Nil) ->
  CanSet v = true /\ isLeaf (obj v) = true /\ isLeaf o = true.
Proof.
  unfold setLeaf. intros H. unfold IsValid in H. simpl in H.
  destruct (CanSet v); simpl in H; [|discriminate].
  destruct (obj v) as [b|k i|k u|f|s|fields|t target]; try discriminate.
  - destruct (strconv.ParseBool value) as [b' [e|]] eqn:E; inversion H; subst. simpl. auto.
  - destruct (strconv.ParseInt value 10 64) as [n [e|]] eqn:E; inversion H; subst. simpl. auto.
  - destruct (strconv.ParseUint value 10 64) as [n [e|]] eqn:E; inversion H; subst. simpl. auto.
  - inversion H; subst. simpl. auto.
Qed.

(** The errors of a leaf. *)
Lemma setLeaf_errors v value o e :
  setLeaf v value = (o, Err e) ->
  e = errors.New "Leaf node is not valid" \/ e = IncompletePathError \/
  e = SchemaError \/ TypeCoercionError e.
Proof.
  unfold setLeaf. intros H.
  destruct (negb (IsValid v) || negb (CanSet v)); [inversion H; auto|].
  destruct (obj v) as [b|k i|k u|f|s|fields|t target]; try (inversion H; subst; auto; fail).
  - destruct (strconv.ParseBool value) as [b' [e'|]] eqn:E; inversion H; subst.
    apply ParseBool_error in E. subst. do 3 right. unfold TypeCoercionError, strconv.syntaxError. eauto.
  - destruct (strconv.ParseInt value 10 64) as [n [e'|]] eqn:E; inversion H; subst.
    do 3 right. eapply ParseInt_error; eauto.
  - destruct (strconv.ParseUint value 10 64) as [n [e'|]] eqn:E; inversion H; subst.
    do 3 right. eapply ParseUint_error; eauto.
Qed.

Lemma setLeaf_no_panic v value o msg : setLeaf v value <> (o, Panic msg).
Proof.
  unfold setLeaf. intros H.
  destruct (negb (IsValid v) || negb (CanSet v)); [discriminate|].
  destruct (obj v) as [b|k i|k u|f|s|fields|t target]; try discriminate.
  - destruct (strconv.ParseBool value) as [b' [e'|]]; discriminate.
  - destruct (strconv.ParseInt value 10 64) as [n [e'|]]; discriminate.
  - destruct (strconv.ParseUint value 10 64) as [n [e'|]]; discriminate.
Qed.

(** ** The descent *)

Lemma setNodeValue_Pointer c seg rest value :
  setNodeValue (Pointer c) (seg :: rest) value =
  setNodeValue (Reflected (mkValue writable c)) (seg :: rest) value.
Proof. reflexivity. Qed.

Lemma setNodeValue_cons ro o seg rest value :
  setNodeValue (Reflected (mkValue ro o)) (seg :: rest) value =
  if isRO ro && nilPointer o
  then (o, Panic "reflect: reflect.Value.Set using value obtained using unexported field")
  else
    let '(e, out) :=
      intoStruct (fun f => setNodeValue (Reflected f) rest value) ro seg (elemOf o) in
    (putElem o e, out).
Proof.
  destruct o as [b|k i|k u|f|s|fields|t [n|]]; simpl;
    rewrite ?andb_false_r; try reflexivity.
  - destruct (scanFields _ ro seg fields); reflexivity.
  - destruct (isRO ro); reflexivity.
Qed.

Lemma getNodeValue_cons o seg rest :
  getNodeValue o (seg :: rest) =
  if nilPointer o then None
  else match elemOf o with
       | OStruct fields =>
           match findField seg fields with
           | Some fv => getNodeValue fv rest
           | None => None
           end
       | _ => None
       end.
Proof.
  destruct o as [b|k i|k u|f|s|fields|t [n|]]; reflexivity.
Qed.

Lemma getNodeValue_putElem o fields seg rest :
  getNodeValue (putElem o (OStruct fields)) (seg :: rest) =
  match findField seg fields with
  | Some fv => getNodeValue fv rest
  | None => None
  end.
Proof.
  destruct o as [b|k i|k u|f|s|fields0|t [n|]]; reflexivity.
Qed.

Lemma putElem_elemOf o : nilPointer o = false -> putElem o (elemOf o) = o.
Proof.
  destruct o as [b|k i|k u|f|s|fields|t [n|]]; simpl; congruence.
Qed.

Lemma setNodeValue_errors path : forall node value o e,
  setNodeValue node path value = (o, Err e) -> engineError e.
Proof.
  unfold engineError.
  induction path as [|seg rest IH]; intros node value o e H.
  - destruct node as [c|v]; simpl in H.
    + inversion H; auto.
    + apply setLeaf_errors in H. intuition.
  - assert (G : forall ro c, setNodeValue (Reflected (mkValue ro c)) (seg :: rest) value = (o, Err e) ->
                engineError e).
    { clear H. intros ro c H. unfold engineError. rewrite setNodeValue_cons in H.
      destruct (isRO ro && nilPointer c); [discriminate|].
      destruct (intoStruct _ ro seg (elemOf c)) as [n out] eqn:Hin.
      inversion H; subst. unfold intoStruct in Hin.
      destruct (elemOf c) as [b|k i|k u|f|s|fields|t tg]; try (inversion Hin; auto 7; fail).
      destruct (scanFields _ ro seg fields) as [fields' out'] eqn:Hscan.
      inversion Hin; subst.
      apply scanFields_shape in Hscan.
      destruct Hscan as [(_ & E & _)|(pre & sf & fv & fv' & post & _ & _ & _ & _ & HD)].
      - inversion E; auto 7.
      - apply IH in HD. exact HD. }
    destruct node as [c|[ro c]].
    + rewrite setNodeValue_Pointer in H. eapply G; eauto.
    + eapply G; eauto.
Qed.

Lemma engineError_not_syntax e : engineError e -> e <> ArgumentSyntaxError.
Proof.
  unfold engineError, TypeCoercionError.
  intros [H|[H|[H|[H|[H|[H|(fn & num & err & H)]]]]]]; subst; discriminate.
Qed.

(** A call changes at most the leaf its path leads to: every other leaf,
    and every leaf at all when the call does not return [nil], is as
    before. *)
Lemma setNodeValue_frame q : forall p ro o value o' out leaf,
  setNodeValue (Reflected (mkValue ro o)) q value = (o', out) ->
  getNodeValue o p = Some leaf -> isLeaf leaf = true ->
  out <> Nil \/ p <> q ->
  getNodeValue o' p = Some leaf.
Proof.
  induction q as [|seg' rest' IH]; intros p ro o value o' out leaf Hset Hget Hleaf Hne.
  - simpl in Hset.
    destruct (match out with Nil => true | _ => false end) eqn:Hout.
    + destruct out; try discriminate.
      apply setLeaf_written in Hset. simpl in Hset. destruct Hset as (_ & Hl & _).
      destruct p as [|seg rest]; [destruct Hne; congruence|].
      destruct o; simpl in Hl, Hget; discriminate.
    + apply setLeaf_unchanged in Hset; [|intros ->; discriminate].
      simpl in Hset. subst. exact Hget.
  - rewrite setNodeValue_cons in Hset.
    destruct (isRO ro && nilPointer o) eqn:Hnil.
    { inversion Hset; subst. exact Hget. }
    destruct (intoStruct _ ro seg' (elemOf o)) as [n out'] eqn:Hin.
    inversion Hset; subst; clear Hset.
    destruct p as [|seg rest].
    + simpl in Hget. inversion Hget; subst.
      destruct leaf; simpl in Hleaf; try discriminate; simpl in Hin; inversion Hin; reflexivity.
    + rewrite getNodeValue_cons in Hget.
      destruct (nilPointer o) eqn:Hnp; [discriminate|].
      destruct (elemOf o) as [b|k i|k u|f|s|fields|t tg] eqn:Helem; try discriminate.
      simpl in Hin.
      destruct (scanFields _ ro seg' fields) as [fields' out''] eqn:Hscan.
      inversion Hin; subst; clear Hin.
      rewrite getNodeValue_putElem.
      apply scanFields_shape in Hscan.
      destruct Hscan as [(E & _)|(pre & sf & fv & fv' & post & E1 & E2 & Hpre & Htag & HD)].
      * subst. exact Hget.
      * subst. rewrite findField_app in Hget |- *.
        destruct (findField seg pre) as [r|]; [exact Hget|].
        destruct (tagIs seg sf) eqn:Hseg; [|exact Hget].
        apply tagIs_eq in Htag. apply tagIs_eq in Hseg.
        assert (seg = seg') by congruence. subst seg'.
        eapply IH; eauto.
        destruct Hne as [Hne|Hne]; [now left|right; congruence].
Qed.

(** ** Base-10 numerals and [strconv] *)

Lemma decimalFrom_ge s : forall acc v, 0 <= acc -> decimalFrom s acc = Some v -> acc <= v.
Proof.
  induction s as [|c s IH]; intros acc v Hacc H; cbn [decimalFrom] in H.
  - inversion H; lia.
  - destruct (isDigit c) eqn:Hd; [|discriminate].
    unfold isDigit in Hd. apply andb_true_iff in Hd. destruct Hd as [H1 H2].
    apply Z.leb_le in H1, H2.
    apply IH in H; unfold digitValue in *; lia.
Qed.

Lemma digitOf_digit c : isDigit c = true ->
  strconv.digitOf c = Some (digitValue c) /\ 0 <= digitValue c <= 9.
Proof.
  unfold isDigit, strconv.digitOf, digitValue. intros H. rewrite H. split; [reflexivity|].
  apply andb_true_iff in H. destruct H as [H1 H2]. apply Z.leb_le in H1, H2. lia.
Qed.

Lemma digitOf_other c : isDigit c = false ->
  match strconv.digitOf c with
  | Some d => 10 <= d
  | None => True
  end.
Proof.
  unfold isDigit, strconv.digitOf. intros H. rewrite H.
  set (l := strconv.lower (Z.of_N (N_of_ascii c))).
  destruct ((97 <=? l) && (l <=? 122)) eqn:E; [|exact I].
  apply andb_true_iff in E. destruct E as [E _]. apply Z.leb_le in E. lia.
Qed.

Lemma cutoff_10 : strconv.maxUint64 / 10 + 1 = 1844674407370955162.
Proof. reflexivity. Qed.

Lemma maxVal_64 : strconv.uint64 (strconv.uint64 (Z.shiftl 1 64) - 1) = strconv.maxUint64.
Proof. reflexivity. Qed.

Lemma maxUint64_eq : strconv.maxUint64 = 18446744073709551615.
Proof. reflexivity. Qed.

(** The digit loop computes the numeral's value, or reports that it does
    not fit in 64 bits, or that the string is no numeral. *)
Lemma parseDigits_decimal s : forall n, 0 <= n <= strconv.maxUint64 ->
  match decimalFrom s n with
  | Some v =>
      strconv.parseDigits s 10 1844674407370955162 strconv.maxUint64 n =
      if v <=? strconv.maxUint64 then (v, None) else (strconv.maxUint64, Some strconv.ErrRange)
  | None =>
      strconv.parseDigits s 10 1844674407370955162 strconv.maxUint64 n = (0, Some strconv.ErrSyntax) \/
      strconv.parseDigits s 10 1844674407370955162 strconv.maxUint64 n =
        (strconv.maxUint64, Some strconv.ErrRange)
  end.
Proof.
  rewrite maxUint64_eq.
  induction s as [|c s IH]; intros n Hn; cbn [decimalFrom strconv.parseDigits].
  - destruct (n <=? 18446744073709551615) eqn:E; [reflexivity|]. apply Z.leb_gt in E. lia.
  - destruct (isDigit c) eqn:Hd.
    + destruct (digitOf_digit c Hd) as [-> Hrange].
      destruct (10 <=? digitValue c) eqn:E10; [apply Z.leb_le in E10; lia|].
      destruct (1844674407370955162 <=? n) eqn:Ecut.
      * apply Z.leb_le in Ecut.
        destruct (decimalFrom s (10 * n + digitValue c)) as [v|] eqn:Hv; [|now right].
        apply decimalFrom_ge in Hv; [|lia].
        destruct (v <=? 18446744073709551615) eqn:E; [apply Z.leb_le in E; lia|reflexivity].
      * apply Z.leb_gt in Ecut.
        assert (Hmul : strconv.uint64 (n * 10) = n * 10).
        { unfold strconv.uint64. apply Z.mod_small. lia. }
        rewrite Hmul.
        destruct (n * 10 + digitValue c <=? 18446744073709551615) eqn:Efit.
        -- apply Z.leb_le in Efit.
           assert (Hadd : strconv.uint64 (n * 10 + digitValue c) = n * 10 + digitValue c).
           { unfold strconv.uint64. apply Z.mod_small. lia. }
           rewrite Hadd.
           destruct (n * 10 + digitValue c <? n * 10) eqn:E1; [apply Z.ltb_lt in E1; lia|].
           destruct (18446744073709551615 <? n * 10 + digitValue c) eqn:E2;
             [apply Z.ltb_lt in E2; lia|].
           cbn [orb]. replace (10 * n + digitValue c) with (n * 10 + digitValue c) by lia.
           apply IH. lia.
        -- apply Z.leb_gt in Efit.
           assert (Hadd : strconv.uint64 (n * 10 + digitValue c) =
                          n * 10 + digitValue c - 18446744073709551616).
           { unfold strconv.uint64. symmetry.
             apply (Z.mod_unique _ _ 1); [left|]; lia. }
           rewrite Hadd.
           destruct (n * 10 + digitValue c - 18446744073709551616 <? n * 10) eqn:E1;
             [|apply Z.ltb_ge in E1; lia].
           cbn [orb].
           destruct (decimalFrom s (10 * n + digitValue c)) as [v|] eqn:Hv; [|now right].
           apply decimalFrom_ge in Hv; [|lia].
           destruct (v <=? 18446744073709551615) eqn:E; [apply Z.leb_le in E; lia|reflexivity].
    + pose proof (digitOf_other c Hd) as Ho.
      destruct (strconv.digitOf c) as [d|]; [|now left].
      destruct (10 <=? d) eqn:E; [now left|apply Z.leb_gt in E; lia].
Qed.

Lemma decimal_nonneg s v : decimal s = Some v -> 0 <= v.
Proof.
  destruct s; simpl; [discriminate|]. intros H.
  change (decimalFrom (String a s) 0 = Some v) in H.
  now apply decimalFrom_ge in H.
Qed.

(** [ParseUint] in base 10 with 64 bits accepts exactly the numerals below
    [2^64], with their value. *)
Lemma ParseUint_10_64 s :
  match decimal s with
  | Some v =>
      strconv.ParseUint s 10 64 =
      if v <=? strconv.maxUint64 then (v, None)
      else (strconv.maxUint64, Some (strconv.rangeError "ParseUint" s))
  | None =>
      strconv.ParseUint s 10 64 = (0, Some (strconv.syntaxError "ParseUint" s)) \/
      strconv.ParseUint s 10 64 = (strconv.maxUint64, Some (strconv.rangeError "ParseUint" s))
  end.
Proof.
  destruct s as [|c s]; [left; reflexivity|].
  unfold decimal, strconv.ParseUint.
  rewrite cutoff_10, maxVal_64.
  pose proof (parseDigits_decimal (String c s) 0) as H.
  rewrite maxUint64_eq in H at 1. specialize (H ltac:(lia)).
  destruct (decimalFrom (String c s) 0) as [v|].
  - rewrite H. destruct (v <=? strconv.maxUint64); reflexivity.
  - destruct H as [-> | ->]; [left|right]; reflexivity.
Qed.

Lemma ParseUint_uintOf s :
  match uintOf 64 s with
  | Some v => strconv.ParseUint s 10 64 = (v, None)
  | None => exists n e, strconv.ParseUint s 10 64 = (n, Some e)
  end.
Proof.
  unfold uintOf. pose proof (ParseUint_10_64 s) as H.
  destruct (decimal s) as [v|].
  - rewrite maxUint64_eq in H. change (2 ^ 64) with 18446744073709551616.
    destruct (v <? 18446744073709551616) eqn:E.
    + apply Z.ltb_lt in E.
      destruct (v <=? 18446744073709551615) eqn:E'; [exact H|apply Z.leb_gt in E'; lia].
    + apply Z.ltb_ge in E.
      destruct (v <=? 18446744073709551615) eqn:E'; [apply Z.leb_le in E'; lia|eauto].
  - destruct H as [H|H]; eauto.
Qed.

Lemma signedDecimal_unsigned c rest :
  Ascii.eqb c "+" = false -> Ascii.eqb c "-" = false ->
  signedDecimal (String c rest) = decimal (String c rest).
Proof.
  destruct c as [[] [] [] [] [] [] [] []]; intros H1 H2;
    try reflexivity; discriminate.
Qed.

(** What [ParseInt] makes of the result of [ParseUint] on the digits. *)
Lemma ParseInt_digits c rest digits neg :
  neg = Ascii.eqb c "-" ->
  digits = (if Ascii.eqb c "+" || Ascii.eqb c "-" then rest else String c rest) ->
  match decimal digits with
  | Some v =>
      if (if neg then v <=? 2 ^ 63 else v <? 2 ^ 63)
      then strconv.ParseInt (String c rest) 10 64 = (if neg then - v else v, None)
      else exists n e, strconv.ParseInt (String c rest) 10 64 = (n, Some e)
  | None => exists n e, strconv.ParseInt (String c rest) 10 64 = (n, Some e)
  end.
Proof.
  intros Hneg Hdigits. unfold strconv.ParseInt. cbv zeta.
  rewrite <- Hdigits, <- Hneg.
  change (Z.shiftl 1 (64 - 1)) with 9223372036854775808.
  change (2 ^ 63) with 9223372036854775808.
  pose proof (ParseUint_10_64 digits) as H. rewrite maxUint64_eq in H.
  destruct (decimal digits) as [v|] eqn:Hv.
  - apply decimal_nonneg in Hv.
    destruct (v <=? 18446744073709551615) eqn:Efit.
    + rewrite H. cbn [strconv.isOtherThanRange].
      destruct neg; cbn [negb andb].
      * destruct (9223372036854775808 <? v) eqn:E.
        -- apply Z.ltb_lt in E.
           destruct (v <=? 9223372036854775808) eqn:E'; [apply Z.leb_le in E'; lia|eauto].
        -- apply Z.ltb_ge in E.
           destruct (v <=? 9223372036854775808) eqn:E'; [reflexivity|apply Z.leb_gt in E'; lia].
      * destruct (9223372036854775808 <=? v) eqn:E.
        -- apply Z.leb_le in E.
           destruct (v <? 9223372036854775808) eqn:E'; [apply Z.ltb_lt in E'; lia|eauto].
        -- apply Z.leb_gt in E.
           destruct (v <? 9223372036854775808) eqn:E'; [reflexivity|apply Z.ltb_ge in E'; lia].
    + apply Z.leb_gt in Efit. rewrite H.
      assert (Hbig : (if (if neg then v <=? 9223372036854775808 else v <? 9223372036854775808)
                      then False else True)).
      { destruct neg.
        - destruct (v <=? 9223372036854775808) eqn:E'; [apply Z.leb_le in E'; lia|exact I].
        - destruct (v <? 9223372036854775808) eqn:E'; [apply Z.ltb_lt in E'; lia|exact I]. }
      destruct (if neg then v <=? 9223372036854775808 else v <? 9223372036854775808);
        [contradiction|].
      cbn [strconv.isOtherThanRange strconv.rangeError strconv.ErrRange errors.New String.eqb
           Ascii.eqb Bool.eqb negb].
      destruct neg; cbn; eauto.
  - destruct H as [-> | ->].
    + cbn. eauto.
    + destruct neg; cbn; eauto.
Qed.

Ltac bool_to_Z :=
  repeat match goal with
    | H : (_ && _) = true |- _ => apply andb_true_iff in H; destruct H
    | H : (_ && _) = false |- _ => apply andb_false_iff in H; destruct H
    | H : (_ <=? _) = true |- _ => apply Z.leb_le in H
    | H : (_ <=? _) = false |- _ => apply Z.leb_gt in H
    | H : (_ <? _) = true |- _ => apply Z.ltb_lt in H
    | H : (_ <? _) = false |- _ => apply Z.ltb_ge in H
    end.

(** [ParseInt] in base 10 with 64 bits accepts exactly the signed numerals
    of the 64-bit range, with their value. *)
Lemma ParseInt_intOf s :
  match intOf 64 s with
  | Some v => strconv.ParseInt s 10 64 = (v, None)
  | None => exists n e, strconv.ParseInt s 10 64 = (n, Some e)
  end.
Proof.
  unfold intOf. change (2 ^ (64 - 1)) with (2 ^ 63).
  destruct s as [|c rest]; [cbn; eauto|].
  destruct (Ascii.eqb c "+") eqn:Hplus; [|destruct (Ascii.eqb c "-") eqn:Hminus].
  - pose proof (ParseInt_digits c rest rest false) as H.
    apply Ascii.eqb_eq in Hplus. subst c.
    specialize (H eq_refl eq_refl). cbn [signedDecimal].
    destruct (decimal rest) as [v|] eqn:Hv; [|exact H].
    apply decimal_nonneg in Hv.
    destruct ((- 2 ^ 63 <=? v) && (v <? 2 ^ 63)) eqn:E'; destruct (v <? 2 ^ 63) eqn:E;
      try exact H; exfalso; bool_to_Z; try discriminate;
      change (2 ^ 63) with 9223372036854775808 in *; lia.
  - pose proof (ParseInt_digits c rest rest true) as H.
    apply Ascii.eqb_eq in Hminus. subst c.
    specialize (H eq_refl eq_refl). cbn [signedDecimal].
    destruct (decimal rest) as [v|] eqn:Hv; [|exact H].
    apply decimal_nonneg in Hv. cbn [option_map].
    destruct ((- 2 ^ 63 <=? - v) && (- v <? 2 ^ 63)) eqn:E'; destruct (v <=? 2 ^ 63) eqn:E;
      try exact H; exfalso; bool_to_Z; try discriminate;
      change (2 ^ 63) with 9223372036854775808 in *; lia.
  - pose proof (ParseInt_digits c rest (String c rest) false) as H.
    rewrite Hplus, Hminus in H. specialize (H eq_refl eq_refl).
    rewrite signedDecimal_unsigned by assumption.
    destruct (decimal (String c rest)) as [v|] eqn:Hv; [|exact H].
    apply decimal_nonneg in Hv.
    destruct ((- 2 ^ 63 <=? v) && (v <? 2 ^ 63)) eqn:E'; destruct (v <? 2 ^ 63) eqn:E;
      try exact H; exfalso; bool_to_Z; try discriminate;
      change (2 ^ 63) with 9223372036854775808 in *; lia.
Qed.

(** ** One override *)

Lemma ReadParameters_single c flag value :
  isFlag flag = true -> isFlag value = false ->
  ReadParameters c [flag; value] = setParameter c (strings.TrimLeft flag "-") value.
Proof.
  unfold ReadParameters, isFlag. intros Hf Hv. simpl. rewrite Hf, Hv. simpl.
  destruct (setParameter c (strings.TrimLeft flag "-") value) as [c' []]; reflexivity.
Qed.

Lemma splitFrom_nonempty s sep : forall skip piece, strings.splitFrom s sep skip piece <> [].
Proof.
  induction s as [|c s IH]; intros skip piece; cbn [strings.splitFrom]; [discriminate|].
  destruct skip; [|apply IH].
  destruct (String.prefix sep (String c s)); [discriminate|apply IH].
Qed.

Lemma Split_nonempty s sep : strings.Split s sep <> [].
Proof. apply splitFrom_nonempty. Qed.

Lemma scanFields_found D ro seg pre sf fv post :
  findField seg pre = None -> tagIs seg sf = true ->
  scanFields D ro seg (pre ++ (sf, fv) :: post) =
  let '(fv', out) := D (mkValue (fieldFlag ro sf) fv) in
  (pre ++ (sf, fv') :: post, out).
Proof.
  intros Hpre Htag.
  induction pre as [|[sf0 fv0] pre IH].
  - simpl app. rewrite scanFields_cons, Htag. reflexivity.
  - rewrite findField_cons in Hpre.
    rewrite <- app_comm_cons, scanFields_cons.
    destruct (tagIs seg sf0); [discriminate|].
    rewrite (IH Hpre).
    destruct (D (mkValue (fieldFlag ro sf) fv)); reflexivity.
Qed.

Lemma scanFields_none D ro seg fields :
  findField seg fields = None ->
  scanFields D ro seg fields = (fields, Err PathNotFoundError).
Proof.
  induction fields as [|[sf fv] rest IH]; intros H; [reflexivity|].
  rewrite findField_cons in H. rewrite scanFields_cons.
  destruct (tagIs seg sf); [discriminate|].
  rewrite (IH H). reflexivity.
Qed.

Lemma tagIs_true seg sf :
  Get (Tag sf) "json" = seg -> seg <> "" -> seg <> "-" -> tagIs seg sf = true.
Proof.
  intros <- H1 H2. unfold tagIs.
  apply String.eqb_neq in H1, H2. rewrite H1, H2, String.eqb_refl. reflexivity.
Qed.

Lemma findField_none seg fields :
  Forall (fun f => Get (Tag (fst f)) "json" <> seg) fields -> findField seg fields = None.
Proof.
  induction 1 as [|[sf fv] rest Hne _ IH]; [reflexivity|].
  rewrite findField_cons.
  destruct (tagIs seg sf) eqn:E; [|exact IH].
  apply tagIs_eq in E. simpl in Hne. contradiction.
Qed.

Lemma findField_unusable seg fields : seg = "" \/ seg = "-" -> findField seg fields = None.
Proof.
  intros Hseg. induction fields as [|[sf fv] rest IH]; [reflexivity|].
  rewrite findField_cons.
  destruct (tagIs seg sf) eqn:E; [|exact IH].
  pose proof (tagIs_eq _ _ E) as Heq. unfold tagIs in E. rewrite Heq in E.
  destruct Hseg; subst seg; discriminate.
Qed.

Lemma exportedTree_fields fields pre sf fv post :
  exportedTree (OStruct fields) = true -> fields = pre ++ (sf, fv) :: post ->
  IsExported sf = true /\ exportedTree fv = true.
Proof.
  intros H ->. induction pre as [|[sf0 fv0] pre IH]; simpl in H.
  - apply andb_true_iff in H. destruct H as [H _].
    apply andb_true_iff in H. exact H.
  - apply andb_true_iff in H. destruct H as [_ H]. apply IH. exact H.
Qed.

Lemma exportedTree_elemOf o : nilPointer o = false -> exportedTree o = true ->
  exportedTree (elemOf o) = true.
Proof.
  destruct o as [b|k i|k u|f|s|fields|t [n|]]; simpl; congruence.
Qed.

(** A path that ends at a record is refused and nothing is changed. *)
Lemma setNodeValue_at_record p : forall o fields value,
  getNodeValue o p = Some (OStruct fields) -> exportedTree o = true ->
  setNodeValue (Reflected (mkValue writable o)) p value = (o, Err IncompletePathError).
Proof.
  induction p as [|seg rest IH]; intros o fields value Hget Hexp.
  - simpl in Hget. inversion Hget; subst. reflexivity.
  - rewrite getNodeValue_cons in Hget. rewrite setNodeValue_cons.
    destruct (nilPointer o) eqn:Hnil; [discriminate|].
    simpl_ro.
    pose proof (exportedTree_elemOf o Hnil Hexp) as Helem.
    pose proof (putElem_elemOf o Hnil) as Hput.
    destruct (elemOf o) as [b|k i|k u|f|s|fs|t tg]; try discriminate.
    cbn [intoStruct].
    destruct (scanFields _ writable seg fs) as [fs' out] eqn:Hscan.
    apply scanFields_shape in Hscan.
    destruct Hscan as [(_ & _ & E)|(pre & sf & fv & fv' & post & E1 & E2 & Hpre & Htag & HD)].
    + rewrite E in Hget. discriminate.
    + subst fs fs'. rewrite findField_app, Hpre, Htag in Hget.
      destruct (exportedTree_fields _ pre sf fv post Helem eq_refl) as [Hsf Hfv].
      rewrite (fieldFlag_exported _ Hsf) in HD.
      rewrite (IH fv fields value Hget Hfv) in HD.
      inversion HD; subst. rewrite Hput. reflexivity.
Qed.

(** ** Sequences of overrides *)

Lemma applyOverrides_app c pre rest c1 :
  applyOverrides c pre = (c1, Nil) ->
  applyOverrides c (pre ++ rest) = applyOverrides c1 rest.
Proof.
  revert c. induction pre as [|[k v] pre IH]; intros c H; simpl in *.
  - inversion H; reflexivity.
  - destruct (setParameter c k v) as [c' []]; try discriminate. now apply IH.
Qed.

Lemma applyOverrides_split c pre key value post c' :
  applyOverrides c (pre ++ (key, value) :: post) = (c', Nil) ->
  exists c1 c2, applyOverrides c pre = (c1, Nil) /\ setParameter c1 key value = (c2, Nil) /\
                applyOverrides c2 post = (c', Nil).
Proof.
  revert c. induction pre as [|[k v] pre IH]; intros c H; simpl in *.
  - destruct (setParameter c key value) as [c2 []] eqn:E; try discriminate. eauto.
  - destruct (setParameter c k v) as [c0 []]; try discriminate. now apply IH.
Qed.

Lemma setParameter_frame c key value c' out p leaf :
  setParameter c key value = (c', out) ->
  getNodeValue c p = Some leaf -> isLeaf leaf = true ->
  out <> Nil \/ p <> strings.Split key "." ->
  getNodeValue c' p = Some leaf.
Proof.
  unfold setParameter. intros Hset Hget Hleaf Hne.
  destruct (strings.Split key ".") as [|seg rest] eqn:E; [now apply Split_nonempty in E|].
  rewrite setNodeValue_Pointer in Hset.
  eapply setNodeValue_frame; eauto.
Qed.

(** Later overrides of other paths leave a leaf as it is. *)
Lemma applyOverrides_frame post : forall c c' p leaf,
  applyOverrides c post = (c', Nil) ->
  Forall (fun kv => strings.Split (fst kv) "." <> p) post ->
  getNodeValue c p = Some leaf -> isLeaf leaf = true ->
  getNodeValue c' p = Some leaf.
Proof.
  induction post as [|[k v] post IH]; intros c c' p leaf Happ Hother Hget Hleaf; simpl in Happ.
  - inversion Happ; subst; exact Hget.
  - inversion Hother as [|? ? Hk Hrest]; subst. simpl in Hk.
    destruct (setParameter c k v) as [c1 []] eqn:E; try discriminate.
    eapply IH; eauto.
    eapply setParameter_frame; eauto.
Qed.

Lemma SetInt_64 k n :
  intBits k = 64 -> - 2 ^ 63 <= n < 2 ^ 63 -> SetInt k n = n.
Proof.
  unfold SetInt. intros -> H.
  change (2 ^ (64 - 1)) with 9223372036854775808.
  change (2 ^ 64) with 18446744073709551616.
  change (2 ^ 63) with 9223372036854775808 in H.
  rewrite Z.mod_small; lia.
Qed.

Lemma intOf_range bits s v :
  intOf bits s = Some v -> - 2 ^ (bits - 1) <= v < 2 ^ (bits - 1).
Proof.
  unfold intOf. destruct (signedDecimal s) as [w|]; [|discriminate].
  destruct ((- 2 ^ (bits - 1) <=? w) && (w <? 2 ^ (bits - 1))) eqn:E; [|discriminate].
  intros H; inversion H; subst. bool_to_Z. lia.
Qed.

(** ** Evaluating overrides on a [ConfigRoot] *)

Ltac open_config c :=
  let au := fresh "auth" in
  destruct c as [[? ? ? ? au] [? ? ? ?] [? ? ? ?] [? ? [[? ?] [? ?] [? ?]]] ?];
  try (destruct au as [[? ?]|]).

Ltac split_key :=
  unfold setParameter;
  match goal with
  | |- context [strings.Split ?k ?s] =>
      let r := eval vm_compute in (strings.Split k s) in
      change (strings.Split k s) with r
  end.

(** The read-only bits of the fields of a [ConfigRoot], all exported. *)
Ltac fold_writable :=
  cbv [fieldFlag]; cbn -[setLeaf spelled intOf uintOf];
  change (mkRoFlag false false) with writable.

(** One override with a value that is not known: down to the leaf. *)
Ltac to_leaf c :=
  rewrite ReadParameters_single by (assumption || reflexivity);
  split_key; open_config c; cbn -[setLeaf spelled intOf uintOf];
  fold_writable.

Lemma exportedTree_ValueOf c : exportedTree (ValueOf c) = true.
Proof. open_config c; reflexivity. Qed.

(** * Properties of the override engine and the loader *)

(** C1, as the code has it.  At a record node, which is a record or a
    reference to one (an absent reference standing for the zero record it is
    replaced by), the fields are scanned in declaration order for the first
    one whose json tag is the next path segment, compared exactly (a tag
    that is empty or [-] is never a key); the call continues in that field
    with the remaining segments, with the read-only bits [v.Field(i)] gives
    it, and no other field of the record changes.  If no field of the record
    has the segment as its tag the call fails with the fixed value
    [errors.New("Path not found in config")], whatever the path and the
    segment, and the record is as it was; a record that was present is
    unchanged, while one that was absent stays allocated.  (An absent record
    reached through an unexported field cannot be allocated: there the call
    panics.)  Keys are matched
    case-sensitively and are the tags, not the Go field names:
    [server.nonexistent], [Server.address] and [server.Address] are not
    found, and the error contains neither the path nor the segment;
    [server.auth.nosuchfield] is not found in the [auth] record, which is
    present afterwards. *)
Theorem C1_record_scan_first_match :
  (forall ro o pre sf fv post seg rest value,
      isRO ro && nilPointer o = false ->
      elemOf o = OStruct (pre ++ (sf, fv) :: post) ->
      Forall (fun f => Get (Tag (fst f)) "json" <> seg) pre ->
      Get (Tag sf) "json" = seg -> seg <> "" -> seg <> "-" ->
      setNodeValue (Reflected (mkValue ro o)) (seg :: rest) value =
      let '(fv', out) :=
        setNodeValue (Reflected (mkValue (fieldFlag ro sf) fv)) rest value in
      (putElem o (OStruct (pre ++ (sf, fv') :: post)), out)) /\
  (forall ro o fields seg rest value,
      isRO ro && nilPointer o = false ->
      elemOf o = OStruct fields ->
      Forall (fun f => Get (Tag (fst f)) "json" <> seg) fields \/ seg = "" \/ seg = "-" ->
      setNodeValue (Reflected (mkValue ro o)) (seg :: rest) value =
      (putElem o (OStruct fields), Err PathNotFoundError)) /\
  (forall o, nilPointer o = false -> putElem o (elemOf o) = o) /\
  (forall t, elemOf (OPtr t None) = Zero t /\
             putElem (OPtr t None) (Zero t) = OPtr t (Some (Zero t))) /\
  (forall ro t seg rest value, isRO ro = true ->
      setNodeValue (Reflected (mkValue ro (OPtr t None))) (seg :: rest) value =
      (OPtr t None,
       Panic "reflect: reflect.Value.Set using value obtained using unexported field")) /\
  (forall c value, isFlag value = false ->
      ReadParameters (ValueOf c) ["-server.nonexistent"; value] = (ValueOf c, Err PathNotFoundError) /\
      ReadParameters (ValueOf c) ["-Server.address"; value] = (ValueOf c, Err PathNotFoundError) /\
      ReadParameters (ValueOf c) ["-server.Address"; value] = (ValueOf c, Err PathNotFoundError) /\
      ReadParameters (ValueOf c) ["-server.address"; value] = (ValueOf (withAddress c value), Nil) /\
      ReadParameters (ValueOf c) ["-server.auth.nosuchfield"; value] =
        (ValueOf (withAuth c (Some (match Auth (Server c) with
                                    | Some a => a
                                    | None => mkConfigAuth "" ""
                                    end))),
         Err PathNotFoundError)) /\
  carries PathNotFoundError "server.nonexistent" = false /\
  carries PathNotFoundError "nonexistent" = false.
Proof.
  split; [|split; [|split; [|split; [|split; [|split; [|split]]]]]].
  - intros ro o pre sf fv post seg rest value Hro Helem Hpre Htag Hne1 Hne2.
    rewrite setNodeValue_cons, Hro, Helem. cbn [intoStruct].
    rewrite scanFields_found by (auto using findField_none, tagIs_true).
    destruct (setNodeValue _ rest value); reflexivity.
  - intros ro o fields seg rest value Hro Helem H.
    rewrite setNodeValue_cons, Hro, Helem. cbn [intoStruct].
    rewrite scanFields_none; [reflexivity|].
    destruct H as [H|H]; [now apply findField_none|now apply findField_unusable].
  - intros o Hnil. destruct o as [b|k i|k u|f|s|fields|t [n|]]; try reflexivity.
    discriminate.
  - intros t. split; reflexivity.
  - intros ro t seg rest value Hro.
    rewrite setNodeValue_cons, Hro. reflexivity.
  - intros c value Hv. repeat split.
    + to_leaf c; reflexivity.
    + to_leaf c; reflexivity.
    + to_leaf c; reflexivity.
    + to_leaf c; reflexivity.
    + to_leaf c; reflexivity.
  - reflexivity.
  - reflexivity.
Qed.

(** The theorem at the [auth] reference of a [server] record that has one:
    the scan passes [username] and descends into [password]. *)
Lemma C1_record_scan_witness :
  setNodeValue
    (Reflected (mkValue writable (OPtr TypeOf.ConfigAuth
                                       (Some (ValueOfAuth (mkConfigAuth "alice" ""))))))
    ["password"] "s3cr3t" =
  (OPtr TypeOf.ConfigAuth (Some (ValueOfAuth (mkConfigAuth "alice" "s3cr3t"))), Nil).
Proof.
  pose proof (proj1 C1_record_scan_first_match writable
    (OPtr TypeOf.ConfigAuth (Some (ValueOfAuth (mkConfigAuth "alice" ""))))
    [(Fields.Username, OString "alice")]
    Fields.Password (OString "") []
    "password" [] "s3cr3t") as H.
  simpl in H. apply H.
  - reflexivity.
  - reflexivity.
  - repeat constructor; simpl; discriminate.
  - reflexivity.
  - discriminate.
  - discriminate.
Defined.

(** C1 as stated fails: for [server.nonexistent] the error names neither the
    requested path nor the failing segment. *)
Lemma C1_error_names_no_path :
  ~ (exists e, snd (ReadParameters (ValueOf defaultContent) ["-server.nonexistent"; "x"]) = Err e /\
               carries e "server.nonexistent" = true /\ carries e "nonexistent" = true).
Proof.
  intros (e & He & H1 & _). vm_compute in He. inversion He; subst. vm_compute in H1. discriminate.
Qed.

(** C2, as the code has it.  The tokens are scanned left to right; a token
    beginning with [-] is a flag, whose path is the token without its
    leading dashes, and any other token is a value.  The overrides paired up
    before the first violation of the alternation are applied in order; the
    call returns the [ArgumentSyntaxError] exactly when there is a violation
    (a value without an unconsumed flag, two consecutive flags, a trailing
    flag) and every override before it succeeded: an override that fails
    first returns its own error.  [["-a"; "-b"; "v"]] and [["v"]] fail with
    the [ArgumentSyntaxError]; [["-a"; "v1"; "-b"]] fails on a [ConfigRoot]
    with the path error of the override [a], before the trailing flag is
    seen. *)
Theorem C2_alternation_of_flags_and_values :
  (forall c args,
      ReadParameters c args =
      match applyOverrides c (fst (pairUp args)) with
      | (c', Nil) => (c', if snd (pairUp args) then Err ArgumentSyntaxError else Nil)
      | failed => failed
      end) /\
  (forall c args,
      snd (ReadParameters c args) = Err ArgumentSyntaxError <->
      snd (pairUp args) = true /\ snd (applyOverrides c (fst (pairUp args))) = Nil) /\
  (forall c,
      ReadParameters c ["-a"; "-b"; "v"] = (c, Err ArgumentSyntaxError) /\
      ReadParameters c ["v"] = (c, Err ArgumentSyntaxError) /\
      ReadParameters c ["-a"] = (c, Err ArgumentSyntaxError)) /\
  (forall c,
      ReadParameters (ValueOf c) ["-a"; "v1"; "-b"] = (ValueOf c, Err PathNotFoundError) /\
      ReadParameters (ValueOf c) ["-server.cors"; "false"; "-b"] =
        (ValueOf (withCORS c false), Err ArgumentSyntaxError) /\
      ReadParameters (ValueOf c) ["---server.cors"; "false"] = (ValueOf (withCORS c false), Nil)).
Proof.
  split; [|split; [|split]].
  - intros c args. apply readArgs_pairUp.
  - intros c args. unfold ReadParameters. rewrite readArgs_pairUp.
    assert (G : forall ovs c0 c1 e1, applyOverrides c0 ovs = (c1, Err e1) -> engineError e1).
    { induction ovs as [|[k v] ovs IH]; intros c0 c1 e1 H0; simpl in H0; [discriminate|].
      destruct (setParameter c0 k v) as [c2 [|e2|m2]] eqn:E; try discriminate.
      - eapply IH; eauto.
      - inversion H0; subst. unfold setParameter in E. eapply setNodeValue_errors; eauto. }
    destruct (applyOverrides c (fst (pairUp args))) as [c' out] eqn:Happ.
    destruct out as [|e|msg]; cbn [snd].
    + destruct (snd (pairUp args)); split; try (intros [? ?]); try discriminate; auto.
    + split; [|intros [_ ?]; discriminate].
      intros H. inversion H; subst. exfalso.
      apply G in Happ. now apply engineError_not_syntax in Happ.
    + split; [|intros [_ ?]]; discriminate.
  - intros c. repeat split.
  - intros c. repeat split; open_config c; vm_compute; reflexivity.
Qed.

(** The theorem at the three malformed token lists of the specification. *)
Lemma C2_alternation_witness :
  snd (ReadParameters (ValueOf defaultContent) ["-a"; "-b"; "v"]) = Err ArgumentSyntaxError /\
  snd (ReadParameters (ValueOf defaultContent) ["v"]) = Err ArgumentSyntaxError /\
  snd (ReadParameters (ValueOf defaultContent) ["-a"; "v1"; "-b"]) <> Err ArgumentSyntaxError.
Proof.
  pose proof (proj1 (proj2 C2_alternation_of_flags_and_values) (ValueOf defaultContent)) as H.
  split; [|split].
  - apply (proj2 (H ["-a"; "-b"; "v"])). split; reflexivity.
  - apply (proj2 (H ["v"])). split; reflexivity.
  - intros E. apply (proj1 (H ["-a"; "v1"; "-b"])) in E. destruct E as [_ E].
    vm_compute in E. discriminate.
Defined.

(** C2 as stated fails: [["-a"; "v1"; "-b"]] does not fail with the
    [ArgumentSyntaxError]; the override [a] is applied first and fails. *)
Lemma C2_trailing_flag_after_failed_override :
  ReadParameters (ValueOf defaultContent) ["-a"; "v1"; "-b"] =
    (ValueOf defaultContent, Err PathNotFoundError) /\
  PathNotFoundError <> ArgumentSyntaxError.
Proof. split; [vm_compute; reflexivity|discriminate]. Qed.

(** C3.  A walk that descends into a nil reference allocates the zero value
    of the referenced type, stores it in the reference and continues in it:
    the call does what it does on the tree where the reference already
    points to a zero record, and the reference is present afterwards.
    Applying [-server.auth.username alice -server.auth.password s3cr3t] to a
    tree without auth record gives an auth record with exactly these two
    values; after the first override alone the password is still the zero
    string. *)
Theorem C3_absent_record_allocated_on_descent :
  (forall t seg rest value,
      setNodeValue (Reflected (mkValue writable (OPtr t None))) (seg :: rest) value =
      setNodeValue (Reflected (mkValue writable (OPtr t (Some (Zero t))))) (seg :: rest) value /\
      exists n, fst (setNodeValue (Reflected (mkValue writable (OPtr t None))) (seg :: rest) value) =
                OPtr t (Some n)) /\
  Zero TypeOf.ConfigAuth = ValueOfAuth (mkConfigAuth "" "") /\
  (forall c, Auth (Server c) = None ->
      ReadParameters (ValueOf c) ["-server.auth.username"; "alice"] =
        (ValueOf (withAuth c (Some (mkConfigAuth "alice" ""))), Nil) /\
      ReadParameters (ValueOf c)
        ["-server.auth.username"; "alice"; "-server.auth.password"; "s3cr3t"] =
        (ValueOf (withAuth c (Some (mkConfigAuth "alice" "s3cr3t"))), Nil)).
Proof.
  split; [|split].
  - intros t seg rest value. rewrite !setNodeValue_cons.
    cbn [andb orb isRO writable flagStickyRO flagEmbedRO nilPointer elemOf putElem].
    destruct (intoStruct _ _ seg (Zero t)) as [e out]. split; [reflexivity|].
    exists e. reflexivity.
  - reflexivity.
  - intros c Hnil. split; open_config c; try discriminate Hnil; vm_compute; reflexivity.
Qed.

(** The theorem at the default tree, which has no auth record. *)
Lemma C3_absent_record_witness :
  Auth (Server defaultContent) = None /\
  ReadParameters (ValueOf defaultContent)
    ["-server.auth.username"; "alice"; "-server.auth.password"; "s3cr3t"] =
    (ValueOf (withAuth defaultContent (Some (mkConfigAuth "alice" "s3cr3t"))), Nil).
Proof.
  split; [reflexivity|].
  apply (proj2 (proj2 C3_absent_record_allocated_on_descent) defaultContent).
  reflexivity.
Defined.

Lemma setLeaf_bool b value :
  setLeaf (mkValue writable (OBool b)) value =
  if spelled value trueSpellings then (OBool true, Nil)
  else if spelled value falseSpellings then (OBool false, Nil)
  else (OBool b, Err (strconv.syntaxError "ParseBool" value)).
Proof.
  unfold setLeaf, strconv.ParseBool, spelled, trueSpellings, falseSpellings.
  cbn [IsValid CanSet flagRO obj negb orb List.existsb isRO writable flagStickyRO flagEmbedRO].
  rewrite !orb_false_r, !orb_assoc.
  destruct (_ || _ || _ || _ || _ || _); [reflexivity|].
  destruct (_ || _ || _ || _ || _ || _); reflexivity.
Qed.

Lemma spelled_cases value spellings :
  spelled value spellings = true -> In value spellings.
Proof.
  unfold spelled. intros H. apply List.existsb_exists in H.
  destruct H as (x & Hin & Heq). apply String.eqb_eq in Heq. now subst.
Qed.

(** C4, as the code has it.  A boolean leaf accepts exactly the twelve
    spellings [1 t T true TRUE True] (true) and [0 f F false FALSE False]
    (false) and stores the corresponding value; any other string, among them
    other mixes of upper and lower case, fails with the error of
    [strconv.ParseBool] and leaves the leaf as it was.  Every accepted
    spelling is a case-insensitive spelling of a canonical form.
    [-server.cors yes] fails; [-server.cors true] and [-server.cors 1] set
    the field to true. *)
Theorem C4_boolean_leaf_spellings :
  (forall b value,
      setNodeValue (Reflected (mkValue writable (OBool b))) [] value =
      if spelled value trueSpellings then (OBool true, Nil)
      else if spelled value falseSpellings then (OBool false, Nil)
      else (OBool b, Err (strconv.syntaxError "ParseBool" value))) /\
  (forall value, TypeCoercionError (strconv.syntaxError "ParseBool" value)) /\
  (forall value,
      (spelled value trueSpellings = true -> caseInsensitiveBool value = Some true) /\
      (spelled value falseSpellings = true -> caseInsensitiveBool value = Some false)) /\
  (forall c value, isFlag value = false ->
      ReadParameters (ValueOf c) ["-server.cors"; value] =
      if spelled value trueSpellings then (ValueOf (withCORS c true), Nil)
      else if spelled value falseSpellings then (ValueOf (withCORS c false), Nil)
      else (ValueOf c, Err (strconv.syntaxError "ParseBool" value))) /\
  (forall c,
      ReadParameters (ValueOf c) ["-server.cors"; "yes"] =
        (ValueOf c, Err (strconv.syntaxError "ParseBool" "yes")) /\
      ReadParameters (ValueOf c) ["-server.cors"; "true"] = (ValueOf (withCORS c true), Nil) /\
      ReadParameters (ValueOf c) ["-server.cors"; "1"] = (ValueOf (withCORS c true), Nil)).
Proof.
  split; [|split; [|split; [|split]]].
  - intros b value. apply setLeaf_bool.
  - intros value. unfold TypeCoercionError, strconv.syntaxError. eauto.
  - intros value. split; intros H; apply spelled_cases in H; simpl in H;
      repeat (destruct H as [H|H]; [subst; reflexivity|]); contradiction.
  - intros c value Hv. to_leaf c; rewrite setLeaf_bool;
      destruct (spelled value trueSpellings); try reflexivity;
      destruct (spelled value falseSpellings); reflexivity.
  - intros c. repeat split; open_config c; vm_compute; reflexivity.
Qed.

(** The theorem at the spelling [TRUE]. *)
Lemma C4_boolean_leaf_witness :
  spelled "TRUE" trueSpellings = true /\ caseInsensitiveBool "TRUE" = Some true /\
  ReadParameters (ValueOf defaultContent) ["-server.cors"; "TRUE"] =
    (ValueOf (withCORS defaultContent true), Nil).
Proof.
  split; [reflexivity|]. split.
  - apply (proj1 (proj2 (proj2 C4_boolean_leaf_spellings)) "TRUE"). reflexivity.
  - apply (proj1 (proj2 (proj2 (proj2 C4_boolean_leaf_spellings))) defaultContent "TRUE").
    reflexivity.
Defined.

(** C4 as stated fails: [tRUE] is a case-insensitive spelling of [true], yet
    [-server.cors tRUE] fails and leaves the field false. *)
Lemma C4_mixed_case_rejected :
  caseInsensitiveBool "tRUE" = Some true /\
  ReadParameters (ValueOf zeroConfig) ["-server.cors"; "tRUE"] =
    (ValueOf zeroConfig, Err (strconv.syntaxError "ParseBool" "tRUE")).
Proof. split; vm_compute; reflexivity. Qed.

Lemma setLeaf_int k i value :
  match intOf 64 value with
  | Some n => setLeaf (mkValue writable (OInt k i)) value = (OInt k (SetInt k n), Nil)
  | None => exists e, setLeaf (mkValue writable (OInt k i)) value = (OInt k i, Err e) /\
                      TypeCoercionError e
  end.
Proof.
  unfold setLeaf. cbn [IsValid CanSet flagRO obj negb orb isRO writable flagStickyRO flagEmbedRO].
  pose proof (ParseInt_intOf value) as H.
  destruct (intOf 64 value) as [n|].
  - rewrite H. reflexivity.
  - destruct H as (n & e & H). rewrite H. exists e. split; [reflexivity|].
    eapply ParseInt_error; eauto.
Qed.

Lemma setLeaf_uint k u value :
  match uintOf 64 value with
  | Some n => setLeaf (mkValue writable (OUint k u)) value = (OUint k (SetUint k n), Nil)
  | None => exists e, setLeaf (mkValue writable (OUint k u)) value = (OUint k u, Err e) /\
                      TypeCoercionError e
  end.
Proof.
  unfold setLeaf. cbn [IsValid CanSet flagRO obj negb orb isRO writable flagStickyRO flagEmbedRO].
  pose proof (ParseUint_uintOf value) as H.
  destruct (uintOf 64 value) as [n|].
  - rewrite H. reflexivity.
  - destruct H as (n & e & H). rewrite H. exists e. split; [reflexivity|].
    eapply ParseUint_error; eauto.
Qed.

Lemma uintOf_range bits s v : uintOf bits s = Some v -> 0 <= v < 2 ^ bits.
Proof.
  unfold uintOf. destruct (decimal s) as [w|] eqn:Hw; [|discriminate].
  apply decimal_nonneg in Hw.
  destruct (w <? 2 ^ bits) eqn:E; [|discriminate].
  intros H; inversion H; subst. bool_to_Z. lia.
Qed.

(** Reading below a node: the field a path continues in. *)
Lemma getNodeValue_field o seg rest x :
  getNodeValue o (seg :: rest) = Some x ->
  exists sf fv,
    In (sf, fv) (match elemOf o with OStruct fields => fields | _ => [] end) /\
    Get (Tag sf) "json" = seg /\ getNodeValue fv rest = Some x.
Proof.
  rewrite getNodeValue_cons.
  destruct (nilPointer o); [discriminate|].
  destruct (elemOf o) as [b|k i|k u|f|s|fields|t n]; try discriminate.
  induction fields as [|[sf0 fv0] fields IH]; [discriminate|].
  rewrite findField_cons.
  destruct (tagIs seg sf0) eqn:Htag.
  - intros H. exists sf0, fv0. split; [now left|]. split; [now apply tagIs_eq|exact H].
  - intros H. destruct (IH H) as (sf & fv & Hin & Heq & Hget).
    exists sf, fv. split; [now right|]. auto.
Qed.

(** One step of a path read in a [ConfigRoot]: the path ends, or it continues
    in one of the fields of the record it has reached. *)
Ltac read_step H p :=
  destruct p as [|? p];
  [ cbn in H; first [discriminate H | inversion H; subst; repeat split; reflexivity]
  | apply getNodeValue_field in H;
    let sf := fresh "sf" in
    let fv := fresh "fv" in
    let Hin := fresh "Hin" in
    destruct H as (sf & fv & Hin & <- & H);
    cbn in Hin;
    repeat (destruct Hin as [Hin|Hin]; [inversion Hin; subst; clear Hin|]);
    [..|contradiction] ].

Lemma ConfigRoot_signed_leaf c p k i :
  getNodeValue (ValueOf c) p = Some (OInt k i) ->
  p = ["redis"; "index"] /\ k = Int /\ i = DbIndex (Redis c).
Proof.
  intros H. open_config c.
  all: read_step H p.
  all: try (read_step H p).
  all: try (read_step H p).
  all: try (read_step H p).
  all: try (read_step H p).
  all: try (read_step H p).
Qed.

Lemma ConfigRoot_unsigned_leaf c p k u : getNodeValue (ValueOf c) p <> Some (OUint k u).
Proof.
  intros H. open_config c.
  all: read_step H p.
  all: try (read_step H p).
  all: try (read_step H p).
  all: try (read_step H p).
  all: try (read_step H p).
  all: try (read_step H p).
Qed.

(** C5.  An integer leaf of 64 bits is parsed as a base-10 integer of its
    own width, signed for the signed kinds and unsigned for the unsigned
    ones: a string that is no base-10 numeral, or whose value does not fit
    in the 64 bits, fails with the error of [strconv] and leaves the leaf as
    it was; any other string stores the integer it denotes.  Every integer
    leaf an override can reach in a [ConfigRoot] is such a leaf: it is the
    [int] field [redis.index], and the tree has no unsigned leaf.
    [-redis.index notanumber] fails and [-redis.index 3] sets the field to
    3; the largest and the smallest 64-bit integers are the last ones
    accepted. *)
Theorem C5_integer_leaf_parsed_at_field_width :
  (forall c p k i,
      getNodeValue (ValueOf c) p = Some (OInt k i) ->
      p = ["redis"; "index"] /\ intBits k = 64 /\ i = DbIndex (Redis c)) /\
  (forall c p k u, getNodeValue (ValueOf c) p <> Some (OUint k u)) /\
  (forall k i value, intBits k = 64 ->
      match intOf (intBits k) value with
      | Some n =>
          setNodeValue (Reflected (mkValue writable (OInt k i))) [] value = (OInt k n, Nil)
      | None =>
          exists e,
            setNodeValue (Reflected (mkValue writable (OInt k i))) [] value = (OInt k i, Err e) /\
            TypeCoercionError e
      end) /\
  (forall k u value, uintBits k = 64 ->
      match uintOf (uintBits k) value with
      | Some n =>
          setNodeValue (Reflected (mkValue writable (OUint k u))) [] value = (OUint k n, Nil)
      | None =>
          exists e,
            setNodeValue (Reflected (mkValue writable (OUint k u))) [] value = (OUint k u, Err e) /\
            TypeCoercionError e
      end) /\
  (forall c value, isFlag value = false ->
      match intOf 64 value with
      | Some n => ReadParameters (ValueOf c) ["-redis.index"; value] = (ValueOf (withDbIndex c n), Nil)
      | None =>
          exists e, ReadParameters (ValueOf c) ["-redis.index"; value] = (ValueOf c, Err e) /\
                    TypeCoercionError e
      end) /\
  (forall c,
      ReadParameters (ValueOf c) ["-redis.index"; "notanumber"] =
        (ValueOf c, Err (strconv.syntaxError "ParseInt" "notanumber")) /\
      ReadParameters (ValueOf c) ["-redis.index"; "3"] = (ValueOf (withDbIndex c 3), Nil) /\
      ReadParameters (ValueOf c) ["-redis.index"; "9223372036854775807"] =
        (ValueOf (withDbIndex c 9223372036854775807), Nil) /\
      ReadParameters (ValueOf c) ["-redis.index"; "9223372036854775808"] =
        (ValueOf c, Err (strconv.rangeError "ParseInt" "9223372036854775808"))) /\
  (forall i,
      setNodeValue (Reflected (mkValue writable (OInt Int i))) [] "-9223372036854775808" =
        (OInt Int (-9223372036854775808), Nil) /\
      setNodeValue (Reflected (mkValue writable (OInt Int i))) [] "-9223372036854775809" =
        (OInt Int i, Err (strconv.rangeError "ParseInt" "-9223372036854775809"))).
Proof.
  split; [|split; [|split; [|split; [|split; [|split]]]]].
  - intros c p k i H. apply ConfigRoot_signed_leaf in H.
    destruct H as (-> & -> & ->). repeat split.
  - exact ConfigRoot_unsigned_leaf.
  - intros k i value Hk. rewrite Hk. cbn [setNodeValue].
    pose proof (setLeaf_int k i value) as H.
    destruct (intOf 64 value) as [n|] eqn:Hn; [|exact H].
    rewrite H. rewrite SetInt_64; [reflexivity|exact Hk|].
    exact (intOf_range 64 value n Hn).
  - intros k u value Hk. rewrite Hk. cbn [setNodeValue].
    pose proof (setLeaf_uint k u value) as H.
    destruct (uintOf 64 value) as [n|] eqn:Hn; [|exact H].
    rewrite H. unfold SetUint. rewrite Hk. apply uintOf_range in Hn.
    rewrite Z.mod_small by exact Hn. reflexivity.
  - intros c value Hv.
    destruct (intOf 64 value) as [n|] eqn:Hn.
    + to_leaf c.
      all: match goal with
           | |- context [setLeaf (mkValue writable (OInt ?k ?i)) ?v] =>
               pose proof (setLeaf_int k i v) as H; rewrite Hn in H; rewrite H
           end.
      all: rewrite SetInt_64 by (reflexivity || exact (intOf_range 64 value n Hn)).
      all: reflexivity.
    + assert (G : exists e, setParameter (ValueOf c) "redis.index" value = (ValueOf c, Err e) /\
                            TypeCoercionError e).
      { split_key. open_config c.
        all: cbn -[setLeaf]; fold_writable.
        all: match goal with
             | |- context [setLeaf (mkValue writable (OInt ?k ?i)) ?v] =>
                 pose proof (setLeaf_int k i v) as H; rewrite Hn in H;
                 destruct H as (e & H & He); rewrite H
             end.
        all: exists e; split; [reflexivity|exact He]. }
      destruct G as (e & G & He). exists e. split; [|exact He].
      rewrite ReadParameters_single by (assumption || reflexivity). exact G.
  - intros c. repeat split; open_config c; vm_compute; reflexivity.
  - intros i. split; vm_compute; reflexivity.
Qed.

(** The theorem at the value [-42] for an [int64] leaf, at [42] for
    [redis.index], and at the path [redis.index] of the default tree. *)
Lemma C5_integer_leaf_witness :
  setNodeValue (Reflected (mkValue writable (OInt Int64 7))) [] "-42" = (OInt Int64 (-42), Nil) /\
  ReadParameters (ValueOf defaultContent) ["-redis.index"; "42"] =
    (ValueOf (withDbIndex defaultContent 42), Nil) /\
  intBits Int = 64.
Proof.
  split; [|split].
  - exact (proj1 (proj2 (proj2 C5_integer_leaf_parsed_at_field_width)) Int64 7 "-42" eq_refl).
  - exact (proj1 (proj2 (proj2 (proj2 (proj2 C5_integer_leaf_parsed_at_field_width))))
             defaultContent "42" eq_refl).
  - exact (proj1 (proj2 (proj1 C5_integer_leaf_parsed_at_field_width
                           defaultContent ["redis"; "index"] Int 0 eq_refl))).
Defined.

(** C6.  When an override fails after the tokens before it were processed
    without error, the call returns that error at once, whatever tokens
    follow, and the tree is the one the earlier overrides produced, as the
    failing override left it: every leaf has the value it had after the
    earlier overrides.  For instance an address set before a failing
    [redis.index] stays set, and the overrides after the failing one are not
    applied. *)
Theorem C6_first_error_returned_without_rollback :
  (forall c pre flag value post c1 c2 e,
      ReadParameters c pre = (c1, Nil) ->
      isFlag flag = true -> isFlag value = false ->
      setParameter c1 (strings.TrimLeft flag "-") value = (c2, Err e) ->
      ReadParameters c (pre ++ flag :: value :: post) = (c2, Err e) /\
      (forall p leaf, getNodeValue c1 p = Some leaf -> isLeaf leaf = true ->
                      getNodeValue c2 p = Some leaf)) /\
  (forall c,
      ReadParameters (ValueOf c)
        ["-server.address"; "1.2.3.4:80"; "-redis.index"; "notanumber";
         "-server.cors"; "false"; "-nosuch"; "x"] =
      (ValueOf (withAddress c "1.2.3.4:80"), Err (strconv.syntaxError "ParseInt" "notanumber"))).
Proof.
  split.
  - intros c pre flag value post c1 c2 e Hpre Hflag Hvalue Hset. split.
    + unfold ReadParameters in *. rewrite (readArgs_app _ _ _ _ _ _ Hpre).
      unfold isFlag in *. cbn [readArgs]. rewrite Hflag. cbn [readArgs].
      rewrite Hvalue. cbn [negb]. rewrite Hset. reflexivity.
    + intros p leaf Hget Hleaf.
      eapply setParameter_frame; eauto. left. discriminate.
  - intros c. open_config c; vm_compute; reflexivity.
Qed.

(** The theorem at the default tree: the address is set, then
    [redis.index] fails. *)
Lemma C6_first_error_witness :
  ReadParameters (ValueOf defaultContent)
    (["-server.address"; "1.2.3.4:80"] ++ "-redis.index" :: "notanumber" :: ["-server.cors"; "false"]) =
    (ValueOf (withAddress defaultContent "1.2.3.4:80"),
     Err (strconv.syntaxError "ParseInt" "notanumber")) /\
  getNodeValue (ValueOf (withAddress defaultContent "1.2.3.4:80")) ["server"; "address"] =
    Some (OString "1.2.3.4:80").
Proof.
  destruct (proj1 C6_first_error_returned_without_rollback
              (ValueOf defaultContent) ["-server.address"; "1.2.3.4:80"]
              "-redis.index" "notanumber" ["-server.cors"; "false"]
              (ValueOf (withAddress defaultContent "1.2.3.4:80"))
              (ValueOf (withAddress defaultContent "1.2.3.4:80"))
              (strconv.syntaxError "ParseInt" "notanumber")) as [H1 H2];
    try reflexivity.
  split; [exact H1|].
  apply H2; reflexivity.
Defined.

(** What a successful write leaves in the leaf. *)
Lemma setLeaf_settable ro o value :
  isRO ro = false -> setLeaf (mkValue ro o) value = setLeaf (mkValue writable o) value.
Proof. unfold setLeaf, CanSet. cbn [flagRO obj]. intros ->. reflexivity. Qed.

Lemma SetInt_stored k n :
  - 2 ^ (intBits k - 1) <= SetInt k n < 2 ^ (intBits k - 1) /\
  (SetInt k n - n) mod 2 ^ intBits k = 0.
Proof.
  unfold SetInt. cbv zeta.
  assert (Hk : 0 < intBits k /\ 2 ^ intBits k = 2 * 2 ^ (intBits k - 1)).
  { destruct k; split; reflexivity. }
  destruct Hk as [Hpos Hk].
  set (half := 2 ^ (intBits k - 1)) in *.
  assert (Hhalf : 0 < half) by (apply Z.pow_pos_nonneg; lia).
  rewrite Hk. split.
  - pose proof (Z.mod_pos_bound (n + half) (2 * half)). lia.
  - rewrite (Z.mod_eq (n + half) (2 * half)) by lia.
    replace (n + half - 2 * half * ((n + half) / (2 * half)) - half - n)
      with (- ((n + half) / (2 * half)) * (2 * half)) by ring.
    apply Z.mod_mul. lia.
Qed.

Lemma SetUint_stored k n :
  0 <= SetUint k n < 2 ^ uintBits k /\ (SetUint k n - n) mod 2 ^ uintBits k = 0.
Proof.
  unfold SetUint.
  assert (Hk : 0 < 2 ^ uintBits k) by (destruct k; reflexivity).
  split.
  - apply Z.mod_pos_bound. exact Hk.
  - rewrite (Z.mod_eq n (2 ^ uintBits k)) by lia.
    replace (n - 2 ^ uintBits k * (n / 2 ^ uintBits k) - n)
      with (- (n / 2 ^ uintBits k) * 2 ^ uintBits k) by ring.
    apply Z.mod_mul. lia.
Qed.

Lemma setLeaf_holds v value o : setLeaf v value = (o, Nil) -> holds o value.
Proof.
  intros H. pose proof (setLeaf_written _ _ _ H) as (Hset & _ & _).
  destruct v as [ro x]. unfold CanSet in Hset. cbn [flagRO] in Hset.
  apply negb_true_iff in Hset. rewrite (setLeaf_settable _ _ _ Hset) in H.
  destruct x as [b|k i|k u|f|s|fields|t target].
  - rewrite setLeaf_bool in H.
    destruct (spelled value trueSpellings) eqn:Ht.
    + inversion H; subst. now apply spelled_cases.
    + destruct (spelled value falseSpellings) eqn:Hf; [|discriminate].
      inversion H; subst. now apply spelled_cases.
  - pose proof (setLeaf_int k i value) as G.
    destruct (intOf 64 value) as [n|] eqn:Hn.
    + rewrite G in H. inversion H; subst. exists n. split; [exact Hn|].
      apply SetInt_stored.
    + destruct G as (e & G & _). rewrite G in H. discriminate.
  - pose proof (setLeaf_uint k u value) as G.
    destruct (uintOf 64 value) as [n|] eqn:Hn.
    + rewrite G in H. inversion H; subst. exists n. split; [exact Hn|].
      apply SetUint_stored.
    + destruct G as (e & G & _). rewrite G in H. discriminate.
  - discriminate.
  - inversion H; subst. reflexivity.
  - discriminate.
  - discriminate.
Qed.

(** A leaf of 64 bits holds the very integer the string denotes. *)
Lemma holds_int64 k i value :
  holds (OInt k i) value -> intBits k = 64 -> intOf 64 value = Some i.
Proof.
  intros (n & Hn & Hi & Hmod) Hk. rewrite Hk in *.
  pose proof (intOf_range 64 value n Hn) as Hr.
  apply Z.mod_divide in Hmod; [|lia]. destruct Hmod as [q Hq].
  rewrite Hn. f_equal.
  change (64 - 1) with 63 in *.
  assert (2 ^ 64 = 2 * 2 ^ 63) by reflexivity.
  assert (0 < 2 ^ 63) by reflexivity.
  nia.
Qed.

Lemma holds_uint64 k u value :
  holds (OUint k u) value -> uintBits k = 64 -> uintOf 64 value = Some u.
Proof.
  intros (n & Hn & Hu & Hmod) Hk. rewrite Hk in *.
  pose proof (uintOf_range 64 value n Hn) as Hr.
  apply Z.mod_divide in Hmod; [|lia]. destruct Hmod as [q Hq].
  rewrite Hn. f_equal.
  assert (0 < 2 ^ 64) by reflexivity.
  nia.
Qed.

(** A call that returns [nil] leaves at its path a leaf holding the value. *)
Lemma setNodeValue_written p : forall ro o value o',
  setNodeValue (Reflected (mkValue ro o)) p value = (o', Nil) ->
  exists leaf, getNodeValue o' p = Some leaf /\ isLeaf leaf = true /\ holds leaf value.
Proof.
  induction p as [|seg rest IH]; intros ro o value o' Hset.
  - simpl in Hset. exists o'. split; [reflexivity|]. split.
    + now apply setLeaf_written in Hset.
    + now apply setLeaf_holds in Hset.
  - rewrite setNodeValue_cons in Hset.
    destruct (isRO ro && nilPointer o); [discriminate|].
    destruct (intoStruct _ ro seg (elemOf o)) as [n out'] eqn:Hin.
    inversion Hset; subst; clear Hset.
    unfold intoStruct in Hin.
    destruct (elemOf o) as [b|k i|k u|f|s|fields|t tg]; try discriminate.
    destruct (scanFields _ ro seg fields) as [fields' out''] eqn:Hscan.
    inversion Hin; subst; clear Hin.
    rewrite getNodeValue_putElem.
    apply scanFields_shape in Hscan.
    destruct Hscan as [(_ & E & _)|(pre & sf & fv & fv' & post & E1 & E2 & Hpre & Htag & HD)];
      [discriminate|].
    subst. rewrite findField_app, Hpre, Htag.
    eapply IH; eauto.
Qed.

Lemma setParameter_written c key value c' :
  setParameter c key value = (c', Nil) ->
  exists leaf, getNodeValue c' (strings.Split key ".") = Some leaf /\
               isLeaf leaf = true /\ holds leaf value.
Proof.
  unfold setParameter. intros Hset.
  destruct (strings.Split key ".") as [|seg rest] eqn:E; [now apply Split_nonempty in E|].
  rewrite setNodeValue_Pointer in Hset.
  eapply setNodeValue_written; eauto.
Qed.

(** C7.  The overrides of a well-formed argument list are applied one after
    the other in the order of the arguments.  When the call succeeds, the
    leaf at the path of an override that no later override of the list
    targets holds what that override's value denotes, whatever the earlier
    overrides of the same path were: a string leaf is the value, a boolean
    leaf the boolean the value spells, an integer leaf of 64 bits the
    integer the value denotes.  Applying
    [-server.address 1.2.3.4:80 -server.address 5.6.7.8:90] leaves the
    address [5.6.7.8:90], [-redis.index 5 -redis.index 7] the index 7 and
    [-server.cors true -server.cors 0] the flag false. *)
Theorem C7_applied_in_order_last_write_wins :
  (forall c args, snd (pairUp args) = false ->
      ReadParameters c args = applyOverrides c (fst (pairUp args))) /\
  (forall c args c' pre key value post,
      ReadParameters c args = (c', Nil) ->
      fst (pairUp args) = pre ++ (key, value) :: post ->
      Forall (fun later => strings.Split (fst later) "." <> strings.Split key ".") post ->
      exists leaf, getNodeValue c' (strings.Split key ".") = Some leaf /\
                   isLeaf leaf = true /\ holds leaf value) /\
  (forall k i value, holds (OInt k i) value -> intBits k = 64 -> intOf 64 value = Some i) /\
  (forall k u value, holds (OUint k u) value -> uintBits k = 64 -> uintOf 64 value = Some u) /\
  (forall c,
      ReadParameters (ValueOf c)
        ["-server.address"; "1.2.3.4:80"; "-server.address"; "5.6.7.8:90"] =
      (ValueOf (withAddress c "5.6.7.8:90"), Nil) /\
      ReadParameters (ValueOf c) ["-redis.index"; "5"; "-redis.index"; "7"] =
      (ValueOf (withDbIndex c 7), Nil) /\
      ReadParameters (ValueOf c) ["-server.cors"; "true"; "-server.cors"; "0"] =
      (ValueOf (withCORS c false), Nil) /\
      ReadParameters (ValueOf c)
        ["-redis.index"; "5"; "-server.cors"; "0"; "-redis.index"; "7"; "-server.cors"; "T"] =
      (ValueOf (withCORS (withDbIndex c 7) true), Nil)).
Proof.
  split; [|split; [|split; [|split]]].
  - intros c args Hok. unfold ReadParameters. rewrite readArgs_pairUp, Hok.
    destruct (applyOverrides c (fst (pairUp args))) as [c' []]; reflexivity.
  - intros c args c' pre key value post Hrun Hlist Hlater.
    unfold ReadParameters in Hrun. rewrite readArgs_pairUp in Hrun.
    destruct (applyOverrides c (fst (pairUp args))) as [c0 out] eqn:Happ.
    assert (out = Nil /\ c0 = c') as [-> ->].
    { destruct out; [|discriminate|discriminate].
      destruct (snd (pairUp args)); inversion Hrun; auto. }
    rewrite Hlist in Happ.
    apply applyOverrides_split in Happ. destruct Happ as (c1 & c2 & _ & Hset & Hpost).
    apply setParameter_written in Hset. destruct Hset as (leaf & Hget & Hleaf & Hholds).
    exists leaf. repeat split; auto.
    eapply applyOverrides_frame; eauto.
  - exact holds_int64.
  - exact holds_uint64.
  - intros c. repeat split; open_config c; vm_compute; reflexivity.
Qed.

(** The theorem at the two overrides of the address and at the two of the
    index, on the default tree. *)
Lemma C7_last_write_wins_witness :
  (exists leaf,
      getNodeValue (ValueOf (withAddress defaultContent "5.6.7.8:90"))
                   (strings.Split "server.address" ".") = Some leaf /\
      isLeaf leaf = true /\ holds leaf "5.6.7.8:90") /\
  (exists leaf,
      getNodeValue (ValueOf (withDbIndex defaultContent 7))
                   (strings.Split "redis.index" ".") = Some leaf /\
      isLeaf leaf = true /\ holds leaf "7") /\
  intOf 64 "7" = Some 7.
Proof.
  split; [|split].
  - apply (proj1 (proj2 C7_applied_in_order_last_write_wins)
             (ValueOf defaultContent)
             ["-server.address"; "1.2.3.4:80"; "-server.address"; "5.6.7.8:90"]
             (ValueOf (withAddress defaultContent "5.6.7.8:90"))
             [("server.address", "1.2.3.4:80")] "server.address" "5.6.7.8:90" []).
    + vm_compute. reflexivity.
    + reflexivity.
    + constructor.
  - apply (proj1 (proj2 C7_applied_in_order_last_write_wins)
             (ValueOf defaultContent)
             ["-redis.index"; "5"; "-redis.index"; "7"]
             (ValueOf (withDbIndex defaultContent 7))
             [("redis.index", "5")] "redis.index" "7" []).
    + vm_compute. reflexivity.
    + reflexivity.
    + constructor.
  - apply (proj1 (proj2 (proj2 C7_applied_in_order_last_write_wins)) Int 7 "7").
    + exists 7. split; [reflexivity|]. split; [|reflexivity].
      split; vm_compute; congruence.
    + reflexivity.
Defined.

Lemma setParameter_at_record c key value fields :
  exportedTree c = true ->
  getNodeValue c (strings.Split key ".") = Some (OStruct fields) ->
  setParameter c key value = (c, Err IncompletePathError).
Proof.
  unfold setParameter. intros Hexp Hget.
  destruct (strings.Split key ".") as [|seg rest] eqn:E; [now apply Split_nonempty in E|].
  rewrite setNodeValue_Pointer. eapply setNodeValue_at_record; eauto.
Qed.

(** C8.  When the path is exhausted at a record the call fails with the
    [IncompletePathError] and the tree is left exactly as it was: at the
    node itself, and for every override whose path leads through exported
    fields to a record, as every path of a [ConfigRoot] does.  So it is for
    each record of the configuration: [server], [paths], [redis], [mail],
    [mail.templates] and the three templates. *)
Theorem C8_path_ending_at_record_refused :
  (forall v fields value,
      obj v = OStruct fields -> CanSet v = true ->
      setNodeValue (Reflected v) [] value = (obj v, Err IncompletePathError)) /\
  (forall c key value fields,
      exportedTree c = true ->
      getNodeValue c (strings.Split key ".") = Some (OStruct fields) ->
      setParameter c key value = (c, Err IncompletePathError)) /\
  (forall c, exportedTree (ValueOf c) = true) /\
  (forall c value, isFlag value = false ->
      Forall (fun flag =>
                ReadParameters (ValueOf c) [flag; value] = (ValueOf c, Err IncompletePathError))
             ["-server"; "-paths"; "-redis"; "-mail"; "-mail.templates";
              "-mail.templates.success"; "-mail.templates.timeout"; "-mail.templates.error"]).
Proof.
  split; [|split; [|split]].
  - intros v fields value Hobj Hset. cbn [setNodeValue]. unfold setLeaf.
    unfold IsValid. rewrite Hset, Hobj. reflexivity.
  - intros c key value fields. apply setParameter_at_record.
  - apply exportedTree_ValueOf.
  - intros c value Hv.
    repeat (constructor;
            [rewrite ReadParameters_single by (assumption || reflexivity);
             eapply setParameter_at_record;
             [apply exportedTree_ValueOf|open_config c; reflexivity]|]).
    constructor.
Qed.

(** The theorem at the [mail.templates] record of the default tree. *)
Lemma C8_path_ending_at_record_witness :
  setParameter (ValueOf defaultContent) "mail.templates" "x" =
    (ValueOf defaultContent, Err IncompletePathError) /\
  setNodeValue (Reflected (mkValue writable (ValueOfMail (Mail defaultContent)))) [] "x" =
    (ValueOfMail (Mail defaultContent), Err IncompletePathError).
Proof.
  split.
  - apply (proj1 (proj2 C8_path_ending_at_record_refused) (ValueOf defaultContent)
             "mail.templates" "x"
             [(Fields.OnSuccess, ValueOfMailTemplate (OnSuccess (Templates (Mail defaultContent))));
              (Fields.OnTimeout, ValueOfMailTemplate (OnTimeout (Templates (Mail defaultContent))));
              (Fields.OnError, ValueOfMailTemplate (OnError (Templates (Mail defaultContent))))]);
      reflexivity.
  - eapply (proj1 C8_path_ending_at_record_refused
              (mkValue writable (ValueOfMail (Mail defaultContent)))); reflexivity.
Defined.

Section LoaderProperties.

Variable Reader : Type.
Variable DecodeJsonAndValidate : Reader -> ConfigRoot -> ConfigRoot * option error.

(** C9, as the code has it.  After a successful decoding, each of the
    fields databases, results and mmseqs whose value starts with [~] is
    replaced by the join of the anchor directory and the value without all
    its leading [~] characters; a value that does not start with [~], and
    every other field of the tree, is left unchanged.  With the anchor
    [/opt/app], [~databases] becomes [/opt/app/databases]. *)
Theorem C9_marked_paths_joined_onto_anchor :
  (forall r relativeTo config,
      DecodeJsonAndValidate r zeroConfig = (config, None) ->
      ReadConfig Reader DecodeJsonAndValidate r relativeTo =
      (withPaths config
         (mkConfigPaths (resolvePath relativeTo (Databases (Paths config)))
                        (resolvePath relativeTo (Results (Paths config)))
                        (Temporary (Paths config))
                        (resolvePath relativeTo (Mmseqs (Paths config)))),
       None)) /\
  (forall relativeTo path,
      (strings.HasPrefix path "~" = false -> resolvePath relativeTo path = path) /\
      (strings.HasPrefix path "~" = true ->
       resolvePath relativeTo path = filepath.Join [relativeTo; strings.TrimLeft path "~"] /\
       strings.HasPrefix (strings.TrimLeft path "~") "~" = false)) /\
  resolvePath "/opt/app" "~databases" = "/opt/app/databases" /\
  resolvePath "/opt/app" "/var/lib/databases" = "/var/lib/databases".
Proof.
  split; [|split; [|split]].
  - intros r relativeTo config Hdecode. unfold ReadConfig. rewrite Hdecode.
    destruct config as [srv [db res tmp mm] redis mail verbose].
    unfold resolvePath, anchorPath, withPaths, strings.HasPrefix. cbn.
    destruct (String.prefix "~" db); cbn; destruct (String.prefix "~" res); cbn;
      destruct (String.prefix "~" mm); reflexivity.
  - intros relativeTo path. unfold resolvePath. split; intros H; rewrite H; [reflexivity|].
    split; [reflexivity|].
    clear H. induction path as [|c path IH]; [reflexivity|].
    cbn [strings.TrimLeft strings.containsByte].
    destruct (Ascii.eqb c "~") eqn:E; cbn [orb]; [exact IH|].
    unfold strings.HasPrefix. cbn [String.prefix].
    destruct (ascii_dec "~" c) as [Heq|Hne]; [|reflexivity].
    subst c. discriminate.
  - reflexivity.
  - reflexivity.
Qed.

End LoaderProperties.

(** The theorem for a decoder that yields the default tree. *)
Lemma C9_marked_paths_witness :
  ReadConfig unit (fun _ _ => (defaultContent, None)) tt "/opt/app" =
  (withPaths defaultContent (mkConfigPaths "/opt/app/databases" "/opt/app/jobs" "" "/opt/app/mmseqs"),
   None).
Proof.
  apply (proj1 (C9_marked_paths_joined_onto_anchor unit (fun _ _ => (defaultContent, None)))
           tt "/opt/app" defaultContent).
  reflexivity.
Defined.

(** C9 as stated fails: for the value [~~databases] stripping the marker
    character leaves [~databases] to be joined, yet the loader resolves the
    field to [/opt/app/databases]. *)
Lemma C9_repeated_marker_all_stripped :
  let config := withPaths defaultContent (mkConfigPaths "~~databases" "~jobs" "" "~mmseqs") in
  Databases (Paths (fst (ReadConfig unit (fun _ _ => (config, None)) tt "/opt/app"))) =
    "/opt/app/databases" /\
  resolveByMarker "/opt/app" "~~databases" = "/opt/app/~databases".
Proof. split; vm_compute; reflexivity. Qed.

(** C10.  A failing override can change the tree: on a tree without auth
    record, [-server.auth.nosuchfield x] fails with the path error and leaves
    a zero-valued auth record allocated, so the tree is not the one the call
    was given. *)
Theorem C10_failing_override_leaves_allocation :
  forall c, Auth (Server c) = None ->
    ReadParameters (ValueOf c) ["-server.auth.nosuchfield"; "x"] =
      (ValueOf (withAuth c (Some (mkConfigAuth "" ""))), Err PathNotFoundError) /\
    ValueOf (withAuth c (Some (mkConfigAuth "" ""))) <> ValueOf c.
Proof.
  intros c Hnil. split.
  - open_config c; try discriminate Hnil. vm_compute. reflexivity.
  - open_config c; try discriminate Hnil. vm_compute. intros H. discriminate H.
Qed.

(** The theorem at the default tree. *)
Lemma C10_failing_override_witness :
  ReadParameters (ValueOf defaultContent) ["-server.auth.nosuchfield"; "x"] =
    (ValueOf (withAuth defaultContent (Some (mkConfigAuth "" ""))), Err PathNotFoundError) /\
  ValueOf (withAuth defaultContent (Some (mkConfigAuth "" ""))) <> ValueOf defaultContent.
Proof.
  apply (C10_failing_override_leaves_allocation defaultContent). reflexivity.
Defined.

(** * Further properties of the engine *)

(** ** The field loop as a lookup and an update *)

Lemma scanFields_lens D ro seg fields :
  scanFields D ro seg fields =
  match findEntry seg fields with
  | None => (fields, Err PathNotFoundError)
  | Some (sf, fv) =>
      let '(fv', out) := D (mkValue (fieldFlag ro sf) fv) in
      (updateField seg fields fv', out)
  end.
Proof.
  induction fields as [|[sf fv] rest IH]; [reflexivity|].
  rewrite scanFields_cons. cbn [findEntry updateField].
  destruct (tagIs seg sf) eqn:Htag.
  - destruct (D _) as [fv' out]. reflexivity.
  - rewrite IH. destruct (findEntry seg rest) as [[sf1 fv1]|]; [|reflexivity].
    destruct (D _) as [fv' out]. reflexivity.
Qed.

Lemma findEntry_update_same seg fields sf fv x :
  findEntry seg fields = Some (sf, fv) ->
  findEntry seg (updateField seg fields x) = Some (sf, x).
Proof.
  induction fields as [|[sf0 fv0] rest IH]; cbn [findEntry updateField]; [discriminate|].
  destruct (tagIs seg sf0) eqn:Htag; cbn [findEntry]; rewrite Htag.
  - intros H; inversion H; reflexivity.
  - exact IH.
Qed.

Lemma findEntry_update_other seg seg' fields x :
  seg <> seg' -> findEntry seg' (updateField seg fields x) = findEntry seg' fields.
Proof.
  intros Hne. induction fields as [|[sf0 fv0] rest IH]; cbn [findEntry updateField]; [reflexivity|].
  destruct (tagIs seg sf0) eqn:Htag; cbn [findEntry].
  - rewrite (tagIs_other _ seg' _ Htag) by congruence. reflexivity.
  - rewrite IH. reflexivity.
Qed.

Lemma updateField_twice seg fields x y :
  updateField seg (updateField seg fields x) y = updateField seg fields y.
Proof.
  induction fields as [|[sf0 fv0] rest IH]; cbn [updateField]; [reflexivity|].
  destruct (tagIs seg sf0) eqn:Htag; cbn [updateField]; rewrite Htag; [reflexivity|].
  now rewrite IH.
Qed.

Lemma updateField_comm seg seg' fields x y :
  seg <> seg' ->
  updateField seg (updateField seg' fields y) x = updateField seg' (updateField seg fields x) y.
Proof.
  intros Hne. induction fields as [|[sf0 fv0] rest IH]; cbn [updateField]; [reflexivity|].
  destruct (tagIs seg sf0) eqn:Htag; destruct (tagIs seg' sf0) eqn:Htag'; cbn [updateField];
    rewrite ?Htag, ?Htag'; try reflexivity.
  - apply tagIs_eq in Htag, Htag'. congruence.
  - now rewrite IH.
Qed.

Lemma updateField_same seg fields sf fv :
  findEntry seg fields = Some (sf, fv) -> updateField seg fields fv = fields.
Proof.
  induction fields as [|[sf0 fv0] rest IH]; cbn [findEntry updateField]; [discriminate|].
  destruct (tagIs seg sf0).
  - intros H; inversion H; reflexivity.
  - intros H. now rewrite IH.
Qed.

Lemma findEntry_findField seg fields :
  findField seg fields = option_map snd (findEntry seg fields).
Proof.
  induction fields as [|[sf0 fv0] rest IH]; cbn [findField findEntry]; [reflexivity|].
  destruct (tagIs seg sf0); [reflexivity|exact IH].
Qed.

(** One step of the descent. *)
Lemma setNodeValue_lens ro o seg rest value :
  setNodeValue (Reflected (mkValue ro o)) (seg :: rest) value =
  if isRO ro && nilPointer o
  then (o, Panic "reflect: reflect.Value.Set using value obtained using unexported field")
  else
    match elemOf o with
    | OStruct fields =>
        match findEntry seg fields with
        | None => (putElem o (OStruct fields), Err PathNotFoundError)
        | Some (sf, fv) =>
            let '(fv', out) :=
              setNodeValue (Reflected (mkValue (fieldFlag ro sf) fv)) rest value in
            (putElem o (OStruct (updateField seg fields fv')), out)
        end
    | e => (putElem o e, Err (errors.New "Node is not a struct"))
    end.
Proof.
  rewrite setNodeValue_cons. destruct (isRO ro && nilPointer o); [reflexivity|].
  destruct (elemOf o) as [b|k i|k u|f|s|fields|t tg]; try reflexivity.
  cbn [intoStruct]. rewrite scanFields_lens.
  destruct (findEntry seg fields) as [[sf fv]|]; [|reflexivity].
  destruct (setNodeValue _ rest value); reflexivity.
Qed.

Lemma elemOf_putElem_struct o fields : elemOf (putElem o (OStruct fields)) = OStruct fields.
Proof. destruct o as [b|k i|k u|f|s|fields0|t [m|]]; reflexivity. Qed.

Lemma nilPointer_putElem_struct o fields : nilPointer (putElem o (OStruct fields)) = false.
Proof. destruct o as [b|k i|k u|f|s|fields0|t [m|]]; reflexivity. Qed.

Lemma putElem_putElem_struct o fields n : putElem (putElem o (OStruct fields)) n = putElem o n.
Proof. destruct o as [b|k i|k u|f|s|fields0|t [m|]]; reflexivity. Qed.

(** ** Overrides of the same path and of different paths *)

Lemma setLeaf_overwrite ro o a b o1 :
  setLeaf (mkValue ro o) a = (o1, Nil) ->
  setLeaf (mkValue ro o1) b =
  match setLeaf (mkValue ro o) b with
  | (o2, Nil) => (o2, Nil)
  | (_, out) => (o1, out)
  end.
Proof.
  unfold setLeaf, IsValid, CanSet. cbn [flagRO obj negb orb].
  destruct (isRO ro); cbn [negb]; [discriminate|].
  destruct o as [x|k i|k u|f|s|fields|t tg]; try discriminate.
  - destruct (strconv.ParseBool a) as [x1 [e|]]; [discriminate|].
    intros H; inversion H; subst.
    destruct (strconv.ParseBool b) as [x2 [e|]]; reflexivity.
  - destruct (strconv.ParseInt a 10 64) as [x1 [e|]]; [discriminate|].
    intros H; inversion H; subst.
    destruct (strconv.ParseInt b 10 64) as [x2 [e|]]; reflexivity.
  - destruct (strconv.ParseUint a 10 64) as [x1 [e|]]; [discriminate|].
    intros H; inversion H; subst.
    destruct (strconv.ParseUint b 10 64) as [x2 [e|]]; reflexivity.
  - intros H; inversion H; subst. reflexivity.
Qed.

(** What a successful step of the descent consists of. *)
Lemma setNodeValue_step_inv ro o seg rest value o1 :
  setNodeValue (Reflected (mkValue ro o)) (seg :: rest) value = (o1, Nil) ->
  exists fields sf fv fv1,
    isRO ro && nilPointer o = false /\ elemOf o = OStruct fields /\
    findEntry seg fields = Some (sf, fv) /\
    setNodeValue (Reflected (mkValue (fieldFlag ro sf) fv)) rest value = (fv1, Nil) /\
    o1 = putElem o (OStruct (updateField seg fields fv1)).
Proof.
  rewrite setNodeValue_lens. intros H.
  destruct (isRO ro && nilPointer o) eqn:Hnil; [discriminate|].
  destruct (elemOf o) as [b|k i|k u|f|s|fields|t tg] eqn:Helem; try discriminate.
  destruct (findEntry seg fields) as [[sf fv]|] eqn:Hfind; [|discriminate].
  destruct (setNodeValue _ rest value) as [fv1 out] eqn:Hchild.
  inversion H; subst. exists fields, sf, fv, fv1. repeat split; auto.
Qed.

(** After a successful step, the same step on the result. *)
Lemma setNodeValue_lens_after ro o seg fields sf fv fv1 rest value :
  elemOf o = OStruct fields -> findEntry seg fields = Some (sf, fv) ->
  setNodeValue (Reflected (mkValue ro (putElem o (OStruct (updateField seg fields fv1)))))
               (seg :: rest) value =
  let '(fv', out) :=
    setNodeValue (Reflected (mkValue (fieldFlag ro sf) fv1)) rest value in
  (putElem o (OStruct (updateField seg fields fv')), out).
Proof.
  intros Helem Hfind. rewrite setNodeValue_lens.
  rewrite nilPointer_putElem_struct, andb_false_r, elemOf_putElem_struct.
  rewrite (findEntry_update_same _ _ _ _ _ Hfind).
  destruct (setNodeValue _ rest value) as [fv' out].
  rewrite putElem_putElem_struct, updateField_twice. reflexivity.
Qed.

Lemma setNodeValue_overwrite p : forall ro o a b o1,
  setNodeValue (Reflected (mkValue ro o)) p a = (o1, Nil) ->
  setNodeValue (Reflected (mkValue ro o1)) p b =
  match setNodeValue (Reflected (mkValue ro o)) p b with
  | (o2, Nil) => (o2, Nil)
  | (_, out) => (o1, out)
  end.
Proof.
  induction p as [|seg rest IH]; intros ro o a b o1 Hset.
  - cbn [setNodeValue] in *. exact (setLeaf_overwrite ro o a b o1 Hset).
  - apply setNodeValue_step_inv in Hset.
    destruct Hset as (fields & sf & fv & fv1 & Hnil & Helem & Hfind & Hchild & ->).
    rewrite (setNodeValue_lens_after _ _ _ _ _ _ _ _ _ Helem Hfind).
    rewrite (setNodeValue_lens ro o), Hnil, Helem, Hfind.
    rewrite (IH _ _ _ b _ Hchild).
    destruct (setNodeValue (Reflected (mkValue (fieldFlag ro sf) fv)) rest b)
      as [fv2 [|e|m]]; reflexivity.
Qed.

Lemma setNodeValue_below_leaf ro o seg rest value :
  isLeaf o = true ->
  setNodeValue (Reflected (mkValue ro o)) (seg :: rest) value =
  (o, Err (errors.New "Node is not a struct")).
Proof.
  intros Hleaf. rewrite setNodeValue_lens.
  destruct o as [b|k i|k u|f|s|fields|t tg]; try discriminate;
    cbn [nilPointer elemOf putElem]; rewrite andb_false_r; reflexivity.
Qed.

Lemma setNodeValue_commute p : forall q ro o a b o1 o12,
  p <> q ->
  setNodeValue (Reflected (mkValue ro o)) p a = (o1, Nil) ->
  setNodeValue (Reflected (mkValue ro o1)) q b = (o12, Nil) ->
  exists o2, setNodeValue (Reflected (mkValue ro o)) q b = (o2, Nil) /\
             setNodeValue (Reflected (mkValue ro o2)) p a = (o12, Nil).
Proof.
  induction p as [|s p' IH]; intros q ro o a b o1 o12 Hne H1 H2.
  - cbn [setNodeValue] in H1. apply setLeaf_written in H1.
    destruct H1 as (_ & _ & Hleaf).
    destruct q as [|t q']; [congruence|].
    rewrite setNodeValue_below_leaf in H2 by exact Hleaf. discriminate.
  - apply setNodeValue_step_inv in H1.
    destruct H1 as (fields & sf & fv & fv1 & Hnil & Helem & Hfind & Hchild & ->).
    destruct q as [|t q'].
    + cbn [setNodeValue] in H2. apply setLeaf_written in H2.
      destruct H2 as (_ & Hleaf & _). cbn [obj] in Hleaf.
      destruct o as [x|k i|k u|f|x|fields0|t0 tg]; discriminate.
    + destruct (String.eqb s t) eqn:Est.
      * apply String.eqb_eq in Est. subst t.
        rewrite (setNodeValue_lens_after _ _ _ _ _ _ _ _ _ Helem Hfind) in H2.
        destruct (setNodeValue (Reflected (mkValue (fieldFlag ro sf) fv1)) q' b)
          as [fv12 out] eqn:Hchild2.
        inversion H2; subst out o12; clear H2.
        destruct (IH q' _ fv a b fv1 fv12 ltac:(congruence) Hchild Hchild2) as (fv2 & Hq & Hp).
        exists (putElem o (OStruct (updateField s fields fv2))). split.
        -- rewrite setNodeValue_lens, Hnil, Helem, Hfind, Hq. reflexivity.
        -- rewrite (setNodeValue_lens_after _ _ _ _ _ _ _ _ _ Helem Hfind), Hp. reflexivity.
      * apply String.eqb_neq in Est.
        rewrite setNodeValue_lens in H2.
        rewrite nilPointer_putElem_struct, andb_false_r, elemOf_putElem_struct in H2.
        rewrite (findEntry_update_other s t) in H2 by exact Est.
        destruct (findEntry t fields) as [[sf' gv]|] eqn:Hfind'; [|discriminate].
        destruct (setNodeValue (Reflected (mkValue (fieldFlag ro sf') gv)) q' b)
          as [gv2 out] eqn:Hchild2.
        inversion H2; subst out o12; clear H2.
        exists (putElem o (OStruct (updateField t fields gv2))). split.
        -- rewrite setNodeValue_lens, Hnil, Helem, Hfind', Hchild2. reflexivity.
        -- rewrite setNodeValue_lens.
           rewrite nilPointer_putElem_struct, andb_false_r, elemOf_putElem_struct.
           rewrite (findEntry_update_other t s) by congruence.
           rewrite Hfind, Hchild, !putElem_putElem_struct.
           rewrite (updateField_comm s t) by exact Est. reflexivity.
Qed.

(** ** Types are kept *)

Lemma typeOf_Zero t : typeOf (Zero t) = t.
Proof.
  induction t as [| | | | |fields IH|elem IH] using rtype_induction; try reflexivity.
  cbn [Zero typeOf]. f_equal. rewrite List.map_map.
  induction IH as [|[sf ft] rest Hft _ IHrest]; [reflexivity|].
  cbn [List.map fst snd] in *. rewrite Hft, IHrest. reflexivity.
Qed.

Lemma WellTyped_Zero t : WellTyped (Zero t).
Proof.
  induction t as [| | | | |fields IH|elem IH] using rtype_induction; try exact I.
  cbn [Zero WellTyped].
  induction IH as [|[sf ft] rest Hft _ IHrest]; [exact I|].
  cbn [List.map List.fold_right fst snd] in *. split; assumption.
Qed.

Lemma elemOf_typed o :
  WellTyped o ->
  typeOf (elemOf o) = elemType (typeOf o) /\
  WellTyped (elemOf o).
Proof.
  destruct o as [b|k i|k u|f|s|fields|t [n|]]; cbn [elemOf typeOf WellTyped elemType]; auto.
  intros _. split; [apply typeOf_Zero|apply WellTyped_Zero].
Qed.

Lemma putElem_typed o x :
  WellTyped o -> typeOf x = typeOf (elemOf o) -> WellTyped x ->
  typeOf (putElem o x) = typeOf o /\ WellTyped (putElem o x).
Proof.
  intros Ho Hx Hwx. destruct (elemOf_typed o Ho) as [He _]. rewrite He in Hx.
  destruct o as [b|k i|k u|f|s|fields|t tg]; cbn [putElem typeOf WellTyped elemType] in *; auto.
Qed.

Lemma WellTyped_entry seg fields sf fv :
  WellTyped (OStruct fields) -> findEntry seg fields = Some (sf, fv) -> WellTyped fv.
Proof.
  induction fields as [|[sf0 fv0] rest IH]; cbn [WellTyped findEntry List.fold_right snd];
    [discriminate|].
  intros [H0 Hrest]. destruct (tagIs seg sf0).
  - intros H; inversion H; subst; exact H0.
  - apply IH. exact Hrest.
Qed.

Lemma updateField_typed seg fields sf fv fv' :
  findEntry seg fields = Some (sf, fv) ->
  typeOf fv' = typeOf fv -> WellTyped fv' -> WellTyped (OStruct fields) ->
  typeOf (OStruct (updateField seg fields fv')) = typeOf (OStruct fields) /\
  WellTyped (OStruct (updateField seg fields fv')).
Proof.
  intros Hfind Htype Hwt.
  induction fields as [|[sf0 fv0] rest IH];
    cbn [WellTyped findEntry updateField List.fold_right List.map typeOf fst snd] in *;
    [discriminate|].
  intros [H0 Hrest]. destruct (tagIs seg sf0).
  - inversion Hfind; subst.
    cbn [WellTyped List.fold_right List.map typeOf fst snd]. rewrite Htype. auto.
  - destruct (IH Hfind Hrest) as [IH1 IH2].
    cbn [WellTyped List.fold_right List.map typeOf fst snd]. split; [|auto].
    inversion IH1 as [Hmap]. rewrite Hmap. reflexivity.
Qed.

Lemma setLeaf_typed v value o out :
  setLeaf v value = (o, out) -> WellTyped (obj v) ->
  typeOf o = typeOf (obj v) /\ WellTyped o.
Proof.
  unfold setLeaf. intros H Hwt.
  destruct (negb (IsValid v) || negb (CanSet v)); [inversion H; subst; auto|].
  destruct (obj v) as [b|k i|k u|f|s|fields|t tg]; try (inversion H; subst; auto; fail).
  - destruct (strconv.ParseBool value) as [b' [e|]]; inversion H; subst; cbn; auto.
  - destruct (strconv.ParseInt value 10 64) as [n [e|]]; inversion H; subst; cbn; auto.
  - destruct (strconv.ParseUint value 10 64) as [n [e|]]; inversion H; subst; cbn; auto.
Qed.

(** A call leaves every node with the type it had. *)
Lemma setNodeValue_typed p : forall ro o value o' out,
  setNodeValue (Reflected (mkValue ro o)) p value = (o', out) -> WellTyped o ->
  typeOf o' = typeOf o /\ WellTyped o'.
Proof.
  induction p as [|seg rest IH]; intros ro o value o' out Hset Hwt.
  - cbn [setNodeValue] in Hset. apply setLeaf_typed in Hset; auto.
  - rewrite setNodeValue_lens in Hset.
    destruct (isRO ro && nilPointer o); [inversion Hset; subst; auto|].
    destruct (elemOf_typed o Hwt) as [Helem Hwe].
    destruct (elemOf o) as [b|k i|k u|f|s|fields|t tg] eqn:He;
      try (inversion Hset; subst; apply putElem_typed; rewrite ?He; auto; fail).
    destruct (findEntry seg fields) as [[sf fv]|] eqn:Hfind;
      [|inversion Hset; subst; apply putElem_typed; rewrite ?He; auto].
    destruct (setNodeValue _ rest value) as [fv' out'] eqn:Hchild.
    inversion Hset; subst; clear Hset.
    apply IH in Hchild; [|eapply WellTyped_entry; eauto].
    destruct Hchild as [Ht Hw].
    destruct (updateField_typed _ _ _ _ _ Hfind Ht Hw Hwe) as [Hu1 Hu2].
    apply putElem_typed; rewrite ?He; auto.
Qed.

(** ** The outcome is decided by the type *)

Lemma findType_typeOf seg fields :
  findType seg (List.map (fun f => (fst f, typeOf (snd f))) fields) =
  option_map (fun e => typeOf (snd e)) (findEntry seg fields).
Proof.
  induction fields as [|[sf fv] rest IH]; [reflexivity|].
  cbn [List.map findType findEntry fst snd]. destruct (tagIs seg sf); [reflexivity|exact IH].
Qed.

Lemma exportedType_entry seg fields sf fv :
  exportedType (typeOf (OStruct fields)) = true -> findEntry seg fields = Some (sf, fv) ->
  IsExported sf = true /\ exportedType (typeOf fv) = true.
Proof.
  induction fields as [|[sf0 fv0] rest IH];
    cbn [typeOf exportedType List.map List.forallb findEntry fst snd]; [discriminate|].
  intros H. apply andb_true_iff in H. destruct H as [H0 Hrest].
  destruct (tagIs seg sf0).
  - intros E; inversion E; subst. now apply andb_true_iff in H0.
  - apply IH. exact Hrest.
Qed.

Lemma setLeaf_checkLeaf o value :
  snd (setLeaf (mkValue writable o) value) = checkLeaf (typeOf o) value.
Proof.
  unfold setLeaf, checkLeaf. cbn [IsValid CanSet flagRO obj negb orb isRO writable flagStickyRO flagEmbedRO].
  destruct o as [b|k i|k u|f|s|fields|t tg]; cbn [typeOf]; try reflexivity.
  - destruct (strconv.ParseBool value) as [b' [e|]]; reflexivity.
  - destruct (strconv.ParseInt value 10 64) as [n [e|]]; reflexivity.
  - destruct (strconv.ParseUint value 10 64) as [n [e|]]; reflexivity.
Qed.

Lemma setNodeValue_checkPath p : forall o value,
  WellTyped o -> exportedType (typeOf o) = true ->
  snd (setNodeValue (Reflected (mkValue writable o)) p value) = checkPath (typeOf o) p value.
Proof.
  induction p as [|seg rest IH]; intros o value Hwt Hexp.
  - apply setLeaf_checkLeaf.
  - rewrite setNodeValue_lens. simpl_ro. cbn [checkPath].
    destruct (elemOf_typed o Hwt) as [Helem Hwe]. rewrite <- Helem.
    assert (Hexp' : exportedType (typeOf (elemOf o)) = true).
    { rewrite Helem. destruct (typeOf o); auto. }
    destruct (elemOf o) as [b|k i|k u|f|s|fields|t tg]; try reflexivity.
    cbn [typeOf]. rewrite findType_typeOf.
    destruct (findEntry seg fields) as [[sf fv]|] eqn:Hfind; [|reflexivity].
    cbn [option_map snd].
    destruct (exportedType_entry _ _ _ _ Hexp' Hfind) as [Hsf Hfv].
    rewrite (fieldFlag_exported _ Hsf).
    rewrite <- (IH fv value (WellTyped_entry _ _ _ _ Hwe Hfind) Hfv).
    destruct (setNodeValue _ rest value); reflexivity.
Qed.

(** ** Trees of type [ConfigRoot] *)

Lemma typeOf_ValueOf c : typeOf (ValueOf c) = TypeOf.ConfigRoot.
Proof. open_config c; reflexivity. Qed.

Lemma WellTyped_ValueOf c : WellTyped (ValueOf c).
Proof. open_config c; cbn; repeat split. Qed.

Lemma typed_string o : typeOf o = TString -> exists s, o = OString s.
Proof. destruct o; try discriminate. eauto. Qed.

Lemma typed_bool o : typeOf o = TBool -> exists b, o = OBool b.
Proof. destruct o; try discriminate. eauto. Qed.

Lemma typed_int o k : typeOf o = TInt k -> exists i, o = OInt k i.
Proof. destruct o; try discriminate. intros H; inversion H; subst. eauto. Qed.

Lemma typed_struct o fts :
  typeOf o = TStruct fts ->
  exists fields, o = OStruct fields /\ List.map (fun f : StructField * object => (fst f, typeOf (snd f))) fields = fts.
Proof. destruct o; try discriminate. cbn. intros H; inversion H; subst. eauto. Qed.

Lemma typed_fields_cons fields sf t rest :
  List.map (fun f : StructField * object => (fst f, typeOf (snd f))) fields = (sf, t) :: rest ->
  exists fv fields', fields = (sf, fv) :: fields' /\ typeOf fv = t /\
                     List.map (fun f : StructField * object => (fst f, typeOf (snd f))) fields' = rest.
Proof.
  destruct fields as [|[sf0 fv0] fields']; [discriminate|]. cbn.
  intros H; inversion H; subst. eauto.
Qed.

Lemma typed_fields_nil fields :
  List.map (fun f : StructField * object => (fst f, typeOf (snd f))) fields = [] -> fields = [].
Proof. destruct fields; [reflexivity|discriminate]. Qed.

Ltac typed_fields :=
  repeat match goal with
    | H : List.map _ ?fields = _ :: _ |- _ =>
        let fv := fresh "fv" in let rest := fresh "rest" in let Ht := fresh "Ht" in
        apply typed_fields_cons in H; destruct H as (fv & rest & -> & Ht & H)
    | H : List.map _ ?fields = [] |- _ => apply typed_fields_nil in H; subst fields
    end.

Ltac typed_scalars :=
  repeat match goal with
    | H : typeOf ?o = TString |- _ => apply typed_string in H; destruct H as (? & ->)
    | H : typeOf ?o = TBool |- _ => apply typed_bool in H; destruct H as (? & ->)
    | H : typeOf ?o = TInt _ |- _ => apply typed_int in H; destruct H as (? & ->)
    end.

Ltac typed_record H :=
  let fields := fresh "fields" in
  apply typed_struct in H; destruct H as (fields & -> & H); typed_fields; typed_scalars.

Lemma typed_ConfigPaths o : typeOf o = TypeOf.ConfigPaths -> exists p, o = ValueOfPaths p.
Proof.
  intros H. typed_record H.
  eexists (mkConfigPaths _ _ _ _). reflexivity.
Qed.

Lemma typed_ConfigRedis o : typeOf o = TypeOf.ConfigRedis -> exists r, o = ValueOfRedis r.
Proof.
  intros H. typed_record H.
  eexists (mkConfigRedis _ _ _ _). reflexivity.
Qed.

Lemma typed_ConfigMailTemplate o :
  typeOf o = TypeOf.ConfigMailTemplate -> exists t, o = ValueOfMailTemplate t.
Proof.
  intros H. typed_record H.
  eexists (mkConfigMailTemplate _ _). reflexivity.
Qed.

Lemma typed_ConfigMailTemplates o :
  typeOf o = TypeOf.ConfigMailTemplates -> exists t, o = ValueOfMailTemplates t.
Proof.
  intros H. typed_record H.
  repeat match goal with
    | Ht : typeOf _ = TypeOf.ConfigMailTemplate |- _ =>
        apply typed_ConfigMailTemplate in Ht; destruct Ht as (? & ->)
    end.
  eexists (mkConfigMailTemplates _ _ _). reflexivity.
Qed.

Lemma typed_ConfigMail o : typeOf o = TypeOf.ConfigMail -> exists m, o = ValueOfMail m.
Proof.
  intros H. typed_record H.
  match goal with
  | Ht : typeOf _ = TypeOf.ConfigMailTemplates |- _ =>
      apply typed_ConfigMailTemplates in Ht; destruct Ht as (? & ->)
  end.
  eexists (mkConfigMail _ _ _). reflexivity.
Qed.

Lemma typed_ConfigAuth o : typeOf o = TypeOf.ConfigAuth -> exists a, o = ValueOfAuth a.
Proof.
  intros H. typed_record H.
  eexists (mkConfigAuth _ _). reflexivity.
Qed.

Lemma typed_ConfigServer o :
  typeOf o = TypeOf.ConfigServer -> WellTyped o -> exists s, o = ValueOfServer s.
Proof.
  intros H Hwt. typed_record H.
  match goal with
  | Ht : typeOf ?p = TPtr _ |- _ => destruct p as [| | | | | |elem tg]; try discriminate Ht;
                                    inversion Ht; subst elem; clear Ht
  end.
  destruct tg as [n|].
  - cbn in Hwt. destruct Hwt as (_ & _ & _ & _ & (Hn & _) & _).
    apply typed_ConfigAuth in Hn. destruct Hn as (a & ->).
    eexists (mkConfigServer _ _ _ _ (Some a)). reflexivity.
  - eexists (mkConfigServer _ _ _ _ None). reflexivity.
Qed.

Lemma typed_ConfigRoot o :
  typeOf o = TypeOf.ConfigRoot -> WellTyped o -> exists c, o = ValueOf c.
Proof.
  intros H Hwt. typed_record H.
  cbn [WellTyped List.fold_right snd] in Hwt. destruct Hwt as (Hs & _).
  repeat match goal with
    | Ht : typeOf _ = TypeOf.ConfigServer |- _ =>
        apply typed_ConfigServer in Ht; [destruct Ht as (? & ->)|exact Hs]
    | Ht : typeOf _ = TypeOf.ConfigPaths |- _ =>
        apply typed_ConfigPaths in Ht; destruct Ht as (? & ->)
    | Ht : typeOf _ = TypeOf.ConfigRedis |- _ =>
        apply typed_ConfigRedis in Ht; destruct Ht as (? & ->)
    | Ht : typeOf _ = TypeOf.ConfigMail |- _ =>
        apply typed_ConfigMail in Ht; destruct Ht as (? & ->)
    end.
  eexists (mkConfigRoot _ _ _ _ _). reflexivity.
Qed.

Lemma toConfigRoot_ValueOf c : toConfigRoot (ValueOf c) = Some c.
Proof. open_config c; reflexivity. Qed.

(** ** Failing overrides on trees without nil pointers *)

Lemma noNilPointer_entry seg fields sf fv :
  noNilPointer (OStruct fields) = true -> findEntry seg fields = Some (sf, fv) ->
  noNilPointer fv = true.
Proof.
  induction fields as [|[sf0 fv0] rest IH]; cbn [noNilPointer List.forallb findEntry snd];
    [discriminate|].
  intros H. apply andb_true_iff in H. destruct H as [H0 Hrest].
  destruct (tagIs seg sf0).
  - intros E; inversion E; subst; exact H0.
  - apply IH. exact Hrest.
Qed.

Lemma noNilPointer_update seg fields x :
  noNilPointer (OStruct fields) = true -> noNilPointer x = true ->
  noNilPointer (OStruct (updateField seg fields x)) = true.
Proof.
  intros H Hx. induction fields as [|[sf0 fv0] rest IH];
    cbn [noNilPointer List.forallb updateField snd] in *; [reflexivity|].
  apply andb_true_iff in H. destruct H as [H0 Hrest].
  destruct (tagIs seg sf0); cbn [List.forallb snd]; rewrite ?Hx, ?H0, ?Hrest; auto.
Qed.

Lemma noNilPointer_elemOf o :
  noNilPointer o = true ->
  nilPointer o = false /\ noNilPointer (elemOf o) = true /\ putElem o (elemOf o) = o.
Proof.
  destruct o as [b|k i|k u|f|s|fields|t [n|]]; cbn; auto. discriminate.
Qed.

Lemma noNilPointer_putElem o x :
  noNilPointer x = true -> noNilPointer (putElem o x) = true.
Proof.
  destruct o as [b|k i|k u|f|s|fields|t tg]; cbn; auto.
Qed.

(** On a tree without nil pointers a call that does not return [nil]
    changes nothing, and a call that returns [nil] leaves no nil pointer. *)
Lemma setNodeValue_noNilPointer p : forall ro o value o' out,
  noNilPointer o = true ->
  setNodeValue (Reflected (mkValue ro o)) p value = (o', out) ->
  noNilPointer o' = true /\ (out <> Nil -> o' = o).
Proof.
  induction p as [|seg rest IH]; intros ro o value o' out Hnn Hset.
  - cbn [setNodeValue] in Hset. split.
    + destruct (match out with Nil => true | _ => false end) eqn:E.
      * destruct out; try discriminate. apply setLeaf_written in Hset.
        destruct Hset as (_ & _ & Hleaf). destruct o'; try discriminate; reflexivity.
      * apply setLeaf_unchanged in Hset; [|intros ->; discriminate]. subst. exact Hnn.
    + intros Hout. now apply setLeaf_unchanged in Hset.
  - rewrite setNodeValue_lens in Hset.
    destruct (noNilPointer_elemOf o Hnn) as (Hnil & Hne & Hput).
    rewrite Hnil, andb_false_r in Hset.
    destruct (elemOf o) as [b|k i|k u|f|s|fields|t tg] eqn:He;
      try (inversion Hset; subst; rewrite Hput; auto; fail).
    destruct (findEntry seg fields) as [[sf fv]|] eqn:Hfind;
      [|inversion Hset; subst; rewrite Hput; auto].
    destruct (setNodeValue _ rest value) as [fv' out'] eqn:Hchild.
    inversion Hset; subst; clear Hset.
    apply IH in Hchild; [|eapply noNilPointer_entry; eauto].
    destruct Hchild as [Hnn' Hsame]. split.
    + apply noNilPointer_putElem. now apply noNilPointer_update.
    + intros Hout. rewrite (Hsame Hout), (updateField_same _ _ _ _ Hfind). exact Hput.
Qed.

Lemma setParameter_noNilPointer c key value c' out :
  noNilPointer c = true -> setParameter c key value = (c', out) ->
  noNilPointer c' = true /\ (out <> Nil -> c' = c).
Proof.
  unfold setParameter. intros Hnn Hset.
  destruct (strings.Split key ".") as [|seg rest] eqn:E; [now apply Split_nonempty in E|].
  rewrite setNodeValue_Pointer in Hset. eapply setNodeValue_noNilPointer; eauto.
Qed.

Lemma applyOverrides_whole_overrides overrides : forall c c' out,
  noNilPointer c = true -> applyOverrides c overrides = (c', out) ->
  exists done rest, overrides = done ++ rest /\ applyOverrides c done = (c', Nil) /\
                    (out = Nil -> rest = []).
Proof.
  induction overrides as [|[k v] overrides IH]; intros c c' out Hnn Happ; cbn [applyOverrides] in Happ.
  - inversion Happ; subst. exists [], []. auto.
  - destruct (setParameter c k v) as [c1 out1] eqn:Hset.
    destruct (setParameter_noNilPointer _ _ _ _ _ Hnn Hset) as [Hnn1 Hsame].
    destruct out1 as [|e|m].
    + destruct (IH _ _ _ Hnn1 Happ) as (done & rest & -> & Hdone & Hrest).
      exists ((k, v) :: done), rest. repeat split; auto.
      cbn [applyOverrides]. rewrite Hset. exact Hdone.
    + inversion Happ; subst. rewrite Hsame by discriminate.
      exists [], ((k, v) :: overrides). repeat split; auto. discriminate.
    + inversion Happ; subst. rewrite Hsame by discriminate.
      exists [], ((k, v) :: overrides). repeat split; auto. discriminate.
Qed.

(** ** Paths that cannot resolve *)

Lemma findEntry_unusable seg fields : seg = "" \/ seg = "-" -> findEntry seg fields = None.
Proof.
  intros H. pose proof (findField_unusable seg fields H) as Hf.
  rewrite findEntry_findField in Hf. destruct (findEntry seg fields); [discriminate|reflexivity].
Qed.

Lemma setNodeValue_unusable_segment path : forall ro o value,
  Exists (fun seg => seg = "" \/ seg = "-") path ->
  snd (setNodeValue (Reflected (mkValue ro o)) path value) <> Nil.
Proof.
  induction path as [|seg rest IH]; intros ro o value Hex; [inversion Hex|].
  rewrite setNodeValue_lens.
  destruct (isRO ro && nilPointer o); [discriminate|].
  destruct (elemOf o) as [b|k i|k u|f|s|fields|t tg]; try discriminate.
  inversion Hex as [? ? Hseg|? ? Hrest]; subst.
  - rewrite (findEntry_unusable _ _ Hseg). discriminate.
  - destruct (findEntry seg fields) as [[sf fv]|]; [|discriminate].
    specialize (IH (fieldFlag ro sf) fv value Hrest).
    destruct (setNodeValue _ rest value). exact IH.
Qed.

Lemma findField_entry seg fields fv :
  findField seg fields = Some fv -> exists sf, findEntry seg fields = Some (sf, fv).
Proof.
  rewrite findEntry_findField. destruct (findEntry seg fields) as [[sf x]|]; [|discriminate].
  cbn. intros H; inversion H; subst. eauto.
Qed.

(** A path that goes on below a leaf. *)
Lemma setNodeValue_through_leaf p : forall ro o leaf seg rest value,
  getNodeValue o p = Some leaf -> isLeaf leaf = true ->
  setNodeValue (Reflected (mkValue ro o)) (p ++ seg :: rest) value =
  (o, Err (errors.New "Node is not a struct")).
Proof.
  induction p as [|s p' IH]; intros ro o leaf seg rest value Hget Hleaf.
  - cbn in Hget. inversion Hget; subst. now apply setNodeValue_below_leaf.
  - rewrite getNodeValue_cons in Hget. rewrite <- app_comm_cons, setNodeValue_lens.
    destruct (nilPointer o) eqn:Hnil; [discriminate|]. rewrite andb_false_r.
    pose proof (putElem_elemOf o Hnil) as Hput.
    destruct (elemOf o) as [b|k i|k u|f|x|fields|t tg]; try discriminate.
    destruct (findField s fields) as [fv|] eqn:Hfind; [|discriminate].
    apply findField_entry in Hfind. destruct Hfind as (sf & Hfind). rewrite Hfind.
    rewrite (IH _ fv leaf seg rest value Hget Hleaf).
    rewrite (updateField_same _ _ _ _ Hfind), Hput. reflexivity.
Qed.

(** A leaf the path leads to, whose coercion fails: the call fails the
    same way and changes nothing. *)
Lemma setNodeValue_leaf_refused p : forall o x value out,
  getNodeValue o p = Some x -> exportedTree o = true ->
  setLeaf (mkValue writable x) value = (x, out) ->
  setNodeValue (Reflected (mkValue writable o)) p value = (o, out).
Proof.
  induction p as [|s p' IH]; intros o x value out Hget Hexp Hleaf.
  - cbn in Hget. inversion Hget; subst. exact Hleaf.
  - rewrite getNodeValue_cons in Hget. rewrite setNodeValue_lens.
    destruct (nilPointer o) eqn:Hnil; [discriminate|]. simpl_ro.
    pose proof (putElem_elemOf o Hnil) as Hput.
    pose proof (exportedTree_elemOf o Hnil Hexp) as Hexp'.
    destruct (elemOf o) as [b|k i|k u|f|y|fields|t tg]; try discriminate.
    destruct (findField s fields) as [fv|] eqn:Hfind; [|discriminate].
    apply findField_entry in Hfind. destruct Hfind as (sf & Hfind). rewrite Hfind.
    assert (Hsf : IsExported sf = true /\ exportedTree fv = true).
    { clear - Hexp' Hfind. induction fields as [|[sf0 fv0] rest IHf]; [discriminate|].
      cbn [findEntry] in Hfind. cbn in Hexp'.
      apply andb_true_iff in Hexp'. destruct Hexp' as [H0 Hrest].
      destruct (tagIs s sf0).
      - inversion Hfind; subst. now apply andb_true_iff in H0.
      - apply IHf; assumption. }
    destruct Hsf as [Hsf Hfv]. rewrite (fieldFlag_exported _ Hsf).
    rewrite (IH fv x value out Hget Hfv Hleaf).
    rewrite (updateField_same _ _ _ _ Hfind), Hput. reflexivity.
Qed.

(** ** More on the argument loop *)

Lemma HasPrefix_cons c s : strings.HasPrefix (String c s) (String c EmptyString) = true.
Proof.
  unfold strings.HasPrefix. cbn [String.prefix].
  destruct (ascii_dec c c) as [_|Hne]; [destruct s; reflexivity|congruence].
Qed.

Lemma readArgs_extra_dash pre : forall c key inParameter flag rest,
  isFlag flag = true ->
  readArgs c key inParameter (pre ++ String "-" flag :: rest) =
  readArgs c key inParameter (pre ++ flag :: rest).
Proof.
  induction pre as [|arg pre IH]; intros c key inParameter flag rest Hflag.
  - cbn [app readArgs]. unfold isFlag in Hflag. rewrite Hflag.
    rewrite (HasPrefix_cons "-" flag).
    replace (strings.TrimLeft (String "-" flag) "-") with (strings.TrimLeft flag "-")
      by reflexivity.
    reflexivity.
  - rewrite <- !app_comm_cons. cbn [readArgs].
    destruct (strings.HasPrefix arg "-").
    + destruct inParameter; [reflexivity|]. now apply IH.
    + destruct (negb inParameter); [reflexivity|].
      destruct (setParameter c key arg) as [c' [| |]]; try reflexivity. now apply IH.
Qed.

(** A run without error alternates flags and values: after an even number
    of tokens it is between two overrides. *)
Lemma readArgs_split a : forall c key inParameter b c',
  readArgs c key inParameter (a ++ b) = (c', Nil) ->
  exists c1 key1,
    readArgs c1 key1 (xorb inParameter (Nat.odd (List.length a))) b = (c', Nil) /\
    (xorb inParameter (Nat.odd (List.length a)) = false ->
     readArgs c key inParameter a = (c1, Nil)).
Proof.
  induction a as [|arg a IH]; intros c key inParameter b c' Hrun.
  - exists c, key. cbn [app List.length Nat.odd] in *. rewrite xorb_false_r.
    split; [exact Hrun|]. intros ->. reflexivity.
  - rewrite <- app_comm_cons in Hrun. cbn [readArgs] in Hrun |- *.
    assert (Hodd : Nat.odd (List.length (arg :: a)) = negb (Nat.odd (List.length a))).
    { cbn [List.length]. rewrite Nat.odd_succ, <- Nat.negb_odd. reflexivity. }
    rewrite Hodd.
    destruct (strings.HasPrefix arg "-").
    + destruct inParameter; [discriminate|].
      destruct (IH _ _ _ _ _ Hrun) as (c1 & key1 & Hb & Ha).
      exists c1, key1.
      destruct (Nat.odd (List.length a)); cbn [xorb negb] in *; split; auto;
        intros; discriminate.
    + destruct inParameter; cbn [negb] in Hrun |- *; [|discriminate].
      destruct (setParameter c key arg) as [c2 [| |]]; try discriminate.
      destruct (IH _ _ _ _ _ Hrun) as (c1 & key1 & Hb & Ha).
      exists c1, key1.
      destruct (Nat.odd (List.length a)); cbn [xorb negb] in *; split; auto;
        intros; discriminate.
Qed.

(** Leaves that no override names keep their value, whatever the outcome. *)
Lemma applyOverrides_frame_any overrides : forall c c' out p leaf,
  applyOverrides c overrides = (c', out) ->
  Forall (fun kv => strings.Split (fst kv) "." <> p) overrides ->
  getNodeValue c p = Some leaf -> isLeaf leaf = true ->
  getNodeValue c' p = Some leaf.
Proof.
  induction overrides as [|[k v] overrides IH]; intros c c' out p leaf Happ Hother Hget Hleaf;
    cbn [applyOverrides] in Happ.
  - inversion Happ; subst; exact Hget.
  - inversion Hother as [|? ? Hk Hrest]; subst. cbn [fst] in Hk.
    destruct (setParameter c k v) as [c1 out1] eqn:E.
    assert (Hget1 : getNodeValue c1 p = Some leaf).
    { eapply setParameter_frame; eauto. }
    destruct out1; [eapply IH; eauto| |]; inversion Happ; subst; exact Hget1.
Qed.

(** ** The paths of a [ConfigRoot] *)

Lemma checkPath_scalar t path value :
  t = TString \/ t = TBool \/ (exists k, t = TInt k) ->
  checkPath t path value = Nil -> path = [].
Proof.
  intros Ht. destruct path as [|seg rest]; [reflexivity|].
  destruct Ht as [->|[->|[k ->]]]; discriminate.
Qed.

Lemma findType_In seg fields ft :
  findType seg fields = Some ft ->
  exists sf, In (sf, ft) fields /\ Get (Tag sf) "json" = seg.
Proof.
  induction fields as [|[sf0 ft0] rest IH]; cbn [findType]; [discriminate|].
  destruct (tagIs seg sf0) eqn:Htag.
  - intros H; inversion H; subst. exists sf0. split; [now left|now apply tagIs_eq].
  - intros H. destruct (IH H) as (sf & Hin & Heq). exists sf. split; [now right|exact Heq].
Qed.

Lemma checkPath_struct fields path value :
  checkPath (TStruct fields) path value = Nil ->
  exists sf ft rest, path = Get (Tag sf) "json" :: rest /\ In (sf, ft) fields /\
                     checkPath ft rest value = Nil.
Proof.
  destruct path as [|seg rest]; [discriminate|].
  cbn [checkPath elemType].
  destruct (findType seg fields) as [ft|] eqn:Hfind; [|discriminate].
  apply findType_In in Hfind. destruct Hfind as (sf & Hin & <-).
  intros H. exists sf, ft, rest. auto.
Qed.

Lemma checkPath_pointer fields path value :
  checkPath (TPtr (TStruct fields)) path value = Nil ->
  checkPath (TStruct fields) path value = Nil.
Proof. destruct path as [|seg rest]; [discriminate|]. auto. Qed.

Ltac field_cases H :=
  cbn [In] in H;
  repeat (destruct H as [H|H]; [inversion H; subst; clear H|]); [..|contradiction].

Ltac scalar_leaf H :=
  apply checkPath_scalar in H; [subst; cbn; tauto|eauto].

Lemma checkPath_ConfigMailTemplate path value :
  checkPath TypeOf.ConfigMailTemplate path value = Nil ->
  In path [["subject"]; ["body"]].
Proof.
  intros H. apply checkPath_struct in H. destruct H as (sf & ft & rest & -> & Hin & H).
  field_cases Hin; scalar_leaf H.
Qed.

Lemma checkPath_ConfigMailTemplates path value :
  checkPath TypeOf.ConfigMailTemplates path value = Nil ->
  exists kind leaf, path = kind :: leaf /\ In kind ["success"; "timeout"; "error"] /\
                    In leaf [["subject"]; ["body"]].
Proof.
  intros H. apply checkPath_struct in H. destruct H as (sf & ft & rest & -> & Hin & H).
  field_cases Hin; apply checkPath_ConfigMailTemplate in H;
    eexists _, rest; (split; [reflexivity|]); (split; [cbn; tauto|exact H]).
Qed.

Lemma checkPath_ConfigRoot path value :
  checkPath TypeOf.ConfigRoot path value = Nil -> In path configLeafPaths.
Proof.
  intros H. apply checkPath_struct in H. destruct H as (sf & ft & rest & -> & Hin & H).
  field_cases Hin.
  - apply checkPath_struct in H. destruct H as (sf & ft & rest' & -> & Hin & H).
    field_cases Hin; try (scalar_leaf H).
    apply checkPath_pointer, checkPath_struct in H.
    destruct H as (sf & ft & rest & -> & Hin & H).
    field_cases Hin; scalar_leaf H.
  - apply checkPath_struct in H. destruct H as (sf & ft & rest' & -> & Hin & H).
    field_cases Hin; scalar_leaf H.
  - apply checkPath_struct in H. destruct H as (sf & ft & rest' & -> & Hin & H).
    field_cases Hin; scalar_leaf H.
  - apply checkPath_struct in H. destruct H as (sf & ft & rest' & -> & Hin & H).
    field_cases Hin; try (scalar_leaf H).
    apply checkPath_ConfigMailTemplates in H.
    destruct H as (kind & leaf & -> & Hkind & Hleaf).
    cbn [In] in Hkind, Hleaf.
    repeat (destruct Hkind as [<-|Hkind]); try contradiction;
      repeat (destruct Hleaf as [<-|Hleaf]); try contradiction; cbn; tauto.
  - scalar_leaf H.
Qed.

Lemma setParameter_checkPath c key value :
  snd (setParameter (ValueOf c) key value) =
  checkPath TypeOf.ConfigRoot (strings.Split key ".") value.
Proof.
  unfold setParameter.
  destruct (strings.Split key ".") as [|seg rest] eqn:E; [now apply Split_nonempty in E|].
  rewrite setNodeValue_Pointer, <- (typeOf_ValueOf c).
  apply setNodeValue_checkPath; [apply WellTyped_ValueOf|].
  rewrite typeOf_ValueOf. reflexivity.
Qed.

(** ** Whole calls on typed trees *)

Lemma setParameter_typed c key value c' out :
  setParameter c key value = (c', out) -> WellTyped c ->
  typeOf c' = typeOf c /\ WellTyped c'.
Proof.
  unfold setParameter. intros Hset Hwt.
  destruct (strings.Split key ".") as [|seg rest] eqn:E; [now apply Split_nonempty in E|].
  rewrite setNodeValue_Pointer in Hset. eapply setNodeValue_typed; eauto.
Qed.

Lemma setParameter_outcome c key value :
  WellTyped c -> exportedType (typeOf c) = true ->
  snd (setParameter c key value) = checkPath (typeOf c) (strings.Split key ".") value.
Proof.
  unfold setParameter. intros Hwt Hexp.
  destruct (strings.Split key ".") as [|seg rest] eqn:E; [now apply Split_nonempty in E|].
  rewrite setNodeValue_Pointer. now apply setNodeValue_checkPath.
Qed.

Lemma checkLeaf_outcome t value :
  match checkLeaf t value with
  | Nil => True
  | Err e => callError e
  | Panic _ => False
  end.
Proof.
  unfold checkLeaf, callError. destruct t; auto 7.
  - destruct (strconv.ParseBool value) as [b [e|]] eqn:E; [|exact I].
    apply ParseBool_error in E. subst. unfold TypeCoercionError, strconv.syntaxError. eauto 10.
  - destruct (strconv.ParseInt value 10 64) as [n [e|]] eqn:E; [|exact I].
    apply ParseInt_error in E. auto 7.
  - destruct (strconv.ParseUint value 10 64) as [n [e|]] eqn:E; [|exact I].
    apply ParseUint_error in E. auto 7.
Qed.

Lemma checkPath_outcome path : forall t value,
  match checkPath t path value with
  | Nil => True
  | Err e => callError e
  | Panic _ => False
  end.
Proof.
  induction path as [|seg rest IH]; intros t value; cbn [checkPath].
  - apply checkLeaf_outcome.
  - destruct (elemType t); try (unfold callError; auto 7; fail).
    destruct (findType seg fields); [apply IH|unfold callError; auto 7].
Qed.

Lemma readArgs_typed args : forall c key inParameter c' out,
  WellTyped c -> exportedType (typeOf c) = true ->
  readArgs c key inParameter args = (c', out) ->
  (typeOf c' = typeOf c /\ WellTyped c') /\
  match out with
  | Nil => True
  | Err e => callError e
  | Panic _ => False
  end.
Proof.
  induction args as [|arg args IH]; intros c key inParameter c' out Hwt Hexp Hrun;
    cbn [readArgs] in Hrun.
  - destruct inParameter; inversion Hrun; subst; split; auto. unfold callError. auto.
  - destruct (strings.HasPrefix arg "-").
    + destruct inParameter; [inversion Hrun; subst; split; auto; unfold callError; auto|].
      eapply IH; eauto.
    + destruct (negb inParameter); [inversion Hrun; subst; split; auto; unfold callError; auto|].
      destruct (setParameter c key arg) as [c1 out1] eqn:Hset.
      destruct (setParameter_typed _ _ _ _ _ Hset Hwt) as [Ht1 Hwt1].
      pose proof (setParameter_outcome c key arg Hwt Hexp) as Hout.
      rewrite Hset in Hout. cbn [snd] in Hout.
      pose proof (checkPath_outcome (strings.Split key ".") (typeOf c) arg) as Hcheck.
      rewrite <- Hout in Hcheck.
      destruct out1 as [|e|m].
      * destruct (IH _ _ _ _ _ Hwt1 ltac:(rewrite Ht1; exact Hexp) Hrun) as [[Ht Hw] Ho].
        split; [split; [congruence|exact Hw]|exact Ho].
      * inversion Hrun; subst. split; auto.
      * contradiction.
Qed.

(** ** Anchors *)

Lemma HasPrefix_inv s c : strings.HasPrefix s (String c EmptyString) = true ->
  exists rest, s = String c rest.
Proof.
  unfold strings.HasPrefix. destruct s as [|d rest]; cbn [String.prefix]; [discriminate|].
  destruct (ascii_dec c d) as [->|]; [eauto|discriminate].
Qed.

Lemma Clean_rooted path :
  strings.HasPrefix path "/" = true -> strings.HasPrefix (filepath.Clean path) "/" = true.
Proof.
  intros H. unfold filepath.Clean. rewrite H.
  destruct (HasPrefix_inv _ _ H) as (rest & ->).
  replace (String.eqb (String "/" rest) "") with false by reflexivity.
  cbn [append]. apply HasPrefix_cons.
Qed.

Lemma Join_rooted relativeTo path :
  strings.HasPrefix relativeTo "/" = true ->
  strings.HasPrefix (filepath.Join [relativeTo; path]) "/" = true.
Proof.
  intros H. destruct (HasPrefix_inv _ _ H) as (rest & ->).
  unfold filepath.Join. cbn [filepath.dropEmpty].
  replace (String.eqb (String "/" rest) "") with false by reflexivity.
  apply Clean_rooted. cbn [strings.Join append]. apply HasPrefix_cons.
Qed.

Lemma Dir_rooted path :
  strings.HasPrefix path "/" = true -> strings.HasPrefix (filepath_Dir path) "/" = true.
Proof.
  intros H. destruct (HasPrefix_inv _ _ H) as (rest & ->).
  unfold filepath_Dir. cbn [upToLastSeparator].
  destruct (upToLastSeparator rest) as [dir|].
  - apply Clean_rooted, HasPrefix_cons.
  - replace (Ascii.eqb "/" "/") with true by reflexivity. apply Clean_rooted. reflexivity.
Qed.

Lemma rooted_not_marked path :
  strings.HasPrefix path "/" = true -> strings.HasPrefix path "~" = false.
Proof.
  intros H. destruct (HasPrefix_inv _ _ H) as (rest & ->).
  unfold strings.HasPrefix. cbn [String.prefix].
  destruct (ascii_dec "~" "/"); [discriminate|reflexivity].
Qed.

Lemma resolvePath_rooted relativeTo path :
  strings.HasPrefix relativeTo "/" = true ->
  strings.HasPrefix (resolvePath relativeTo path) "~" = false /\
  (strings.HasPrefix path "~" = true ->
   strings.HasPrefix (resolvePath relativeTo path) "/" = true).
Proof.
  intros H. unfold resolvePath. destruct (strings.HasPrefix path "~") eqn:E.
  - split; [apply rooted_not_marked|intros _]; now apply Join_rooted.
  - split; [exact E|discriminate].
Qed.

Lemma ReadConfig_resolved Reader decode (r : Reader) relativeTo config :
  decode r zeroConfig = (config, None) ->
  ReadConfig Reader decode r relativeTo =
  (withPaths config
     (mkConfigPaths (resolvePath relativeTo (Databases (Paths config)))
                    (resolvePath relativeTo (Results (Paths config)))
                    (Temporary (Paths config))
                    (resolvePath relativeTo (Mmseqs (Paths config)))),
   None).
Proof.
  intros Hdecode. unfold ReadConfig. rewrite Hdecode.
  destruct config as [srv [db res tmp mm] redis mail verbose].
  unfold resolvePath, anchorPath, withPaths, strings.HasPrefix. cbn.
  destruct (String.prefix "~" db); cbn; destruct (String.prefix "~" res); cbn;
    destruct (String.prefix "~" mm); reflexivity.
Qed.

(** * Further properties of [ReadParameters], [setParameter] and the loaders *)

(** A token that begins with a dash is never read as a value.  After tokens
    processed without error, a flag followed by such a token makes the call
    fail with "Invalid Parameter String", the tree being the one the tokens
    before produced.  So a negative number cannot be given on the command
    line, although [setParameter] itself stores it: [-redis.index -5]
    fails. *)
Theorem ReadParameters_dashed_value_refused :
  (forall c pre flag value rest c1,
      ReadParameters c pre = (c1, Nil) -> isFlag flag = true -> isFlag value = true ->
      ReadParameters c (pre ++ flag :: value :: rest) = (c1, Err ArgumentSyntaxError)) /\
  (forall c,
      setParameter (ValueOf c) "redis.index" "-5" = (ValueOf (withDbIndex c (-5)), Nil) /\
      ReadParameters (ValueOf c) ["-redis.index"; "-5"] = (ValueOf c, Err ArgumentSyntaxError)).
Proof.
  split.
  - intros c pre flag value rest c1 Hpre Hflag Hvalue.
    unfold ReadParameters in *. rewrite (readArgs_app _ _ _ _ _ _ Hpre).
    unfold isFlag in *. cbn [readArgs]. rewrite Hflag. cbn [readArgs]. rewrite Hvalue.
    reflexivity.
  - intros c. split.
    + open_config c; vm_compute; reflexivity.
    + reflexivity.
Qed.

Lemma ReadParameters_dashed_value_witness :
  ReadParameters (ValueOf defaultContent)
    (["-server.cors"; "false"] ++ "-redis.index" :: "-5" :: ["-verbose"; "false"]) =
  (ValueOf (withCORS defaultContent false), Err ArgumentSyntaxError).
Proof.
  apply (proj1 ReadParameters_dashed_value_refused (ValueOf defaultContent)
           ["-server.cors"; "false"] "-redis.index" "-5" ["-verbose"; "false"]);
    reflexivity.
Defined.

(** The number of leading dashes of a flag is of no account: a flag with
    one more dash, anywhere in the arguments, gives the same call. *)
Theorem ReadParameters_flag_dashes_of_no_account :
  forall c pre flag rest,
    isFlag flag = true ->
    ReadParameters c (pre ++ String "-" flag :: rest) = ReadParameters c (pre ++ flag :: rest).
Proof.
  intros c pre flag rest Hflag. unfold ReadParameters. now apply readArgs_extra_dash.
Qed.

Lemma ReadParameters_flag_dashes_witness :
  ReadParameters (ValueOf defaultContent) (["-verbose"; "false"] ++ "--server.cors" :: ["false"]) =
  ReadParameters (ValueOf defaultContent) (["-verbose"; "false"] ++ "-server.cors" :: ["false"]).
Proof.
  apply (ReadParameters_flag_dashes_of_no_account (ValueOf defaultContent)
           ["-verbose"; "false"] "-server.cors" ["false"]).
  reflexivity.
Defined.

(** Calls compose: when the arguments [a] are processed without error, a
    call on [a ++ b] is the call on [b] applied to the tree the call on [a]
    leaves; and a call on [a ++ b] that returns [nil], [a] having an even
    number of tokens, is such a composition. *)
Theorem ReadParameters_of_concatenation :
  (forall c a b c1,
      ReadParameters c a = (c1, Nil) ->
      ReadParameters c (a ++ b) = ReadParameters c1 b) /\
  (forall c a b c',
      ReadParameters c (a ++ b) = (c', Nil) -> Nat.even (List.length a) = true ->
      exists c1, ReadParameters c a = (c1, Nil) /\ ReadParameters c1 b = (c', Nil)).
Proof.
  split.
  - intros c a b c1 Ha. unfold ReadParameters in *. now apply readArgs_app.
  - intros c a b c' Hrun Heven. unfold ReadParameters in *.
    apply readArgs_split in Hrun. destruct Hrun as (c1 & key1 & Hb & Ha).
    rewrite <- Nat.negb_even, Heven in Hb, Ha. cbn [negb xorb] in Hb, Ha.
    exists c1. split; [now apply Ha|]. rewrite (readArgs_key_unused _ _ key1). exact Hb.
Qed.

Lemma ReadParameters_of_concatenation_witness :
  exists c1,
    ReadParameters (ValueOf defaultContent) ["-verbose"; "false"] = (c1, Nil) /\
    ReadParameters c1 ["-server.cors"; "false"] =
      (fst (ReadParameters (ValueOf defaultContent)
              (["-verbose"; "false"] ++ ["-server.cors"; "false"])), Nil).
Proof.
  apply (proj2 ReadParameters_of_concatenation (ValueOf defaultContent)
           ["-verbose"; "false"] ["-server.cors"; "false"]); reflexivity.
Defined.

Lemma readArgs_keeps_types args : forall c key inParameter c' out,
  WellTyped c -> readArgs c key inParameter args = (c', out) ->
  typeOf c' = typeOf c /\ WellTyped c'.
Proof.
  induction args as [|arg args IH]; intros c key inParameter c' out Hwt Hrun;
    cbn [readArgs] in Hrun.
  - destruct inParameter; inversion Hrun; subst; auto.
  - destruct (strings.HasPrefix arg "-").
    + destruct inParameter; [inversion Hrun; subst; auto|]. eapply IH; eauto.
    + destruct (negb inParameter); [inversion Hrun; subst; auto|].
      destruct (setParameter c key arg) as [c1 out1] eqn:Hset.
      destruct (setParameter_typed _ _ _ _ _ Hset Hwt) as [Ht1 Hwt1].
      destruct out1 as [|e|m]; [|inversion Hrun; subst; auto..].
      destruct (IH _ _ _ _ _ Hwt1 Hrun) as [Ht Hw]. split; [congruence|exact Hw].
Qed.

Lemma readArgs_same_outcome args : forall c c' key inParameter,
  WellTyped c -> WellTyped c' -> typeOf c = typeOf c' -> exportedType (typeOf c) = true ->
  snd (readArgs c key inParameter args) = snd (readArgs c' key inParameter args).
Proof.
  induction args as [|arg args IH]; intros c c' key inParameter Hwt Hwt' Htype Hexp;
    cbn [readArgs].
  - destruct inParameter; reflexivity.
  - destruct (strings.HasPrefix arg "-").
    + destruct inParameter; [reflexivity|]. now apply IH.
    + destruct (negb inParameter); [reflexivity|].
      pose proof (setParameter_outcome c key arg Hwt Hexp) as Ho.
      pose proof (setParameter_outcome c' key arg Hwt' ltac:(rewrite <- Htype; exact Hexp)) as Ho'.
      rewrite <- Htype, <- Ho in Ho'.
      destruct (setParameter c key arg) as [c1 out1] eqn:Hset.
      destruct (setParameter c' key arg) as [c1' out1'] eqn:Hset'.
      cbn [snd] in Ho'. subst out1'.
      destruct (setParameter_typed _ _ _ _ _ Hset Hwt) as [Ht1 Hwt1].
      destruct (setParameter_typed _ _ _ _ _ Hset' Hwt') as [Ht1' Hwt1'].
      destruct out1 as [|e|m]; try reflexivity.
      apply IH; auto; congruence.
Qed.

(** A call never changes the type of anything in the tree: every field
    keeps its kind and integer width, every pointer its element type.  In
    particular the tree a call leaves of a [ConfigRoot] is again the data of
    a [ConfigRoot], whatever the arguments and the outcome. *)
Theorem ReadParameters_keeps_the_tree_typed :
  (forall c args,
      WellTyped c ->
      typeOf (fst (ReadParameters c args)) = typeOf c /\
      WellTyped (fst (ReadParameters c args))) /\
  (forall config args,
      exists config',
        fst (ReadParameters (ValueOf config) args) = ValueOf config' /\
        toConfigRoot (fst (ReadParameters (ValueOf config) args)) = Some config').
Proof.
  assert (G : forall c args, WellTyped c ->
              typeOf (fst (ReadParameters c args)) = typeOf c /\
              WellTyped (fst (ReadParameters c args))).
  { intros c args Hwt. unfold ReadParameters.
    destruct (readArgs c "" false args) as [c' out] eqn:Hrun.
    eapply readArgs_keeps_types; eauto. }
  split; [exact G|].
  intros config args.
  destruct (G (ValueOf config) args (WellTyped_ValueOf config)) as [Ht Hw].
  rewrite typeOf_ValueOf in Ht.
  destruct (typed_ConfigRoot _ Ht Hw) as (config' & E).
  exists config'. rewrite E. split; [reflexivity|apply toConfigRoot_ValueOf].
Qed.

Lemma ReadParameters_keeps_the_tree_typed_witness :
  typeOf (fst (ReadParameters (OPtr TypeOf.ConfigAuth None) ["-username"; "alice"; "-nosuch"; "x"])) =
    TPtr TypeOf.ConfigAuth /\
  WellTyped (fst (ReadParameters (OPtr TypeOf.ConfigAuth None)
                                 ["-username"; "alice"; "-nosuch"; "x"])).
Proof.
  apply (proj1 ReadParameters_keeps_the_tree_typed (OPtr TypeOf.ConfigAuth None)
           ["-username"; "alice"; "-nosuch"; "x"]).
  exact I.
Defined.

(** On a tree whose fields are all exported a call never panics, and the
    only errors it returns are "Invalid Parameter String", "Path not found
    in config", "Node is not a struct", "Leaf node is a struct", "Leaf node
    type not implemented" and the parse errors of [strconv]: "Leaf node is
    not valid" and "Leaf node is not a value" cannot occur.  So it is for
    every [ConfigRoot]. *)
Theorem ReadParameters_errors_on_exported_trees :
  (forall c args,
      WellTyped c -> exportedType (typeOf c) = true ->
      match snd (ReadParameters c args) with
      | Nil => True
      | Err e => callError e
      | Panic _ => False
      end) /\
  (forall config args,
      match snd (ReadParameters (ValueOf config) args) with
      | Nil => True
      | Err e => callError e
      | Panic _ => False
      end).
Proof.
  assert (G : forall c args, WellTyped c -> exportedType (typeOf c) = true ->
              match snd (ReadParameters c args) with
              | Nil => True
              | Err e => callError e
              | Panic _ => False
              end).
  { intros c args Hwt Hexp. unfold ReadParameters.
    destruct (readArgs c "" false args) as [c' out] eqn:Hrun.
    apply (readArgs_typed _ _ _ _ _ _ Hwt Hexp Hrun). }
  split; [exact G|].
  intros config args. apply G; [apply WellTyped_ValueOf|].
  rewrite typeOf_ValueOf. reflexivity.
Qed.

Lemma ReadParameters_errors_witness :
  callError (errors.New "Node is not a struct").
Proof.
  exact (proj1 ReadParameters_errors_on_exported_trees (ValueOf defaultContent)
           ["-server.address.port"; "80"] (WellTyped_ValueOf defaultContent) eq_refl).
Defined.

(** Whether a call succeeds, and with which error it fails, depends on the
    types of the tree only, not on the values it holds (for trees of
    exported fields): a single override has the outcome [checkPath] reads
    off the type, and two trees of the same type give every call the same
    outcome.  All [ConfigRoot] trees give the same outcome. *)
Theorem ReadParameters_outcome_decided_by_types :
  (forall c key value,
      WellTyped c -> exportedType (typeOf c) = true ->
      snd (setParameter c key value) = checkPath (typeOf c) (strings.Split key ".") value) /\
  (forall c c' args,
      WellTyped c -> WellTyped c' -> typeOf c = typeOf c' -> exportedType (typeOf c) = true ->
      snd (ReadParameters c args) = snd (ReadParameters c' args)) /\
  (forall config config' args,
      snd (ReadParameters (ValueOf config) args) = snd (ReadParameters (ValueOf config') args)).
Proof.
  split; [|split].
  - intros c key value. apply setParameter_outcome.
  - intros c c' args Hwt Hwt' Htype Hexp. unfold ReadParameters.
    now apply readArgs_same_outcome.
  - intros config config' args. unfold ReadParameters.
    apply readArgs_same_outcome; try apply WellTyped_ValueOf.
    + now rewrite !typeOf_ValueOf.
    + rewrite typeOf_ValueOf. reflexivity.
Qed.

Lemma ReadParameters_outcome_decided_by_types_witness :
  snd (ReadParameters (ValueOf defaultContent) ["-redis.index"; "x1"; "-verbose"; "true"]) =
  snd (ReadParameters (ValueOf zeroConfig) ["-redis.index"; "x1"; "-verbose"; "true"]).
Proof.
  apply (proj1 (proj2 ReadParameters_outcome_decided_by_types)
           (ValueOf defaultContent) (ValueOf zeroConfig)
           ["-redis.index"; "x1"; "-verbose"; "true"]).
  - apply WellTyped_ValueOf.
  - apply WellTyped_ValueOf.
  - reflexivity.
  - reflexivity.
Defined.

(** The overrides a [ConfigRoot] accepts: some value is accepted at a key
    exactly when its path is one of the twenty-three paths of the scalar
    fields (among them the two fields of the auth record, present or not);
    the value [1] is accepted at every one of them. *)
Theorem ConfigRoot_accepted_paths :
  forall config key,
    ((exists value, snd (setParameter (ValueOf config) key value) = Nil) <->
     In (strings.Split key ".") configLeafPaths) /\
    (In (strings.Split key ".") configLeafPaths ->
     snd (setParameter (ValueOf config) key "1") = Nil).
Proof.
  intros config key.
  assert (G : In (strings.Split key ".") configLeafPaths ->
              snd (setParameter (ValueOf config) key "1") = Nil).
  { rewrite setParameter_checkPath. generalize (strings.Split key "."). intros path Hin.
    unfold configLeafPaths in Hin. cbn [In] in Hin.
    repeat (destruct Hin as [<-|Hin]; [reflexivity|]). contradiction. }
  split; [|exact G]. split.
  - intros (value & H). rewrite setParameter_checkPath in H.
    eapply checkPath_ConfigRoot; eauto.
  - intros Hin. exists "1". now apply G.
Qed.

Lemma ConfigRoot_accepted_paths_witness :
  snd (setParameter (ValueOf defaultContent) "mail.templates.timeout.body" "1") = Nil.
Proof.
  apply (proj2 (ConfigRoot_accepted_paths defaultContent "mail.templates.timeout.body")).
  vm_compute. tauto.
Defined.

(** Overriding a leaf twice.  After an override that succeeded, a second
    override of the same key succeeds or fails as it would have on the tree
    before; when it succeeds the tree is the one the second override alone
    gives, and when it fails the tree stays as the first left it.  Applying
    the same override again changes nothing. *)
Theorem setParameter_twice_same_key :
  (forall c key a b c1,
      setParameter c key a = (c1, Nil) ->
      setParameter c1 key b =
      match setParameter c key b with
      | (c2, Nil) => (c2, Nil)
      | (_, out) => (c1, out)
      end) /\
  (forall c key a c1,
      setParameter c key a = (c1, Nil) -> setParameter c1 key a = (c1, Nil)).
Proof.
  assert (G : forall c key a b c1,
      setParameter c key a = (c1, Nil) ->
      setParameter c1 key b =
      match setParameter c key b with
      | (c2, Nil) => (c2, Nil)
      | (_, out) => (c1, out)
      end).
  { unfold setParameter. intros c key a b c1 Hset.
    destruct (strings.Split key ".") as [|seg rest] eqn:E; [now apply Split_nonempty in E|].
    rewrite !setNodeValue_Pointer in *. exact (setNodeValue_overwrite _ _ _ a b _ Hset). }
  split; [exact G|].
  intros c key a c1 Hset. rewrite (G _ _ _ a _ Hset), Hset. reflexivity.
Qed.

Lemma setParameter_twice_same_key_witness :
  setParameter (ValueOf (withDbIndex defaultContent 3)) "redis.index" "4" =
    (ValueOf (withDbIndex defaultContent 4), Nil) /\
  setParameter (ValueOf (withDbIndex defaultContent 3)) "redis.index" "four" =
    (ValueOf (withDbIndex defaultContent 3), Err (strconv.syntaxError "ParseInt" "four")).
Proof.
  split.
  - rewrite (proj1 setParameter_twice_same_key (ValueOf defaultContent) "redis.index" "3" "4"
               (ValueOf (withDbIndex defaultContent 3)) eq_refl).
    reflexivity.
  - rewrite (proj1 setParameter_twice_same_key (ValueOf defaultContent) "redis.index" "3" "four"
               (ValueOf (withDbIndex defaultContent 3)) eq_refl).
    reflexivity.
Defined.

(** Overrides of different paths can be exchanged: when an override of one
    key and then an override of a key with another path both succeed, they
    also succeed in the other order and leave the same tree, nil pointers
    allocated on the way included. *)
Theorem setParameter_different_keys_commute :
  forall c key1 a key2 b c1 c12,
    strings.Split key1 "." <> strings.Split key2 "." ->
    setParameter c key1 a = (c1, Nil) ->
    setParameter c1 key2 b = (c12, Nil) ->
    exists c2, setParameter c key2 b = (c2, Nil) /\ setParameter c2 key1 a = (c12, Nil).
Proof.
  unfold setParameter. intros c key1 a key2 b c1 c12 Hne H1 H2.
  destruct (strings.Split key1 ".") as [|s1 p1] eqn:E1; [now apply Split_nonempty in E1|].
  destruct (strings.Split key2 ".") as [|s2 p2] eqn:E2; [now apply Split_nonempty in E2|].
  rewrite !setNodeValue_Pointer in *.
  destruct (setNodeValue_commute _ _ _ _ _ _ _ _ Hne H1 H2) as (c2 & Hq & Hp).
  exists c2. rewrite !setNodeValue_Pointer. auto.
Qed.

Lemma setParameter_different_keys_commute_witness :
  exists c2,
    setParameter (ValueOf defaultContent) "server.auth.password" "s3cr3t" = (c2, Nil) /\
    setParameter c2 "server.auth.username" "alice" =
      (ValueOf (withAuth defaultContent (Some (mkConfigAuth "alice" "s3cr3t"))), Nil).
Proof.
  apply (setParameter_different_keys_commute (ValueOf defaultContent)
           "server.auth.username" "alice" "server.auth.password" "s3cr3t"
           (ValueOf (withAuth defaultContent (Some (mkConfigAuth "alice" ""))))).
  - vm_compute. discriminate.
  - reflexivity.
  - reflexivity.
Defined.

(** On a tree without nil pointer every override is applied entirely or
    not at all: whatever the arguments and the outcome, the tree a call
    leaves is the result of the overrides up to some point of the list, all
    of them successful, and of all of them when the call returns [nil].  A
    [ConfigRoot] whose auth record is present is such a tree. *)
Theorem ReadParameters_whole_overrides_without_nil_pointer :
  (forall c args c' out,
      noNilPointer c = true -> ReadParameters c args = (c', out) ->
      exists done rest,
        fst (pairUp args) = done ++ rest /\ applyOverrides c done = (c', Nil) /\
        (out = Nil -> rest = [])) /\
  (forall config auth, Auth (Server config) = Some auth -> noNilPointer (ValueOf config) = true).
Proof.
  split.
  - intros c args c' out Hnn Hrun. unfold ReadParameters in Hrun.
    rewrite readArgs_pairUp in Hrun.
    destruct (applyOverrides c (fst (pairUp args))) as [c0 out0] eqn:Happ.
    destruct (applyOverrides_whole_overrides _ _ _ _ Hnn Happ) as (done & rest & E & Hdone & Hrest).
    exists done, rest.
    assert (c0 = c') as -> by (destruct out0; [destruct (snd (pairUp args))|..]; congruence).
    repeat split; auto.
    intros ->. apply Hrest. destruct out0; [reflexivity|discriminate..].
  - intros config auth Hauth. open_config config; try discriminate Hauth. reflexivity.
Qed.

Lemma ReadParameters_whole_overrides_witness :
  exists done rest,
    [("verbose", "false"); ("server.auth.nosuch", "x"); ("server.cors", "false")] = done ++ rest /\
    applyOverrides (ValueOf (withAuth defaultContent (Some (mkConfigAuth "u" "p")))) done =
      (fst (ReadParameters (ValueOf (withAuth defaultContent (Some (mkConfigAuth "u" "p"))))
              ["-verbose"; "false"; "-server.auth.nosuch"; "x"; "-server.cors"; "false"]), Nil) /\
    (Err PathNotFoundError = Nil -> rest = []).
Proof.
  apply (proj1 ReadParameters_whole_overrides_without_nil_pointer
           (ValueOf (withAuth defaultContent (Some (mkConfigAuth "u" "p"))))
           ["-verbose"; "false"; "-server.auth.nosuch"; "x"; "-server.cors"; "false"]);
    reflexivity.
Defined.

(** A call changes no leaf but those at the paths of its overrides: a leaf
    whose path no override of the arguments has keeps its value, whatever
    the outcome of the call. *)
Theorem ReadParameters_changes_named_leaves_only :
  forall c args c' out p leaf,
    ReadParameters c args = (c', out) ->
    Forall (fun override => strings.Split (fst override) "." <> p) (fst (pairUp args)) ->
    getNodeValue c p = Some leaf -> isLeaf leaf = true ->
    getNodeValue c' p = Some leaf.
Proof.
  intros c args c' out p leaf Hrun Hother Hget Hleaf.
  unfold ReadParameters in Hrun. rewrite readArgs_pairUp in Hrun.
  destruct (applyOverrides c (fst (pairUp args))) as [c0 out0] eqn:Happ.
  assert (c0 = c') as -> by (destruct out0; [destruct (snd (pairUp args))|..]; congruence).
  eapply applyOverrides_frame_any; eauto.
Qed.

Lemma ReadParameters_changes_named_leaves_only_witness :
  getNodeValue (fst (ReadParameters (ValueOf defaultContent)
                       ["-server.address"; "a:1"; "-server.auth.nosuch"; "x"]))
               ["server"; "pathprefix"] = Some (OString "/api/").
Proof.
  apply (ReadParameters_changes_named_leaves_only (ValueOf defaultContent)
           ["-server.address"; "a:1"; "-server.auth.nosuch"; "x"] _
           (snd (ReadParameters (ValueOf defaultContent)
                   ["-server.address"; "a:1"; "-server.auth.nosuch"; "x"]))).
  - reflexivity.
  - repeat constructor; vm_compute; discriminate.
  - reflexivity.
  - reflexivity.
Defined.

(** A key with an empty segment (an empty key, a leading, trailing or
    doubled dot) or with the segment [-] is never accepted, on any tree. *)
Theorem setParameter_empty_segment_refused :
  forall c key value,
    In "" (strings.Split key ".") \/ In "-" (strings.Split key ".") ->
    snd (setParameter c key value) <> Nil.
Proof.
  unfold setParameter. intros c key value Hin.
  destruct (strings.Split key ".") as [|seg rest] eqn:E; [now apply Split_nonempty in E|].
  rewrite setNodeValue_Pointer. apply setNodeValue_unusable_segment.
  apply Exists_exists. destruct Hin as [Hin|Hin]; eauto.
Qed.

Lemma setParameter_empty_segment_witness :
  snd (setParameter (ValueOf defaultContent) "" "x") <> Nil /\
  snd (setParameter (ValueOf defaultContent) "server..address" "x") <> Nil /\
  snd (setParameter (ValueOf defaultContent) "server.address." "x") <> Nil /\
  snd (setParameter (ValueOf defaultContent) ".server.address" "x") <> Nil.
Proof.
  repeat split; apply setParameter_empty_segment_refused; left; vm_compute; tauto.
Defined.

(** Below the leaf of a path an override can set: the walk goes along the
    path, allocating the records that are absent, and stops at the leaf. *)
Lemma setNodeValue_below_accepted p : forall ro o seg rest value v0 o0,
  setNodeValue (Reflected (mkValue ro o)) p v0 = (o0, Nil) ->
  setNodeValue (Reflected (mkValue ro o)) (p ++ seg :: rest) value =
  (allocated o p, Err (errors.New "Node is not a struct")).
Proof.
  induction p as [|s p' IH]; intros ro o seg rest value v0 o0 H.
  - cbn [setNodeValue] in H. apply setLeaf_written in H. destruct H as (_ & Hleaf & _).
    cbn [obj] in Hleaf. cbn [app allocated]. now apply setNodeValue_below_leaf.
  - apply setNodeValue_step_inv in H.
    destruct H as (fields & sf & fv & fv1 & Hnil & Helem & Hfind & Hchild & _).
    rewrite <- app_comm_cons, setNodeValue_lens, Hnil, Helem, Hfind.
    rewrite (IH _ fv seg rest value v0 fv1 Hchild).
    cbn [allocated]. rewrite Helem, Hfind. reflexivity.
Qed.

Lemma allocated_present p : forall o x, getNodeValue o p = Some x -> allocated o p = o.
Proof.
  induction p as [|s p' IH]; intros o x Hget; [reflexivity|].
  rewrite getNodeValue_cons in Hget. cbn [allocated].
  destruct (nilPointer o) eqn:Hnil; [discriminate|].
  pose proof (putElem_elemOf o Hnil) as Hput.
  destruct (elemOf o) as [b|k i|k u|f|y|fields|t tg]; try discriminate.
  destruct (findField s fields) as [fv|] eqn:Hfind; [|discriminate].
  apply findField_entry in Hfind. destruct Hfind as (sf & Hfind). rewrite Hfind.
  rewrite (IH fv x Hget), (updateField_same _ _ _ _ Hfind). exact Hput.
Qed.

(** A key that goes on below a scalar field fails with "Node is not a
    struct".  When the path to the field can be overridden, the tree is
    left as the walk along that path leaves it: unchanged if every record
    on the way is present, and with the absent ones allocated otherwise.
    When the field is reached through records that are present the tree is
    unchanged, whether or not the fields on the way are exported.  On a
    [ConfigRoot], [server.address.port] changes nothing, and
    [server.auth.username.port] leaves an auth record, the zero one if
    there was none. *)
Theorem setParameter_below_a_leaf :
  (forall c key value p seg rest v0 c0,
      strings.Split key "." = p ++ seg :: rest ->
      setNodeValue (Pointer c) p v0 = (c0, Nil) ->
      setParameter c key value = (allocated c p, Err (errors.New "Node is not a struct"))) /\
  (forall c p x, getNodeValue c p = Some x -> allocated c p = c) /\
  (forall c key value p leaf seg rest,
      strings.Split key "." = p ++ seg :: rest ->
      getNodeValue c p = Some leaf -> isLeaf leaf = true ->
      setParameter c key value = (c, Err (errors.New "Node is not a struct"))) /\
  (forall config value,
      setParameter (ValueOf config) "server.address.port" value =
        (ValueOf config, Err (errors.New "Node is not a struct")) /\
      setParameter (ValueOf config) "server.auth.username.port" value =
        (ValueOf (withAuth config (Some (match Auth (Server config) with
                                         | Some a => a
                                         | None => mkConfigAuth "" ""
                                         end))),
         Err (errors.New "Node is not a struct")) /\
      allocated (ValueOf config) ["server"; "auth"; "username"] =
        ValueOf (withAuth config (Some (match Auth (Server config) with
                                        | Some a => a
                                        | None => mkConfigAuth "" ""
                                        end)))).
Proof.
  split; [|split; [|split]].
  - unfold setParameter. intros c key value p seg rest v0 c0 -> H.
    destruct p as [|s p']; [discriminate|].
    rewrite setNodeValue_Pointer in H.
    rewrite <- app_comm_cons, setNodeValue_Pointer, app_comm_cons.
    eapply setNodeValue_below_accepted; eauto.
  - intros c p x. apply allocated_present.
  - unfold setParameter. intros c key value p leaf seg rest -> Hget Hleaf.
    destruct p as [|s p'].
    + cbn in Hget. inversion Hget; subst. cbn [app].
      rewrite setNodeValue_Pointer. now apply setNodeValue_below_leaf.
    + rewrite <- app_comm_cons, setNodeValue_Pointer, app_comm_cons.
      eapply setNodeValue_through_leaf; eauto.
  - intros config value. repeat split; open_config config; reflexivity.
Qed.

Lemma setParameter_below_a_leaf_witness :
  setParameter (ValueOf defaultContent) "server.auth.username.port" "80" =
    (allocated (ValueOf defaultContent) ["server"; "auth"; "username"],
     Err (errors.New "Node is not a struct")) /\
  setParameter (ValueOf defaultContent) "server.address.port" "80" =
    (ValueOf defaultContent, Err (errors.New "Node is not a struct")).
Proof.
  split.
  - apply (proj1 setParameter_below_a_leaf (ValueOf defaultContent)
             "server.auth.username.port" "80" ["server"; "auth"; "username"] "port" [] "u"
             (ValueOf (withAuth defaultContent (Some (mkConfigAuth "u" ""))))); reflexivity.
  - apply (proj1 (proj2 (proj2 setParameter_below_a_leaf)) (ValueOf defaultContent)
             "server.address.port" "80"
             ["server"; "address"] (OString "127.0.0.1:8081") "port" []); reflexivity.
Defined.

(** A key whose path ends at a pointer fails with "Leaf node type not
    implemented" and changes nothing: the pointer is not allocated when it
    is nil.  So [server.auth] is refused, the auth record being present or
    not. *)
Theorem setParameter_ending_at_pointer :
  (forall c key value elem target,
      exportedTree c = true ->
      getNodeValue c (strings.Split key ".") = Some (OPtr elem target) ->
      setParameter c key value = (c, Err SchemaError)) /\
  (forall config value,
      setParameter (ValueOf config) "server.auth" value = (ValueOf config, Err SchemaError)).
Proof.
  assert (G : forall c key value elem target,
      exportedTree c = true ->
      getNodeValue c (strings.Split key ".") = Some (OPtr elem target) ->
      setParameter c key value = (c, Err SchemaError)).
  { unfold setParameter. intros c key value elem target Hexp Hget.
    destruct (strings.Split key ".") as [|seg rest] eqn:E; [now apply Split_nonempty in E|].
    rewrite setNodeValue_Pointer.
    eapply setNodeValue_leaf_refused; eauto. }
  split; [exact G|].
  intros config value.
  destruct (Auth (Server config)) as [auth|] eqn:Hauth.
  - apply (G _ _ _ TypeOf.ConfigAuth (Some (ValueOfAuth auth))); [apply exportedTree_ValueOf|].
    open_config config; try discriminate Hauth. cbn in Hauth. inversion Hauth; subst. reflexivity.
  - apply (G _ _ _ TypeOf.ConfigAuth None); [apply exportedTree_ValueOf|].
    open_config config; try discriminate Hauth. reflexivity.
Qed.

Lemma setParameter_ending_at_pointer_witness :
  setParameter (ValueOf defaultContent) "server.auth" "x" =
  (ValueOf defaultContent, Err SchemaError).
Proof.
  apply (proj1 setParameter_ending_at_pointer (ValueOf defaultContent) "server.auth" "x"
           TypeOf.ConfigAuth None); reflexivity.
Defined.

Lemma anchorPath_unmarked relativeTo config path :
  strings.HasPrefix (load path config) "~" = false -> anchorPath relativeTo config path = config.
Proof. unfold anchorPath. intros ->. reflexivity. Qed.

(** With an anchor directory that is an absolute path, a successful
    [ReadConfig] leaves no marker: none of the fields databases, results and
    mmseqs then starts with [~], each that was marked is an absolute path,
    and anchoring the result again, to any directory, changes nothing. *)
Theorem ReadConfig_absolute_anchor :
  forall Reader decode (r : Reader) relativeTo config,
    decode r zeroConfig = (config, None) ->
    strings.HasPrefix relativeTo "/" = true ->
    let config' := fst (ReadConfig Reader decode r relativeTo) in
    Forall (fun path : stringRef =>
              strings.HasPrefix (load path config') "~" = false /\
              (strings.HasPrefix (load path config) "~" = true ->
               strings.HasPrefix (load path config') "/" = true))
           [refDatabases; refResults; refMmseqs] /\
    forall other,
      List.fold_left (anchorPath other) [refDatabases; refResults; refMmseqs] config' = config'.
Proof.
  intros Reader decode r relativeTo config Hdecode Hroot config'.
  subst config'. rewrite (ReadConfig_resolved _ _ _ _ _ Hdecode). cbn [fst].
  destruct (resolvePath_rooted relativeTo (Databases (Paths config)) Hroot) as [Hd1 Hd2].
  destruct (resolvePath_rooted relativeTo (Results (Paths config)) Hroot) as [Hr1 Hr2].
  destruct (resolvePath_rooted relativeTo (Mmseqs (Paths config)) Hroot) as [Hm1 Hm2].
  split.
  - repeat constructor; assumption.
  - intros other. cbn [List.fold_left].
    rewrite (anchorPath_unmarked other _ refDatabases) by exact Hd1.
    rewrite (anchorPath_unmarked other _ refResults) by exact Hr1.
    rewrite (anchorPath_unmarked other _ refMmseqs) by exact Hm1.
    reflexivity.
Qed.

Lemma ReadConfig_absolute_anchor_witness :
  let config' := fst (ReadConfig unit (fun _ _ => (defaultContent, None)) tt "/opt/app") in
  Forall (fun path : stringRef =>
            strings.HasPrefix (load path config') "~" = false /\
            (strings.HasPrefix (load path defaultContent) "~" = true ->
             strings.HasPrefix (load path config') "/" = true))
         [refDatabases; refResults; refMmseqs] /\
  forall other,
    List.fold_left (anchorPath other) [refDatabases; refResults; refMmseqs] config' = config'.
Proof.
  apply (ReadConfig_absolute_anchor unit (fun _ _ => (defaultContent, None)) tt "/opt/app"
           defaultContent); reflexivity.
Defined.

Lemma ReadConfig_anchored Reader decode (r : Reader) relativeTo config :
  decode r zeroConfig = (config, None) ->
  strings.HasPrefix relativeTo "/" = true ->
  Forall (fun path : stringRef =>
            strings.HasPrefix (load path (fst (ReadConfig Reader decode r relativeTo))) "~" = false /\
            (strings.HasPrefix (load path config) "~" = true ->
             strings.HasPrefix (load path (fst (ReadConfig Reader decode r relativeTo))) "/" = true))
         [refDatabases; refResults; refMmseqs].
Proof.
  intros Hdecode Hroot.
  rewrite (ReadConfig_resolved _ _ _ _ _ Hdecode). cbn [fst].
  destruct (resolvePath_rooted relativeTo (Databases (Paths config)) Hroot) as [Hd1 Hd2].
  destruct (resolvePath_rooted relativeTo (Results (Paths config)) Hroot) as [Hr1 Hr2].
  destruct (resolvePath_rooted relativeTo (Mmseqs (Paths config)) Hroot) as [Hm1 Hm2].
  repeat constructor; assumption.
Qed.

Section LoaderCallersProperties.

Variable Reader : Type.
Variable DecodeJsonAndValidate : Reader -> ConfigRoot -> ConfigRoot * option error.
Variable os_Open : string -> Reader + error.
Variable filepath_Abs : string -> string + error.
Variable os_Executable : string + error.
Variable defaultReader : Reader.

(** [ReadConfigFromFile] anchors the paths at the directory of the absolute
    name of the file, [DefaultConfig] at the directory of the executable:
    each is [ReadConfig] with that directory, on the opened file, resp. on
    the default content.  If the name is an absolute path so is the
    directory, and when the decoding succeeds the result is the decoded tree
    with the three path fields resolved against that directory, so that
    every marked field comes out absolute.  When the file cannot be opened
    or has no absolute name, [ReadConfigFromFile] returns the zero tree with
    that error and nothing is decoded; when the executable is not known,
    [DefaultConfig] panics with that error.  The directory of
    [/opt/app/mmseqs-web] is [/opt/app]. *)
Theorem loaders_anchor_at_directory :
  (forall name file absPath,
      os_Open name = inl file -> filepath_Abs name = inl absPath ->
      ReadConfigFromFile Reader DecodeJsonAndValidate os_Open filepath_Abs name =
        ReadConfig Reader DecodeJsonAndValidate file (filepath_Dir absPath)) /\
  (forall ex,
      os_Executable = inl ex ->
      DefaultConfig Reader DecodeJsonAndValidate os_Executable defaultReader =
        let '(config, err) :=
          ReadConfig Reader DecodeJsonAndValidate defaultReader (filepath_Dir ex) in
        Returned config err) /\
  (forall path,
      strings.HasPrefix path "/" = true ->
      strings.HasPrefix (filepath_Dir path) "/" = true) /\
  (forall name file absPath config,
      os_Open name = inl file -> filepath_Abs name = inl absPath ->
      strings.HasPrefix absPath "/" = true ->
      DecodeJsonAndValidate file zeroConfig = (config, None) ->
      ReadConfigFromFile Reader DecodeJsonAndValidate os_Open filepath_Abs name =
        (withPaths config
           (mkConfigPaths (resolvePath (filepath_Dir absPath) (Databases (Paths config)))
                          (resolvePath (filepath_Dir absPath) (Results (Paths config)))
                          (Temporary (Paths config))
                          (resolvePath (filepath_Dir absPath) (Mmseqs (Paths config)))),
         None) /\
      forall path, In path [refDatabases; refResults; refMmseqs] ->
        strings.HasPrefix (load path config) "~" = true ->
        strings.HasPrefix
          (load path (fst (ReadConfigFromFile Reader DecodeJsonAndValidate os_Open
                             filepath_Abs name))) "/" = true) /\
  (forall ex config,
      os_Executable = inl ex -> strings.HasPrefix ex "/" = true ->
      DecodeJsonAndValidate defaultReader zeroConfig = (config, None) ->
      DefaultConfig Reader DecodeJsonAndValidate os_Executable defaultReader =
        Returned
          (withPaths config
             (mkConfigPaths (resolvePath (filepath_Dir ex) (Databases (Paths config)))
                            (resolvePath (filepath_Dir ex) (Results (Paths config)))
                            (Temporary (Paths config))
                            (resolvePath (filepath_Dir ex) (Mmseqs (Paths config)))))
          None /\
      forall path, In path [refDatabases; refResults; refMmseqs] ->
        strings.HasPrefix (load path config) "~" = true ->
        strings.HasPrefix
          (load path (fst (ReadConfig Reader DecodeJsonAndValidate defaultReader
                             (filepath_Dir ex)))) "/" = true) /\
  (forall name err,
      os_Open name = inr err \/
      (exists file, os_Open name = inl file /\ filepath_Abs name = inr err) ->
      ReadConfigFromFile Reader DecodeJsonAndValidate os_Open filepath_Abs name =
        (zeroConfig, Some err)) /\
  (forall err,
      os_Executable = inr err ->
      DefaultConfig Reader DecodeJsonAndValidate os_Executable defaultReader = Panicked err) /\
  filepath_Dir "/opt/app/mmseqs-web" = "/opt/app" /\
  filepath_Dir "/etc/mmseqs/config.json" = "/etc/mmseqs" /\
  filepath_Dir "/mmseqs-web" = "/" /\
  filepath_Dir "config.json" = ".".
Proof.
  split; [|split; [|split; [|split; [|split; [|split; [|split]]]]]].
  - intros name file absPath Hopen Habs.
    unfold ReadConfigFromFile. rewrite Hopen, Habs. reflexivity.
  - intros ex Hex. unfold DefaultConfig. rewrite Hex. reflexivity.
  - exact Dir_rooted.
  - intros name file absPath config Hopen Habs Hroot Hdecode.
    unfold ReadConfigFromFile. rewrite Hopen, Habs.
    pose proof (Dir_rooted _ Hroot) as Hdir.
    split; [exact (ReadConfig_resolved _ _ _ _ _ Hdecode)|].
    intros path Hin Hmarked.
    pose proof (ReadConfig_anchored _ _ _ _ _ Hdecode Hdir) as Hall.
    rewrite Forall_forall in Hall. now apply (Hall path Hin).
  - intros ex config Hex Hroot Hdecode.
    pose proof (Dir_rooted _ Hroot) as Hdir.
    unfold DefaultConfig. rewrite Hex.
    split; [rewrite (ReadConfig_resolved _ _ _ _ _ Hdecode); reflexivity|].
    intros path Hin Hmarked.
    pose proof (ReadConfig_anchored _ _ _ _ _ Hdecode Hdir) as Hall.
    rewrite Forall_forall in Hall. now apply (Hall path Hin).
  - intros name err [Hopen|(file & Hopen & Habs)]; unfold ReadConfigFromFile;
      rewrite Hopen; [reflexivity|]. rewrite Habs. reflexivity.
  - intros err Hex. unfold DefaultConfig. rewrite Hex. reflexivity.
  - repeat split; reflexivity.
Qed.

End LoaderCallersProperties.

Lemma loaders_anchor_at_directory_witness :
  ReadConfigFromFile unit (fun _ _ => (defaultContent, None)) (fun _ => inl tt)
                     (fun name => inl ("/etc/mmseqs/" ++ name)%string) "config.json" =
    (withPaths defaultContent
       (mkConfigPaths "/etc/mmseqs/databases" "/etc/mmseqs/jobs" "" "/etc/mmseqs/mmseqs"), None) /\
  DefaultConfig unit (fun _ _ => (defaultContent, None)) (inl "/opt/app/mmseqs-web") tt =
    Returned
      (withPaths defaultContent
         (mkConfigPaths "/opt/app/databases" "/opt/app/jobs" "" "/opt/app/mmseqs")) None.
Proof.
  split.
  - destruct (proj1 (proj2 (proj2 (proj2
                (loaders_anchor_at_directory unit (fun _ _ => (defaultContent, None))
                     (fun _ => inl tt) (fun name => inl ("/etc/mmseqs/" ++ name)%string)
                     (inl "/opt/app/mmseqs-web") tt))))
                  "config.json" tt "/etc/mmseqs/config.json" defaultContent
                  eq_refl eq_refl eq_refl eq_refl) as [H _].
    rewrite H. reflexivity.
  - destruct (proj1 (proj2 (proj2 (proj2 (proj2
                (loaders_anchor_at_directory unit (fun _ _ => (defaultContent, None))
                     (fun _ => inl tt) (fun name => inl ("/etc/mmseqs/" ++ name)%string)
                     (inl "/opt/app/mmseqs-web") tt)))))
                  "/opt/app/mmseqs-web" defaultContent eq_refl eq_refl eq_refl) as [H _].
    rewrite H. reflexivity.
Defined.
